(** * Bitwise (Fredkin) trie index: a model of [bitwise_trie.hpp]

    The index is intrusive: all housekeeping lives in the indexed items
    and in one head record, and the algorithms walk and mutate raw item
    references.  The model therefore keeps an explicit store of items
    addressed by their (integer) addresses, a head record, and runs the
    member functions of [bitwise_trie] in a state-and-error monad:
    dereferencing the null reference, or an address holding no item, is
    an error, and every unbounded loop of the source takes fuel.

    The header is a template that is never instantiated in the
    repository, and a few of its lines do not compile once it is.  Where
    a line cannot be given its literal meaning the model takes the only
    well-typed reading and says so next to the definition; everything
    else is transcribed as written, including what looks unintended.
    Assertions are compiled out (NDEBUG). *)

From Stdlib Require Import ZArith Lia Bool List.
From stdpp Require Import base option numbers list gmap.

Local Open Scope Z_scope.

(** ** Template parameters *)

(** [key_type_bits] is [8 * sizeof(key_type)], [index_type_bits] is
    [8 * sizeof(size_type)] (the type of [trie_count]) and [NobbleDir] is
    the third template argument of [bitwise_trie]. *)
Class TrieParams := {
  key_type_bits : Z;
  index_type_bits : Z;
  NobbleDir : Z
}.

(** Widths of the machine types the header mentions by name. *)
Definition uintptr_bits : Z := 64.
Definition unsigned_bits : Z := 32.
Definition int_bits : Z := 32.

(** ** Items and the head record *)

(** An item reference is an address; [nullptr] is address 0. *)
Abbreviation ptr := Z (only parsing).
Definition nullptr : ptr := 0.

(** The member variables the default item accessor requires:
    [trie_parent], [trie_child[2]], [trie_sibling[2]], [trie_key]. *)
Record item := Item {
  trie_parent : ptr;
  trie_child : ptr * ptr;
  trie_sibling : ptr * ptr;
  trie_key : Z
}.

(** The member variables the default head accessor requires:
    [trie_count], [trie_children[]], [trie_nobbledir]. *)
Record head := Head {
  trie_count : Z;
  trie_children : list ptr;
  trie_nobbledir : bool
}.

(** A two-element array indexed by a [bool]: [a[i]] and [a[i] = x]. *)
Definition nth2 (a : ptr * ptr) (i : bool) : ptr :=
  if i then snd a else fst a.
Definition upd2 (a : ptr * ptr) (i : bool) (x : ptr) : ptr * ptr :=
  if i then (fst a, x) else (x, snd a).

(** ** [detail::bitscanr] *)

(** Position of the highest set bit; zero for a zero argument. *)
Definition bitscanr (value : Z) : Z :=
  if value =? 0 then 0 else Z.log2 value.

(** ** [bitwise_trie_item_accessors], on the item it wraps *)

Module item_accessors.

Definition parent (v : item) : ptr := trie_parent v.
Definition set_parent (x : ptr) (v : item) : item :=
    Item x (trie_child v) (trie_sibling v) (trie_key v).

  (** [((uintptr_t) _v->trie_parent & 3) == 3] *)
Definition parent_is_index (v : item) : bool :=
    Z.land (trie_parent v) 3 =? 3.
  (** [((unsigned) _v->trie_parent) >> 2] *)
Definition bit_index (v : item) : Z :=
    Z.shiftr (trie_parent v mod 2 ^ unsigned_bits) 2.
  (** [_v->trie_parent = (ItemType * )(((uintptr_t) bit_index << 2) | 3)] *)
Definition set_parent_is_index (bit_index : Z) (v : item) : item :=
    Item (Z.lor (Z.shiftl bit_index 2 mod 2 ^ uintptr_bits) 3)
         (trie_child v) (trie_sibling v) (trie_key v).

Definition child (right : bool) (v : item) : ptr := nth2 (trie_child v) right.
Definition set_child (right : bool) (x : ptr) (v : item) : item :=
    Item (trie_parent v) (upd2 (trie_child v) right x) (trie_sibling v) (trie_key v).

Definition sibling (right : bool) (v : item) : ptr := nth2 (trie_sibling v) right.
  (** The source writes [_v.trie_sibling[right] = x] on a pointer [_v];
      the member access is read as [_v->trie_sibling[right]]. *)
Definition set_sibling (right : bool) (x : ptr) (v : item) : item :=
    Item (trie_parent v) (trie_child v) (upd2 (trie_sibling v) right x) (trie_key v).

Definition key (v : item) : Z := trie_key v.

Definition is_primary_sibling (v : item) : bool := negb (trie_parent v =? nullptr).
Definition is_secondary_sibling (v : item) : bool := trie_parent v =? nullptr.
Definition set_is_secondary_sibling (v : item) : item :=
    Item nullptr (trie_child v) (trie_sibling v) (trie_key v).

End item_accessors.

(** ** [bitwise_trie_head_accessors], on the head it wraps *)

Module head_accessors.
Section with_params.
Context {TP : TrieParams}.

Definition size (v : head) : Z := trie_count v.
  (** [++_v->trie_count] and [--_v->trie_count] on an unsigned count. *)
Definition incr_size (v : head) : head :=
    Head ((trie_count v + 1) mod 2 ^ index_type_bits) (trie_children v) (trie_nobbledir v).
Definition decr_size (v : head) : head :=
    Head ((trie_count v - 1) mod 2 ^ index_type_bits) (trie_children v) (trie_nobbledir v).
Definition set_size (x : Z) (v : head) : head :=
    Head x (trie_children v) (trie_nobbledir v).

  (** [(_index_type) -1] *)
Definition max_size : Z := 2 ^ index_type_bits - 1.

  (** [_v->trie_children[idx]]; an index outside the array is an error. *)
Definition child (idx : Z) (v : head) : option ptr :=
    if idx <? 0 then None else trie_children v !! Z.to_nat idx.
Definition set_child (idx : Z) (x : ptr) (v : head) : option head :=
    if (0 <=? idx) && (idx <? Z.of_nat (length (trie_children v)))
    then Some (Head (trie_count v) (<[Z.to_nat idx := x]> (trie_children v)) (trie_nobbledir v))
    else None.

  (** The source assigns to a member [nobbledir] that the documented
      head does not have; it is read as [trie_nobbledir], the flag the
      same expression negates. *)
Definition flip_nobbledir (v : head) : bool * head :=
    (negb (trie_nobbledir v), Head (trie_count v) (trie_children v) (negb (trie_nobbledir v))).

End with_params.
End head_accessors.

(** ** The store and the monad the member functions run in *)

(** The index object lives at address [st_this]; [st_head] is its head
    record (the [Base] sub-object) and [st_items] holds every item the
    caller owns, by address. *)
Record state := State {
  st_this : ptr;
  st_head : head;
  st_items : gmap Z item
}.

Definition M (A : Type) : Type := state -> option (A * state).

Definition ret {A} (a : A) : M A := fun s => Some (a, s).
Definition bind {A B} (m : M A) (f : A -> M B) : M B :=
  fun s => match m s with
           | Some (a, s') => f a s'
           | None => None
           end.
Definition fail {A} : M A := fun _ => None.

Notation "'let!' x := c 'in' k" := (bind c (fun x => k))
  (at level 10, x name, c at level 100, k at level 200).
Notation "c ;;; k" := (bind c (fun _ => k))
  (at level 100, k at level 200, right associativity).

(** [*p]: null, or an address holding no item, is an error. *)
Definition load (p : ptr) : M item :=
  fun s => if p =? nullptr then None
           else match st_items s !! p with
                | Some v => Some (v, s)
                | None => None
                end.

(** [_item_accessors(p).f()] for a reading accessor [f]. *)
Definition get {A} (p : ptr) (f : item -> A) : M A :=
  let! v := load p in ret (f v).

(** [_item_accessors(p).f(..)] for a writing accessor [f]. *)
Definition set (p : ptr) (f : item -> item) : M unit :=
  let! v := load p in
  fun s => Some (tt, State (st_this s) (st_head s) (<[p := f v]> (st_items s))).

Definition hget {A} (f : head -> A) : M A :=
  fun s => Some (f (st_head s), s).
Definition hset (f : head -> head) : M unit :=
  fun s => Some (tt, State (st_this s) (f (st_head s)) (st_items s)).
Definition hchild (idx : Z) : M ptr :=
  fun s => match head_accessors.child idx (st_head s) with
           | Some x => Some (x, s)
           | None => None
           end.
Definition hset_child (idx : Z) (x : ptr) : M unit :=
  fun s => match head_accessors.set_child idx x (st_head s) with
           | Some h => Some (tt, State (st_this s) h (st_items s))
           | None => None
           end.

(** ** The trie engine *)

Section engine.
Context {TP : TrieParams}.
Import item_accessors.

  (** [for(; bitidx < _key_type_bits && nullptr == (node = head.child(bitidx)); bitidx++)]
      with [n] the number of slots left to look at; yields the final
      [bitidx] and [node]. *)
Fixpoint scan_up (n : nat) (bitidx : Z) : M (Z * ptr) :=
    match n with
    | O => ret (bitidx, nullptr)
    | S n' =>
        let! node := hchild bitidx in
        if node =? nullptr then scan_up n' (bitidx + 1) else ret (bitidx, node)
    end.

Definition _triemin : M ptr :=
    let! sz := hget head_accessors.size in
    if sz =? 0 then ret nullptr
    else let! r := scan_up (Z.to_nat key_type_bits) 0 in ret (snd r).

  (** [head.size() + 1 < head.size()]: a count narrower than [int] is
      promoted and the sum cannot wrap; otherwise it wraps at the width of
      the count. *)
Definition size_would_wrap (sz : Z) : bool :=
    if index_type_bits <? int_bits then sz + 1 <? sz
    else (sz + 1) mod 2 ^ index_type_bits <? sz.

  (** The [for(;;node = childnode)] loop of [_trieinsert].  The condition
      the source spells [nullptr = nodelink.sibling(true)] is read as the
      comparison [nullptr == nodelink.sibling(true)]. *)
Fixpoint insert_walk (fuel : nat) (r : ptr) (rkey keybit : Z) (node : ptr) : M unit :=
    match fuel with
    | O => fail
    | S fuel' =>
        let! nodekey := get node key in
        if nodekey =? rkey then
          (* Insert into end of ring list *)
          set r set_is_secondary_sibling ;;;
          set r (set_sibling true node) ;;;
          let! p := get node (sibling false) in
          (if negb (p =? nullptr) then set r (set_sibling false p)
           else set r (set_sibling false node)) ;;;
          set node (set_sibling false r) ;;;
          let! nx := get node (sibling true) in
          (if nx =? nullptr then set node (set_sibling true r) else ret tt)
        else
          let keybit := Z.shiftr keybit 1 in
          let keybitset := negb (Z.land rkey keybit =? 0) in
          let! childnode := get node (child keybitset) in
          if childnode =? nullptr then
            (* Insert here *)
            set r (set_parent node) ;;;
            set node (set_child keybitset r)
          else insert_walk fuel' r rkey keybit childnode
    end.

  (** [head.set_child(bitidx) = r] is read as [head.set_child(bitidx, r)]. *)
Definition _trieinsert (fuel : nat) (r : ptr) : M bool :=
    let! sz := hget head_accessors.size in
    if size_would_wrap sz then ret false
    else
      let! rkey := get r key in
      set r (set_parent nullptr) ;;;
      set r (set_child false nullptr) ;;;
      set r (set_child true nullptr) ;;;
      set r (set_sibling false r) ;;;
      set r (set_sibling true r) ;;;
      let bitidx := bitscanr rkey in
      let keybit := Z.shiftl 1 bitidx mod 2 ^ key_type_bits in
      let! node := hchild bitidx in
      if node =? nullptr then
        (* Set parent is index flag *)
        set r (set_parent_is_index bitidx) ;;;
        hset_child bitidx r ;;;
        hset head_accessors.incr_size ;;;
        ret true
      else
        insert_walk fuel r rkey keybit node ;;;
        hset head_accessors.incr_size ;;;
        ret true.

  (** [_to_nobble] has no [return] and never calls the function object it
      names; it is read as returning
      [nobble_function_implementation<nobble_direction>()(_head_accessors())]. *)
Definition _to_nobble : M bool :=
    if NobbleDir <? 0 then ret false
    else if 0 <? NobbleDir then ret true
    else fun s =>
      let '(d, h) := head_accessors.flip_nobbledir (st_head s) in
      Some (d, State (st_this s) h (st_items s)).

  (** The lambda [set_parent] of [trieremove]: gives [node] the place of
      [r] under [r]'s parent or head slot.  [rlink.parent()->child(..)] is
      read through the item accessor of [rlink.parent()]; the closing
      [set_is_primary_sibling] of the lambda only asserts and is left
      out. *)
Definition remove_set_parent (r node : ptr) : M unit :=
    let! isidx := get r parent_is_index in
    if isidx then
      let! bitidx := get r bit_index in
      hset_child bitidx node ;;;
      set node (set_parent_is_index bitidx)
    else
      let! rp := get r parent in
      let! c0 := get rp (child false) in
      (if c0 =? r then set rp (set_child false node)
       else set rp (set_child true node)) ;;;
      let! rp' := get r parent in
      set node (set_parent rp').

  (** The [for(;;)] loop of [trieremove] that looks for a childless
      descendant, preferring [child(nobbledir)]. *)
Fixpoint nobble_walk (fuel : nat) (nobbledir : bool) (childnode : ptr)
      (parentchildidx : bool) : M (ptr * bool) :=
    match fuel with
    | O => fail
    | S fuel' =>
        let! c := get childnode (child nobbledir) in
        if negb (c =? nullptr) then nobble_walk fuel' nobbledir c nobbledir
        else
          let! c' := get childnode (child (negb nobbledir)) in
          if negb (c' =? nullptr) then nobble_walk fuel' nobbledir c' (negb nobbledir)
          else ret (childnode, parentchildidx)
    end.

  (** Splices [r] out of its ring: the first four statements of the
      secondary-sibling and of the sibling-replacement cases.  Yields the
      final [node], which is [rlink.sibling(true)]. *)
Definition ring_unlink (r : ptr) : M ptr :=
    let! node := get r (sibling false) in
    let! nx := get r (sibling true) in
    set node (set_sibling true nx) ;;;
    let! node := get r (sibling true) in
    let! pv := get r (sibling false) in
    set node (set_sibling false pv) ;;;
    ret node.

(** The childless case of [trieremove]: clears the head slot or the
    parent's child slot that refers to [r]. *)
Definition unlink_leaf (r : ptr) : M unit :=
  let! isidx := get r parent_is_index in
  if isidx then
    let! bitidx := get r bit_index in
    hset_child bitidx nullptr
  else
    let! rp := get r parent in
    let! pc0 := get rp (child false) in
    if pc0 =? r then set rp (set_child false nullptr)
    else set rp (set_child true nullptr).

(** "Set the replacement node to my children, and their parent to the new
    node": [trieremove] has this block once for [child(false)] and once
    for [child(true)]. *)
Definition adopt_child (c : bool) (r node : ptr) : M unit :=
  let! rc := get r (child c) in
  if negb (rc =? nullptr) then
    set node (set_child c rc) ;;;
    set rc (set_parent node)
  else ret tt.

Definition adopt_children (r node : ptr) : M unit :=
  adopt_child false r node ;;;
  adopt_child true r node.

(** The search of [trieremove] for a childless descendant of [r]: the
    choice of the first child, then the loop. *)
Definition find_replacement (fuel : nat) (nobbledir : bool) (r : ptr) : M (ptr * bool) :=
  let! c := get r (child nobbledir) in
  let! start := (if negb (c =? nullptr) then ret (c, nobbledir)
                 else let! c' := get r (child (negb nobbledir)) in
                      ret (c', negb nobbledir)) in
  nobble_walk fuel nobbledir (fst start) (snd start).

Definition trieremove (fuel : nat) (r : ptr) : M unit :=
  let! _ := get r key in
  let! sec := get r is_secondary_sibling in
  if sec then
    (* Remove from linked list *)
    ring_unlink r ;;;
    hset head_accessors.decr_size
  else
    let! nx := get r (sibling true) in
    if negb (nx =? r) then
      (* Can I replace me with a sibling? *)
      let! node := ring_unlink r in
      remove_set_parent r node ;;;
      hset head_accessors.decr_size
    else
      let! c0 := get r (child false) in
      let! c1 := get r (child true) in
      if (c0 =? nullptr) && (c1 =? nullptr) then
        (* Can I simply remove myself from my parent? *)
        unlink_leaf r ;;;
        hset head_accessors.decr_size
      else
        (* I need someone to replace me in the trie *)
        let! nobbledir := _to_nobble in
        let! found := find_replacement fuel nobbledir r in
        let childnode := fst found in
        let parentchildidx := snd found in
        (* Detach this grandchild from its parent *)
        let! cp := get childnode parent in
        set cp (set_child parentchildidx nullptr) ;;;
        let node := childnode in
        (* Set the replacement node to my children *)
        adopt_children r node ;;;
        (* Set my parent to point at the replacement node *)
        remove_set_parent r node ;;;
        hset head_accessors.decr_size.

(** [while(!rlink.is_primary_sibling()) r = rlink.sibling(true)] *)
Fixpoint to_primary (fuel : nat) (r : ptr) : M ptr :=
    match fuel with
    | O => fail
    | S fuel' =>
        let! prim := get r is_primary_sibling in
        if prim then ret r
        else let! nx := get r (sibling true) in to_primary fuel' nx
    end.

  (** [while(!rlink.parent_is_index())] of [_triebranchnext]; yields the
      result and the accessor stored through [rlinkaddr] (null when the
      function returns before storing it). *)
Fixpoint trace_up_next (fuel : nat) (r : ptr) : M (ptr * ptr) :=
    match fuel with
    | O => fail
    | S fuel' =>
        let! isidx := get r parent_is_index in
        if isidx then ret (nullptr, r)
        else
          let! node := get r parent in
          let! c0 := get node (child false) in
          let! c1 := get node (child true) in
          if (c0 =? r) && negb (c1 =? nullptr) then ret (c1, nullptr)
          else trace_up_next fuel' node
    end.

  (** The first test compares [rlink.sibling(true)] with [node], which is
      still null at that point. *)
Definition _triebranchnext (fuel : nat) (r : ptr) : M (ptr * ptr) :=
    let! s1 := get r (sibling true) in
    let! leaf := (if negb (s1 =? nullptr)
             then let! prim := get s1 is_primary_sibling in ret (negb prim)
             else ret false) in
    if leaf then ret (s1, nullptr)
    else
      let! r := to_primary fuel r in
      let! c0 := get r (child false) in
      let! c1 := get r (child true) in
      let node := if negb (c0 =? nullptr) then c0 else c1 in
      if negb (node =? nullptr) then ret (node, nullptr)
      else trace_up_next fuel r.

Definition _trienext (fuel : nat) (r : ptr) : M ptr :=
    let! _ := get r key in
    let! br := _triebranchnext fuel r in
    if negb (fst br =? nullptr) then ret (fst br)
    else
      (* I have reached the top of my trie, so on to next bin *)
      let! bitidx := get (snd br) bit_index in
      let! sc := scan_up (Z.to_nat (key_type_bits - (bitidx + 1))) (bitidx + 1) in
      if key_type_bits <=? fst sc then ret nullptr else ret (snd sc).

  (** *** Iterators *)

Record iterator := Iterator { _parent : ptr; _p : ptr }.

Definition this_ : M ptr := fun s => Some (st_this s, s).

  (** [iterator_::_inc]; an iterator of another index is outside the
      model. *)
Definition _inc (fuel : nat) (it : iterator) : M iterator :=
    if negb (_parent it =? nullptr) && negb (_p it =? nullptr) then
      let! this := this_ in
      if _parent it =? this then
        let! p := _trienext fuel (_p it) in ret (Iterator (_parent it) p)
      else fail
    else ret it.

Definition end_ : M iterator :=
    let! this := this_ in ret (Iterator this nullptr).

Definition begin_ : M iterator :=
    let! this := this_ in let! p := _triemin in ret (Iterator this p).

  (** *** Public member functions *)

Fixpoint clear_loop (cnt : nat) (n : Z) : M unit :=
    match cnt with
    | O => ret tt
    | S cnt' => hset_child n nullptr ;;; clear_loop cnt' (n + 1)
    end.

Definition clear : M unit :=
    clear_loop (Z.to_nat key_type_bits) 0 ;;;
    hset (head_accessors.set_size 0).

Definition empty : M bool :=
    let! sz := hget head_accessors.size in ret (sz =? 0).

  (** Copy constructor and copy assignment share one body; [o] is the
      head of the index copied from. *)
Fixpoint copy_loop (cnt : nat) (n : Z) (o : head) : M unit :=
    match cnt with
    | O => ret tt
    | S cnt' =>
        match head_accessors.child n o with
        | Some x => hset_child n x ;;; copy_loop cnt' (n + 1) o
        | None => fail
        end
    end.

Definition copy_from (o : head) : M unit :=
    copy_loop (Z.to_nat key_type_bits) 0 o ;;;
    hset (head_accessors.set_size (head_accessors.size o)).

Definition insert (fuel : nat) (p : ptr) : M iterator :=
    let! sz := hget head_accessors.size in
    if sz <? head_accessors.max_size then
      let! ok := _trieinsert fuel p in
      if ok then let! this := this_ in ret (Iterator this p) else end_
    else end_.

  (** [erase(const_iterator)]; the call [_trieremove] is the member the
      header defines under the name [trieremove]. *)
Definition erase (fuel : nat) (it : iterator) : M iterator :=
    _inc fuel it ;;;
    trieremove fuel (_p it) ;;;
    ret it.

  (** *** Exact find *)

  (** Modelled from the spec: [_triefind], which the header calls but
      does not define.  Section 4.5: descend by successive key bits from
      the head slot of the key's highest set bit; on reaching a node with
      matching key return it (the primary); return not-found (null) when a
      required child is absent.  The descent tests the same bits, in the
      same order, as the walk of [_trieinsert]. *)
Fixpoint find_walk (fuel : nat) (k keybit : Z) (node : ptr) : M ptr :=
    match fuel with
    | O => fail
    | S fuel' =>
        let! nodekey := get node key in
        if nodekey =? k then ret node
        else
          let keybit := Z.shiftr keybit 1 in
          let keybitset := negb (Z.land k keybit =? 0) in
          let! childnode := get node (child keybitset) in
          if childnode =? nullptr then ret nullptr
          else find_walk fuel' k keybit childnode
    end.

Definition _triefind (fuel : nat) (k : Z) : M ptr :=
    let bitidx := bitscanr k in
    let keybit := Z.shiftl 1 bitidx mod 2 ^ key_type_bits in
    let! node := hchild bitidx in
    if node =? nullptr then ret nullptr
    else find_walk fuel k keybit node.

Definition find (fuel : nat) (k : Z) : M iterator :=
    let! p := _triefind fuel k in
    if negb (p =? nullptr) then let! this := this_ in ret (Iterator this p)
    else end_.

Definition contains (fuel : nat) (k : Z) : M bool :=
    let! p := _triefind fuel k in ret (negb (p =? nullptr)).

  (** [for(auto *i = plink.sibling(true); i != p; i = _item_accessors(i).sibling(true)) ret++] *)
Fixpoint count_ring (fuel : nat) (p i : ptr) (n : Z) : M Z :=
    match fuel with
    | O => fail
    | S fuel' =>
        if i =? p then ret n
        else
          let! i' := get i (sibling true) in
          count_ring fuel' p i' ((n + 1) mod 2 ^ index_type_bits)
    end.

Definition count (fuel : nat) (k : Z) : M Z :=
    let! p := _triefind fuel k in
    if negb (p =? nullptr) then
      let! i := get p (sibling true) in
      count_ring fuel p i 1
    else ret 0.

  (** [erase(key_type k)] is [erase(find(k))]. *)
Definition erase_key (fuel : nat) (k : Z) : M iterator :=
    let! it := find fuel k in erase fuel it.

  (** *** Forward traversal *)

  (** [for(it = begin(); it != end(); ++it)], collecting the items
      visited; [n] bounds the number of steps. *)
Fixpoint iterate (fuel n : nat) (it : iterator) : M (list ptr) :=
    match n with
    | O => fail
    | S n' =>
        if _p it =? nullptr then ret []
        else
          let! it' := _inc fuel it in
          let! rest := iterate fuel n' it' in
          ret (_p it :: rest)
    end.

Definition traversal (fuel : nat) : M (list ptr) :=
    let! b := begin_ in iterate fuel fuel b.

End engine.


(** ** The rest of the header

    The members of [bitwise_trie.hpp] that the development above does not
    need: the portable bit scan, the backward half of the engine
    ([_triemax], [_triebranchprev], [_trieprev]), the remaining iterator
    members, [front], [back] and [swap]. *)

(** *** [detail::bitscanr], portable branch

    The last preprocessor branch of [bitscanr], for a [size_t] of [w]
    bits ([w] is 32 or 64): smear the highest set bit downwards, invert,
    and count the set bits, which are the leading zeros of [value].
    [SIZE_MAX] is [2 ^ w - 1], [UCHAR_MAX] is 255 and [CHAR_BIT] is 8; the
    result is cast to [unsigned]. *)

Definition SIZE_MAX (w : Z) : Z := 2 ^ w - 1.

Definition smear (w : Z) (value : Z) : Z :=
  let x := value in
  let x := Z.lor x (Z.shiftr x 1) in
  let x := Z.lor x (Z.shiftr x 2) in
  let x := Z.lor x (Z.shiftr x 4) in
  let x := Z.lor x (Z.shiftr x 8) in
  let x := if 16 <? w then Z.lor x (Z.shiftr x 16) else x in
  let x := if 32 <? w then Z.lor x (Z.shiftr x 32) else x in
  x.

Definition count_leading (w : Z) (smeared : Z) : Z :=
  let x := Z.lnot smeared mod 2 ^ w in
  let x := (x - Z.land (Z.shiftr x 1) (SIZE_MAX w / 3)) mod 2 ^ w in
  let x := (Z.land x (SIZE_MAX w / 15 * 3) +
            Z.land (Z.shiftr x 2) (SIZE_MAX w / 15 * 3)) mod 2 ^ w in
  let x := (Z.land ((x + Z.shiftr x 4) mod 2 ^ w) (SIZE_MAX w / 255 * 15) *
            (SIZE_MAX w / 255)) mod 2 ^ w in
  let x := ((w - 1) - Z.shiftr x (8 * (w / 8 - 1))) mod 2 ^ w in
  x.

Definition bitscanr_generic (w : Z) (value : Z) : Z :=
  if value =? 0 then 0
  else count_leading w (smear w value) mod 2 ^ unsigned_bits.

Section engine_backward.
Context {TP : TrieParams}.
Import item_accessors.

  (** [for(; bitidx < _key_type_bits && nullptr == (node = head.child(bitidx)); bitidx--)]
      on an [unsigned] [bitidx], which wraps below zero; [node] is the
      variable the loop assigns.  Yields the final [bitidx] and [node]. *)
Fixpoint scan_down (fuel : nat) (bitidx : Z) (node : ptr) : M (Z * ptr) :=
    match fuel with
    | O => fail
    | S fuel' =>
        if bitidx <? key_type_bits then
          let! x := hchild bitidx in
          if x =? nullptr then scan_down fuel' ((bitidx - 1) mod 2 ^ unsigned_bits) x
          else ret (bitidx, x)
        else ret (bitidx, node)
    end.

  (** [while(nullptr != (child = (nodelink.child(true) != nullptr) ?
      nodelink.child(true) : nodelink.child(false)))]: "follow child[1]
      preferentially downwards". *)
Fixpoint descend_last (fuel : nat) (node : ptr) : M ptr :=
    match fuel with
    | O => fail
    | S fuel' =>
        let! c1 := get node (child true) in
        let! c := (if negb (c1 =? nullptr) then get node (child true)
                   else get node (child false)) in
        if negb (c =? nullptr) then descend_last fuel' c else ret node
    end.

  (** "Now go to end leaf": [if(nodelink.sibling(false) != node) return
      nodelink.sibling(false); return node;] *)
Definition end_leaf (node : ptr) : M ptr :=
    let! sb := get node (sibling false) in
    if negb (sb =? node) then ret sb else ret node.

Definition _triemax (fuel : nat) : M ptr :=
    let! sz := hget head_accessors.size in
    if sz =? 0 then ret nullptr
    else
      let! sc := scan_down fuel ((key_type_bits - 1) mod 2 ^ unsigned_bits) nullptr in
      let node := snd sc in
      (* [_lock_unlock_branch lock_unlock(this, nodelink.key(), ...)] *)
      let! _ := get node key in
      let! node := descend_last fuel node in
      end_leaf node.

  (** Yields the result and the accessor stored through [rlinkaddr] (null
      when the function returns before storing it).  The body of the
      [while(!rlink.parent_is_index())] loop returns on its first pass. *)
Definition _triebranchprev (fuel : nat) (r : ptr) : M (ptr * ptr) :=
    let! sb := get r (sibling false) in
    let! leaf := (if negb (sb =? r)
                  then let! prim := get sb is_primary_sibling in ret (negb prim)
                  else ret false) in
    if leaf then ret (sb, nullptr)
    else
      let! isidx := get r parent_is_index in
      if negb isidx then
        let! node := get r parent in
        let! c1 := get node (child true) in
        let! c0 := get node (child false) in
        let! node := (if (c1 =? r) && negb (c0 =? nullptr)
                      then descend_last fuel c0
                      else ret node) in
        let! x := end_leaf node in
        ret (x, nullptr)
      else ret (nullptr, r).

Definition _trieprev (fuel : nat) (r : ptr) : M ptr :=
    let! _ := get r key in
    let! br := _triebranchprev fuel r in
    if negb (fst br =? nullptr) || (snd br =? nullptr) then ret (fst br)
    else
      (* I have reached the top of my trie, so on to prev bin *)
      let! bitidx := get (snd br) bit_index in
      let! sc := scan_down fuel ((bitidx - 1) mod 2 ^ unsigned_bits) (fst br) in
      if key_type_bits <=? fst sc then ret nullptr
      else
        let! node := descend_last fuel (snd sc) in
        end_leaf node.

  (** [iterator_::_dec]; as for [_inc], an iterator of another index is
      outside the model. *)
Definition _dec (fuel : nat) (it : iterator) : M iterator :=
    if negb (_parent it =? nullptr) then
      let! this := this_ in
      if _parent it =? this then
        if _p it =? nullptr then
          let! p := _triemax fuel in ret (Iterator (_parent it) p)
        else
          let! p := _trieprev fuel (_p it) in ret (Iterator (_parent it) p)
      else fail
    else ret it.

  (** [front()] and [back()]: [abort()] is the error of the monad.  They
      are declared to return [reference], which is the pointer type, and
      return the item found. *)
Definition front : M ptr :=
    let! p := _triemin in
    if negb (p =? nullptr) then ret p else fail.

Definition back (fuel : nat) : M ptr :=
    let! p := _triemax fuel in
    if negb (p =? nullptr) then ret p else fail.

  (** [for(it = end(); it != begin(); ) --it;], collecting the items
      stepped to; [n] bounds the number of steps. *)
Fixpoint iterate_back (fuel n : nat) (first : ptr) (it : iterator) : M (list ptr) :=
    match n with
    | O => fail
    | S n' =>
        if _p it =? first then ret []
        else
          let! it' := _dec fuel it in
          let! rest := iterate_back fuel n' first it' in
          ret (_p it' :: rest)
    end.

Definition traversal_back (fuel : nat) : M (list ptr) :=
    let! b := begin_ in
    let! e := end_ in
    iterate_back fuel fuel (_p b) e.

  (** *** [swap]

      [o] is the head of the other index, a distinct object; its new
      value is the result. *)
Fixpoint swap_loop (cnt : nat) (n : Z) (o : head) : M head :=
    match cnt with
    | O => ret o
    | S cnt' =>
        let! t := hchild n in
        match head_accessors.child n o with
        | Some x =>
            hset_child n x ;;;
            match head_accessors.set_child n t o with
            | Some o' => swap_loop cnt' (n + 1) o'
            | None => fail
            end
        | None => fail
        end
    end.

Definition swap (o : head) : M head :=
    let! o := swap_loop (Z.to_nat key_type_bits) 0 o in
    let! t := hget head_accessors.size in
    hset (head_accessors.set_size (head_accessors.size o)) ;;;
    ret (head_accessors.set_size t o).

  (** The default constructor: [constexpr bitwise_trie() { clear(); }]. *)
Definition construct : M unit := clear.

End engine_backward.

(** *** The remaining members of [iterator_]

    [abort()] is [None]. *)
Module iterator_ops.

Definition to_bool (a : iterator) : bool :=
  negb (_parent a =? nullptr) && negb (_p a =? nullptr).
Definition not (a : iterator) : bool :=
  (_parent a =? nullptr) || (_p a =? nullptr).
Definition eq (a o : iterator) : bool :=
  (_parent a =? _parent o) && (_p a =? _p o).
Definition ne (a o : iterator) : bool :=
  negb (_parent a =? _parent o) || negb (_p a =? _p o).
Definition deref (a : iterator) : option ptr :=
  if (_parent a =? nullptr) || (_p a =? nullptr) then None else Some (_p a).
Definition lt (a o : iterator) : option bool :=
  if negb (_parent a =? _parent o) then None
  else Some (negb (_p a =? nullptr) && ((_p o =? nullptr) || (_p a <? _p o))).
Definition gt (a o : iterator) : option bool :=
  if negb (_parent a =? _parent o) then None
  else Some (negb (_p o =? nullptr) && ((_p a =? nullptr) || (_p o <? _p a))).
(** [return !(o > *this)] *)
Definition le (a o : iterator) : option bool :=
  if negb (_parent a =? _parent o) then None
  else negb <$> gt o a.
(** [return !(o < *this)] *)
Definition ge (a o : iterator) : option bool :=
  if negb (_parent a =? _parent o) then None
  else negb <$> lt o a.

End iterator_ops.
(** * Predicates used by the statements *)

Section predicates.
Context {TP : TrieParams}.

(** What the slot-writing loops leave behind: slots [n .. n+cnt-1] hold
    [f i], everything else is as before. *)
Definition slots_written (f : Z -> option ptr) (cnt : nat) (n : Z) (s s' : state) : Prop :=
  st_this s' = st_this s /\
  st_items s' = st_items s /\
  trie_count (st_head s') = trie_count (st_head s) /\
  trie_nobbledir (st_head s') = trie_nobbledir (st_head s) /\
  length (trie_children (st_head s')) = length (trie_children (st_head s)) /\
  forall i, head_accessors.child i (st_head s') =
            if (n <=? i) && (i <? n + Z.of_nat cnt) then f i
            else head_accessors.child i (st_head s).

(** A run of [m] that completes leaves the state as it found it. *)
Definition readonly {A} (m : M A) : Prop :=
  forall s a s', m s = Some (a, s') -> s' = s.

(** The sibling links and the key of an item: everything about it that
    does not describe the shape of the trie. *)
Definition ring_view (v : item) : (ptr * ptr) * Z := (trie_sibling v, trie_key v).

(** The key of the item at [p] (zero when there is none). *)
Definition key_at (s : state) (p : ptr) : Z :=
  match st_items s !! p with
  | Some v => trie_key v
  | None => 0
  end.

(** The keys, in order of appearance in [l], of the items of head-array
    branch [b]: those whose highest set bit is [b]. *)
Definition branch_keys (s : state) (b : Z) (l : list ptr) : list Z :=
  List.filter (fun k => bitscanr k =? b) (List.map (key_at s) l).

Definition nondecreasing (l : list Z) : Prop :=
  forall (i j : nat) (x y : Z),
    (i < j)%nat -> l !! i = Some x -> l !! j = Some y -> x <= y.

(** Claim C3 as the specification words it, for one state: the forward
    traversal restricted to any one branch is non-decreasing. *)
Definition branch_order_claim (fuel : nat) (s : state) : Prop :=
  forall l, traversal fuel s = Some (l, s) ->
            forall b, nondecreasing (branch_keys s b l).

End predicates.

(** ** Well-formed indices *)

(** The shape of one head-array branch: which item sits where.  A node
    names the item at its root and the branches under its [child(0)] and
    [child(1)]. *)
Inductive tree :=
| Leaf
| Node (p : ptr) (t0 t1 : tree).

Definition root (t : tree) : ptr :=
  match t with
  | Leaf => nullptr
  | Node p _ _ => p
  end.

(** The items of a branch, each before the items below it and those
    under [child(0)] before those under [child(1)]. *)
Fixpoint nodes (t : tree) : list ptr :=
  match t with
  | Leaf => []
  | Node p t0 t1 => p :: nodes t0 ++ nodes t1
  end.

Fixpoint height (t : tree) : nat :=
  match t with
  | Leaf => O
  | Node _ t0 t1 => S (Nat.max (height t0) (height t1))
  end.

(** The value [set_parent_is_index b] stores in [trie_parent]. *)
Definition index_tag (b : Z) : Z := Z.lor (Z.shiftl b 2 mod 2 ^ uintptr_bits) 3.

(** The store [m] lays out branch [t] under the parent value [par]: each
    item of [t] is allocated at a non-null address aligned to four bytes,
    its parent field is its parent in [t] ([par] for the root), its child
    fields are the roots of its two sub-branches, and its [sibling[1]]
    refers to itself. *)
Fixpoint shape (m : gmap Z item) (par : Z) (t : tree) : Prop :=
  match t with
  | Leaf => True
  | Node p t0 t1 =>
      p <> nullptr /\ p mod 4 = 0 /\
      (exists v, m !! p = Some v /\
                 trie_parent v = par /\
                 trie_child v = (root t0, root t1) /\
                 snd (trie_sibling v) = p) /\
      shape m p t0 /\ shape m p t1
  end.

(** The bit of key [k] that the walks of the engine test with the mask
    [keybit]: [!!(k & keybit)]. *)
Definition dirbit (k keybit : Z) : bool := negb (Z.land k keybit =? 0).

(** Every item below a node hangs on the side its key selects: with
    [keybit] the mask a walk holds on arriving at the root of [t], the
    keys under [child(0)] have the next lower bit clear and the keys
    under [child(1)] have it set. *)
Fixpoint keys_ok (key : ptr -> Z) (keybit : Z) (t : tree) : Prop :=
  match t with
  | Leaf => True
  | Node p t0 t1 =>
      let keybit := Z.shiftr keybit 1 in
      Forall (fun x => dirbit (key x) keybit = false) (nodes t0) /\
      Forall (fun x => dirbit (key x) keybit = true) (nodes t1) /\
      keys_ok key keybit t0 /\ keys_ok key keybit t1
  end.

(** Where [_trieinsert] puts item [r] with key [rkey] in a branch: at the
    first free child slot on the path its key bits select, or nowhere when
    the path meets an item with the same key. *)
Fixpoint tinsert (key : ptr -> Z) (r : ptr) (rkey keybit : Z) (t : tree) : tree :=
  match t with
  | Leaf => Node r Leaf Leaf
  | Node p t0 t1 =>
      if key p =? rkey then t
      else
        let keybit := Z.shiftr keybit 1 in
        if dirbit rkey keybit then Node p t0 (tinsert key r rkey keybit t1)
        else Node p (tinsert key r rkey keybit t0) t1
  end.

(** The two sub-branches of a node, by side, and the node with one side
    replaced. *)
Definition side (c : bool) (t0 t1 : tree) : tree := if c then t1 else t0.
Definition with_side (c : bool) (p : ptr) (t0 t1 u : tree) : tree :=
  if c then Node p t0 u else Node p u t1.

(** The child the replacement search of [trieremove] moves to from a
    node: [child(nobbledir)] when there is one, else the other child, else
    none. *)
Definition pick (d : bool) (t0 t1 : tree) : option bool :=
  match side d t0 t1, side (negb d) t0 t1 with
  | Node _ _ _, _ => Some d
  | Leaf, Node _ _ _ => Some (negb d)
  | Leaf, Leaf => None
  end.

(** The childless item the search ends at when started at the root of
    [t], and [t] without it. *)
Fixpoint nobble (d : bool) (t : tree) : ptr * tree :=
  match t with
  | Leaf => (nullptr, Leaf)
  | Node p t0 t1 =>
      if d then
        match t1, t0 with
        | Node _ _ _, _ => (fst (nobble d t1), Node p t0 (snd (nobble d t1)))
        | Leaf, Node _ _ _ => (fst (nobble d t0), Node p (snd (nobble d t0)) t1)
        | Leaf, Leaf => (p, Leaf)
        end
      else
        match t0, t1 with
        | Node _ _ _, _ => (fst (nobble d t0), Node p (snd (nobble d t0)) t1)
        | Leaf, Node _ _ _ => (fst (nobble d t1), Node p t0 (snd (nobble d t1)))
        | Leaf, Leaf => (p, Leaf)
        end
  end.

(** What takes the place of the root of [u] when it is removed: nothing
    when it has no children, otherwise the item [nobble] finds, with what
    is left of the two sub-branches under it. *)
Definition replace_root (d : bool) (u : tree) : tree :=
  match u with
  | Leaf => Leaf
  | Node _ Leaf Leaf => Leaf
  | Node _ _ _ =>
      match snd (nobble d u) with
      | Node _ u0 u1 => Node (fst (nobble d u)) u0 u1
      | Leaf => Leaf
      end
  end.

(** Branch [t] after the removal of its item [r]. *)
Fixpoint tremove (d : bool) (r : ptr) (t : tree) : tree :=
  match t with
  | Leaf => Leaf
  | Node p t0 t1 =>
      if p =? r then replace_root d t
      else Node p (tremove d r t0) (tremove d r t1)
  end.

(** The fields of an item that [shape] constrains. *)
Definition link_view (v : item) : Z * (ptr * ptr) * ptr :=
  (trie_parent v, trie_child v, snd (trie_sibling v)).

(** What the caller's item looks like when the walk of [_trieinsert]
    starts: fields reset, both sibling links referring to itself. *)
Definition reset_item (r rkey : Z) : item :=
  Item nullptr (nullptr, nullptr) (r, r) rkey.

(** The item [r] once it has been spliced in behind the same-key item at
    [x], whose record was [vx]. *)
Definition spliced_item (r rkey x : Z) (vx : item) : item :=
  Item nullptr (nullptr, nullptr)
       (if fst (trie_sibling vx) =? nullptr then x else fst (trie_sibling vx), x)
       rkey.

(** The effect of the walk of [_trieinsert] through branch [t]: the
    branch becomes [tinsert .. t]; nothing outside [r] and the branch is
    written, no key changes; and either no item of the branch has key
    [rkey] and no sibling link changed, or the item [x] of the branch has
    and [r] was spliced in behind it. *)
Definition walk_post (r rkey par keybit : Z) (t : tree) (s s' : state) : Prop :=
  st_head s' = st_head s /\ st_this s' = st_this s /\
  (forall q : Z, q <> r -> q ∉ nodes t -> st_items s' !! q = st_items s !! q) /\
  (forall q : Z, trie_key <$> (st_items s' !! q) = trie_key <$> (st_items s !! q)) /\
  shape (st_items s') par (tinsert (key_at s) r rkey keybit t) /\
  (((forall x : Z, x ∈ nodes t -> key_at s x <> rkey) /\
    (forall q : Z, ring_view <$> (st_items s' !! q) = ring_view <$> (st_items s !! q)))
   \/
   (exists (x : Z) (vx : item),
      x ∈ nodes t /\ st_items s !! x = Some vx /\ trie_key vx = rkey /\
      st_items s' =
        <[x := item_accessors.set_sibling false r vx]>
          (<[r := spliced_item r rkey x vx]> (st_items s)))).

(** The sibling links and keys after [_trieinsert] of [r] with key
    [rkey], from those before ([rv]) and the attached item [x] that
    already has that key, if any. *)
Definition rings_after_insert (rv : Z -> option ((ptr * ptr) * Z))
    (r rkey : Z) (x : option Z) : Z -> option ((ptr * ptr) * Z) :=
  fun q =>
    match x with
    | None => if decide (q = r) then Some ((r, r), rkey) else rv q
    | Some x =>
        if decide (q = x) then
          (fun w => ((r, snd (fst w)), snd w)) <$> rv x
        else if decide (q = r) then
          (fun w => ((if fst (fst w) =? nullptr then x else fst (fst w), x), rkey)) <$> rv x
        else rv q
    end.

(** [y] lies below [x] in branch [t]: [x] is on the path from the root
    of the branch to [y]. *)
Fixpoint below (t : tree) (x y : ptr) : Prop :=
  match t with
  | Leaf => False
  | Node p t0 t1 =>
      (p = x /\ y ∈ nodes t0 ++ nodes t1) \/ below t0 x y \/ below t1 x y
  end.

(** At every item of the branch the keys under [child(0)] are smaller
    than the keys under [child(1)]. *)
Fixpoint ordered (key : ptr -> Z) (t : tree) : Prop :=
  match t with
  | Leaf => True
  | Node p t0 t1 =>
      (forall x y : Z, x ∈ nodes t0 -> y ∈ nodes t1 -> key x < key y) /\
      ordered key t0 /\ ordered key t1
  end.

Section well_formed.
Context {TP : TrieParams}.

(** Branch [t] is what head slot [b] of [s] holds. *)
Record branch_ok (s : state) (b : Z) (t : tree) : Prop := {
  br_slot : head_accessors.child b (st_head s) = Some (root t);
  br_shape : shape (st_items s) (index_tag b) t;
  br_keys : keys_ok (key_at s) (Z.shiftl 1 b mod 2 ^ key_type_bits) t;
  br_top : Forall (fun x => bitscanr (key_at s x) = b /\
                            0 <= key_at s x < 2 ^ key_type_bits) (nodes t)
}.

(** The items attached to the trie. *)
Definition attached (ts : list tree) : list ptr := concat (nodes <$> ts).

(** [ts] lists, slot by slot, the branches of the index in state [s]:
    the items attached to the trie, with distinct keys, each in the head
    slot of its key's highest set bit and below that on the path its key
    bits select. *)
Record wf (s : state) (ts : list tree) : Prop := {
  wf_bits : 0 < key_type_bits <= 64;
  wf_slots : key_type_bits <= Z.of_nat (length (trie_children (st_head s)));
  wf_count : Z.of_nat (length ts) = key_type_bits;
  wf_branch : forall (b : nat) (t : tree),
      ts !! b = Some t -> branch_ok s (Z.of_nat b) t;
  wf_distinct : NoDup (key_at s <$> attached ts);
  wf_size : Z.of_nat (length (attached ts)) <= trie_count (st_head s)
            <= head_accessors.max_size
}.

(** What a successful [_trieinsert] of the item at [r], whose key is
    [rkey], does to a well-formed index with branches [ts]. *)
Record insert_post (r rkey : Z) (s : state) (ts : list tree)
    (s' : state) (ts' : list tree) : Prop := {
  ip_wf : wf s' ts';
  ip_this : st_this s' = st_this s;
  ip_count : trie_count (st_head s') = (trie_count (st_head s) + 1) mod 2 ^ index_type_bits;
  ip_flag : trie_nobbledir (st_head s') = trie_nobbledir (st_head s);
  ip_slots : length (trie_children (st_head s')) = length (trie_children (st_head s));
  ip_keys : forall q : Z, trie_key <$> (st_items s' !! q) = trie_key <$> (st_items s !! q);
  ip_rings : exists x : option Z,
      match x with
      | None => (forall y : Z, y ∈ attached ts -> key_at s y <> rkey) /\
                attached ts' ≡ₚ r :: attached ts
      | Some x => x ∈ attached ts /\ key_at s x = rkey /\ ts' = ts
      end /\
      forall q : Z,
        ring_view <$> (st_items s' !! q) =
        rings_after_insert (fun q => ring_view <$> (st_items s !! q)) r rkey x q
}.

(** *** An executable validity check

    The same conditions as [wf], as a computation: the counterpart of the
    debug-only [_triecheckvalidity] for this model. *)

Fixpoint shapeb (m : gmap Z item) (par : Z) (t : tree) : bool :=
  match t with
  | Leaf => true
  | Node p t0 t1 =>
      negb (p =? nullptr) && (p mod 4 =? 0) &&
      match m !! p with
      | Some v =>
          (trie_parent v =? par) &&
          (fst (trie_child v) =? root t0) && (snd (trie_child v) =? root t1) &&
          (snd (trie_sibling v) =? p)
      | None => false
      end &&
      shapeb m p t0 && shapeb m p t1
  end.

Fixpoint keys_okb (key : ptr -> Z) (keybit : Z) (t : tree) : bool :=
  match t with
  | Leaf => true
  | Node p t0 t1 =>
      let keybit := Z.shiftr keybit 1 in
      forallb (fun x => negb (dirbit (key x) keybit)) (nodes t0) &&
      forallb (fun x => dirbit (key x) keybit) (nodes t1) &&
      keys_okb key keybit t0 && keys_okb key keybit t1
  end.

Definition branch_okb (s : state) (b : Z) (t : tree) : bool :=
  match head_accessors.child b (st_head s) with
  | Some x => x =? root t
  | None => false
  end &&
  shapeb (st_items s) (index_tag b) t &&
  keys_okb (key_at s) (Z.shiftl 1 b mod 2 ^ key_type_bits) t &&
  forallb (fun x => (bitscanr (key_at s x) =? b) &&
                    (0 <=? key_at s x) && (key_at s x <? 2 ^ key_type_bits)) (nodes t).

Fixpoint branches_okb (s : state) (b : nat) (ts : list tree) : bool :=
  match ts with
  | [] => true
  | t :: ts' => branch_okb s (Z.of_nat b) t && branches_okb s (S b) ts'
  end.

Definition wfb (s : state) (ts : list tree) : bool :=
  (0 <? key_type_bits) && (key_type_bits <=? 64) &&
  (key_type_bits <=? Z.of_nat (length (trie_children (st_head s)))) &&
  (Z.of_nat (length ts) =? key_type_bits) &&
  branches_okb s 0 ts &&
  bool_decide (NoDup (key_at s <$> attached ts)) &&
  (Z.of_nat (length (attached ts)) <=? trie_count (st_head s)) &&
  (trie_count (st_head s) <=? head_accessors.max_size).

(** Climbing from [q] with [trace_up_next] yields [up], given at least
    [n] units of fuel. *)
Definition climbs (s : state) (n : nat) (q : ptr) (up : ptr * ptr) : Prop :=
  forall fuel : nat, (n <= fuel)%nat -> trace_up_next fuel q s = Some (up, s).

(** What follows [x] in a walk: the head of [rest], or [up] when [x] is
    the last item. *)
Definition step_after (rest : list ptr) (up : ptr * ptr) : ptr * ptr :=
  match rest with
  | y :: _ => (y, nullptr)
  | [] => up
  end.


(** *** Removal

    An item without children that lies in the branch: what the
    replacement search of [trieremove] ends at. *)
Definition childless (m : gmap Z item) (L : Z) (vL : item) : Prop :=
  L <> nullptr /\ L mod 4 = 0 /\ m !! L = Some vL /\
  trie_child vL = (nullptr, nullptr) /\ snd (trie_sibling vL) = L.

(** The outcome of the replacement search in branch [w], which hangs
    under [par]: it ends at the childless item [L], reached last through
    [child(idx)], and [w'] is [w] without [L].  Either [L] is the root of
    [w] (and the search did not move), or clearing [child(idx)] of the
    parent of [L] lays out [w']. *)
Definition walk_result (m : gmap Z item) (par : Z) (w : tree) (idx0 : bool)
    (L : Z) (idx : bool) (w' : tree) : Prop :=
  exists vL, childless m L vL /\ nodes w ≡ₚ L :: nodes w' /\
    ((w' = Leaf /\ root w = L /\ idx = idx0 /\ trie_parent vL = par) \/
     (exists vP, trie_parent vL ∈ nodes w' /\ m !! trie_parent vL = Some vP /\
        root w' = root w /\
        shape (<[trie_parent vL := item_accessors.set_child idx nullptr vP]> m) par w')).

(** The direction [_to_nobble] yields in state [s]. *)
Definition nobble_dir (s : state) : bool :=
  if NobbleDir <? 0 then false
  else if 0 <? NobbleDir then true
  else negb (trie_nobbledir (st_head s)).

(** The parent value [par] refers to [x]: [par] is the tag of a head slot
    that holds [x], or the address of an item that has [x] as a child; the
    child slot is the one the [set_parent] lambda of [trieremove] picks,
    [child(false)] when that is [x] and [child(true)] otherwise. *)
Definition linked (s : state) (par : Z) (x : Z) : Prop :=
  (exists b, 0 <= b < 2 ^ 30 /\ par = index_tag b /\
             head_accessors.child b (st_head s) = Some x) \/
  (par mod 4 = 0 /\ exists vp, st_items s !! par = Some vp /\
     nth2 (trie_child vp) (negb (fst (trie_child vp) =? x)) = x).

(** From [s] to [s'] the slot of [par] that referred to [x] has been set
    to [x'], and nothing else of the head slots or of the item at [par]. *)
Definition relinked (s s' : state) (par : Z) (x x' : Z) : Prop :=
  (exists b, 0 <= b < 2 ^ 30 /\ par = index_tag b /\
     trie_children (st_head s') = <[Z.to_nat b := x']> (trie_children (st_head s)) /\
     st_items s' !! par = st_items s !! par) \/
  (par mod 4 = 0 /\ trie_children (st_head s') = trie_children (st_head s) /\
   exists vp, st_items s !! par = Some vp /\
     st_items s' !! par =
       Some (item_accessors.set_child (negb (fst (trie_child vp) =? x)) x' vp)).

(** What [trieremove] of the attached item [r] does to a well-formed
    index with branches [ts]. *)
Record remove_post (r : Z) (s : state) (ts : list tree)
    (s' : state) (ts' : list tree) : Prop := {
  rp_wf : wf s' ts';
  rp_this : st_this s' = st_this s;
  rp_count : trie_count (st_head s') = trie_count (st_head s) - 1;
  rp_slots : length (trie_children (st_head s')) = length (trie_children (st_head s));
  rp_rings : forall q : Z,
      ring_view <$> (st_items s' !! q) = ring_view <$> (st_items s !! q);
  rp_attached : attached ts ≡ₚ r :: attached ts'
}.

End well_formed.

(** ** Operation sequences and what a caller observes of them *)

Inductive op :=
| OpInsert (p : ptr)          (* insert(p) *)
| OpErase (p : ptr)           (* erase(it) for an iterator it to item p *)
| OpEraseBegin                (* erase(begin()) *)
| OpFind (k : Z)              (* find(k) *)
| OpCount (k : Z)             (* count(k) *)
| OpSize                      (* size() *)
| OpTraverse.                 (* for(it = begin(); it != end(); ++it) *)

Inductive obs :=
| ObsItem (p : ptr)           (* the item an iterator refers to; null for end() *)
| ObsNum (n : Z)
| ObsItems (l : list ptr).

Definition run_op {TP : TrieParams} (fuel : nat) (o : op) : M obs :=
  match o with
  | OpInsert p => let! it := insert fuel p in ret (ObsItem (_p it))
  | OpErase p =>
      let! this := this_ in
      let! it := erase fuel (Iterator this p) in ret (ObsItem (_p it))
  | OpEraseBegin =>
      let! b := begin_ in
      let! it := erase fuel b in ret (ObsItem (_p it))
  | OpFind k => let! it := find fuel k in ret (ObsItem (_p it))
  | OpCount k => let! n := count fuel k in ret (ObsNum n)
  | OpSize => let! n := hget head_accessors.size in ret (ObsNum n)
  | OpTraverse => let! l := traversal fuel in ret (ObsItems l)
  end.

Fixpoint run_ops {TP : TrieParams} (fuel : nat) (os : list op) : M (list obs) :=
  match os with
  | [] => ret []
  | o :: os' =>
      let! x := run_op fuel o in
      let! xs := run_ops fuel os' in
      ret (x :: xs)
  end.

(** The same template instance with another [NobbleDir]. *)
Definition with_dir (TP : TrieParams) (dir : Z) : TrieParams :=
  {| key_type_bits := @key_type_bits TP;
     index_type_bits := @index_type_bits TP;
     NobbleDir := dir |}.

(** What the caller sees of a run: the observations, not the state. *)
Definition observed {A} (m : M A) (s : state) : option A :=
  fst <$> m s.

(** Claim C6 as the specification words it, for one operation sequence
    from one state: the observations do not depend on [NobbleDir]. *)
Definition nobble_independence_claim (TP : TrieParams) (fuel : nat)
    (os : list op) (s : state) : Prop :=
  forall d1 d2 : Z,
    observed (run_ops (TP := with_dir TP d1) fuel os) s =
    observed (run_ops (TP := with_dir TP d2) fuel os) s.

(** ** Sequences that name the items they erase

    A reference reading of a sequence of operations in which [erase] is
    given an iterator to an item the caller names: it keeps only the count
    and the list of attached items, and knows nothing of the shape of the
    trie or of [NobbleDir].  [key] gives the key stored at an address. *)

Definition key_eqb (key : Z -> option Z) (k : Z) (y : Z) : bool :=
  match key y with
  | Some k' => k' =? k
  | None => false
  end.

(** The attached item with key [k], null when there is none. *)
Definition lookup_key (key : Z -> option Z) (present : list Z) (k : Z) : Z :=
  hd nullptr (List.filter (key_eqb key k) present).

(** One operation on the pair of the count and the attached items.  It is
    [None] when the operation is outside the class: [insert] of an item
    that is null, misaligned, unallocated, keyed out of range or attached
    already; [erase] of an item that is not attached; [find] or [count] of
    a key out of range; [erase(begin())]; a traversal. *)
Definition abs_op (key : Z -> option Z) (B maxsz : Z) (o : op) (a : Z * list Z)
    : option (obs * (Z * list Z)) :=
  let cnt := fst a in
  let present := snd a in
  match o with
  | OpInsert p =>
      match key p with
      | Some k =>
          if negb (p =? nullptr) && (p mod 4 =? 0) && (0 <=? k) && (k <? 2 ^ B) &&
             negb (existsb (Z.eqb p) present)
          then if cnt <? maxsz
               then Some (ObsItem p,
                          (cnt + 1,
                           if existsb (key_eqb key k) present then present
                           else p :: present))
               else Some (ObsItem nullptr, a)
          else None
      | None => None
      end
  | OpErase p =>
      if existsb (Z.eqb p) present
      then Some (ObsItem p, (cnt - 1, List.filter (fun y => negb (y =? p)) present))
      else None
  | OpFind k =>
      if (0 <=? k) && (k <? 2 ^ B)
      then Some (ObsItem (lookup_key key present k), a)
      else None
  | OpCount k =>
      if (0 <=? k) && (k <? 2 ^ B)
      then Some (ObsNum (if lookup_key key present k =? nullptr then 0 else 1), a)
      else None
  | OpSize => Some (ObsNum cnt, a)
  | OpEraseBegin | OpTraverse => None
  end.

Fixpoint abs_ops (key : Z -> option Z) (B maxsz : Z) (os : list op) (a : Z * list Z)
    : option (list obs * (Z * list Z)) :=
  match os with
  | [] => Some ([], a)
  | o :: os' =>
      match abs_op key B maxsz o a with
      | Some (x, a') =>
          match abs_ops key B maxsz os' a' with
          | Some (xs, a'') => Some (x :: xs, a'')
          | None => None
          end
      | None => None
      end
  end.

(** The key stored at [p] in state [s], if an item is allocated there. *)
Definition keys_of (s : state) (p : Z) : option Z := trie_key <$> (st_items s !! p).

(** [os] is in the class when started from [s], whose branches are
    [ts]. *)
Definition by_item {TP : TrieParams} (s : state) (ts : list tree) (os : list op) : bool :=
  match abs_ops (keys_of s) key_type_bits head_accessors.max_size os
          (trie_count (st_head s), attached ts) with
  | Some _ => true
  | None => false
  end.

(** State [s] is a well-formed index whose count and attached items are
    those of [a], and whose items have the keys [key]. *)
Definition models {TP : TrieParams} (key : Z -> option Z) (s : state) (a : Z * list Z) : Prop :=
  exists ts, wf s ts /\ attached ts ≡ₚ snd a /\ trie_count (st_head s) = fst a /\
             forall q : Z, keys_of s q = key q.

(** ** Backward traversal *)

(** The item of branch [t] that the forward traversal visits last: down
    from the root, into [child(1)] when there is one, otherwise into
    [child(0)]. *)
Fixpoint tlast (t : tree) : ptr :=
  match t with
  | Leaf => nullptr
  | Node p t0 t1 =>
      match t1, t0 with
      | Node _ _ _, _ => tlast t1
      | Leaf, Node _ _ _ => tlast t0
      | Leaf, Leaf => p
      end
  end.

(** No item of [l] has a ring sibling: [sibling[0]] of each refers to the
    item itself, as [_trieinsert] leaves it when the key is new. *)
Definition ringless (s : state) (l : list ptr) : Prop :=
  forall x : Z, x ∈ l ->
    exists v, st_items s !! x = Some v /\ fst (trie_sibling v) = x.

Definition ringlessb (s : state) (l : list ptr) : bool :=
  forallb (fun x => match st_items s !! x with
                    | Some v => fst (trie_sibling v) =? x
                    | None => false
                    end) l.

(** ** The portable bit scan *)

(** The bits [j] with [n - m < j <= n] are set in [x] and none above [n]:
    what the smearing steps of [bitscanr] have reached after shifting by
    [m / 2]. *)
Definition smeared (n m x : Z) : Prop :=
  (forall j, 0 <= j -> n - m < j <= n -> Z.testbit x j = true) /\
  (forall j, n < j -> Z.testbit x j = false).

(** ** [swap] *)

(** Slots [n .. n+cnt-1] of [l'] are those of [k], the others those of
    [l]. *)
Definition slots_from (k l l' : list Z) (cnt : nat) (n : nat) : Prop :=
  length l' = length l /\
  forall i : nat, l' !! i = if (n <=? i)%nat && (i <? n + cnt)%nat then k !! i else l !! i.
(** * Concrete indices *)

(** Eight-bit keys and an eight-bit count, with the given nobble
    direction. *)
Definition params8 (dir : Z) : TrieParams :=
  {| key_type_bits := 8; index_type_bits := 8; NobbleDir := dir |}.

(** An item as the caller hands it to [insert]: key set, housekeeping
    fields not yet meaningful. *)
Definition fresh_item (k : Z) : item :=
  Item nullptr (nullptr, nullptr) (nullptr, nullptr) k.

(** A freshly constructed eight-slot index at address 1000 together with
    caller-owned items at the given addresses with the given keys. *)
Definition empty_index (items : list (Z * Z)) : state :=
  State 1000 (Head 0 (replicate 8 nullptr) false)
        (list_to_map (map (fun ak => (fst ak, fresh_item (snd ak))) items)).

(** Items used below: address 16 has key 12, 32 has key 9, 48 has key 8,
    64 and 80 both have key 5. *)
Definition store5 : state :=
  empty_index [(16, 12); (32, 9); (48, 8); (64, 5); (80, 5)].

(** The state reached when [m] runs to completion from [s] ([s] itself
    when it does not). *)
Definition after {A} (m : M A) (s : state) : state :=
  match m s with
  | Some (_, s') => s'
  | None => s
  end.

(** The head of an index holding the item at address 16 (key 12, so
    head slot 3), with its nobble flag set. *)
Definition head_with_12 : head :=
  Head 1 [nullptr; nullptr; nullptr; 16; nullptr; nullptr; nullptr; nullptr] true.

(** Keys 8, 9 and 12 inserted in that order: all three live in head
    slot 3, with 8 on top, 9 under [child(0)] and 12 under [child(1)]. *)
Definition tree3 (dir : Z) : state :=
  after (insert (TP := params8 dir) 10 48 ;;;
         insert (TP := params8 dir) 10 32 ;;;
         insert (TP := params8 dir) 10 16) store5.

(** Keys 12 and 9 inserted in that order: both in head slot 3. *)
Definition tree_12_9 : state :=
  after (insert (TP := params8 0) 10 16 ;;; insert (TP := params8 0) 10 32) store5.

(** Key 5 inserted twice: first the item at 64, then the item at 80. *)
Definition twice_5 : state :=
  after (insert (TP := params8 0) 10 64 ;;; insert (TP := params8 0) 10 80) store5.

(** Insert 8, 9 and 12, erase the item keyed 8, erase whatever [begin()]
    yields, then walk the index. *)
Definition ops_erase_begin : list op :=
  [OpInsert 48; OpInsert 32; OpInsert 16; OpErase 48; OpEraseBegin; OpTraverse].

(** The five items inserted; then removals of items the caller names,
    among them the item keyed 8 while it has two children, with lookups
    in between. *)
Definition ops_by_item : list op :=
  [OpInsert 48; OpInsert 32; OpInsert 16; OpInsert 64; OpInsert 80; OpCount 5;
   OpErase 48; OpFind 9; OpFind 8; OpSize; OpErase 32; OpInsert 48; OpFind 8; OpSize].

(** The branches of [tree3]: slot 3 holds 8 (at 48) with 9 (at 32) under
    [child(0)] and 12 (at 16) under [child(1)]; the other slots are
    empty. *)
Definition branches3 : list tree :=
  [Leaf; Leaf; Leaf; Node 48 (Node 32 Leaf Leaf) (Node 16 Leaf Leaf);
   Leaf; Leaf; Leaf; Leaf].

(** Key 5 inserted once, the item at 64; it is alone in head slot 2. *)
Definition once_5 : state := after (insert (TP := params8 0) 10 64) store5.
Definition branches_5 : list tree :=
  [Leaf; Leaf; Node 64 Leaf Leaf; Leaf; Leaf; Leaf; Leaf; Leaf].

(** The items of [store5] under a head whose count is at its maximum,
    255 for an eight-bit count. *)
Definition full_5 : state :=
  State 1000 (Head 255 (replicate 8 nullptr) false) (st_items store5).
(** ** Two indexes over one set of items

    The four items keyed 8, 9, 12 and 5 after the first three were
    inserted through one head and the fourth through another: [head_a]
    has the branch of [branches3] in slot 3, [head_b] the single item of
    [branches_5] in slot 2.  [index_a] is the index at address 1000 with
    head [head_a]. *)
Definition items_ab : gmap Z item :=
  st_items (after (insert (TP := params8 0) 10 64) (tree3 0)).
Definition head_a : head := st_head (tree3 0).
Definition head_b : head := st_head once_5.
Definition index_a : state := State 1000 head_a items_ab.
(** * Reasoning about runs *)

Lemma bind_Some {A B} (m : M A) (f : A -> M B) s b s' :
  bind m f s = Some (b, s') <->
  exists a s1, m s = Some (a, s1) /\ f a s1 = Some (b, s').
Proof.
  unfold bind. split.
  - destruct (m s) as [[a s1]|]; [eauto | discriminate].
  - intros (a & s1 & -> & Hf). exact Hf.
Qed.

Lemma ret_Some {A} (a b : A) s s' :
  ret a s = Some (b, s') <-> a = b /\ s = s'.
Proof. unfold ret. split; [intros [= -> ->]; auto | intros [-> ->]; auto]. Qed.

Lemma load_Some p s v s' :
  load p s = Some (v, s') <-> p <> nullptr /\ st_items s !! p = Some v /\ s' = s.
Proof.
  unfold load, nullptr. destruct (Z.eqb_spec p 0) as [->|Hp].
  - split; [discriminate | intros [? _]; congruence].
  - destruct (st_items s !! p) as [w|].
    + split; [intros [= -> ->]; auto | intros (_ & [= ->] & ->); auto].
    + split; [discriminate | intros (_ & ? & _); discriminate].
Qed.

Lemma get_Some {A} p (f : item -> A) s a s' :
  get p f s = Some (a, s') <->
  exists v, p <> nullptr /\ st_items s !! p = Some v /\ a = f v /\ s' = s.
Proof.
  unfold get. rewrite bind_Some. split.
  - intros (v & s1 & Hl & Hr). apply load_Some in Hl as (? & ? & ->).
    apply ret_Some in Hr as [<- <-]. eauto.
  - intros (v & ? & ? & -> & ->). exists v, s. split; [by apply load_Some | done].
Qed.

Lemma set_Some p f s u s' :
  set p f s = Some (u, s') <->
  exists v, p <> nullptr /\ st_items s !! p = Some v /\
            s' = State (st_this s) (st_head s) (<[p := f v]> (st_items s)).
Proof.
  unfold set. rewrite bind_Some. destruct u. split.
  - intros (v & s1 & Hl & Hr). apply load_Some in Hl as (? & ? & ->).
    injection Hr as <-. eauto.
  - intros (v & ? & ? & ->). exists v, s. split; [by apply load_Some | done].
Qed.

Lemma hget_Some {A} (f : head -> A) s a s' :
  hget f s = Some (a, s') <-> a = f (st_head s) /\ s' = s.
Proof. unfold hget. split; [intros [= <- <-]; auto | intros [-> ->]; auto]. Qed.

Lemma hset_Some f s u s' :
  hset f s = Some (u, s') <-> s' = State (st_this s) (f (st_head s)) (st_items s).
Proof. unfold hset. destruct u. split; [intros [= <-]; auto | intros ->; auto]. Qed.

Lemma hchild_Some idx s x s' :
  hchild idx s = Some (x, s') <-> head_accessors.child idx (st_head s) = Some x /\ s' = s.
Proof.
  unfold hchild. destruct (head_accessors.child idx (st_head s)).
  - split; [intros [= -> ->]; auto | intros [[= ->] ->]; auto].
  - split; [discriminate | intros [? _]; discriminate].
Qed.

Lemma hset_child_Some idx x s u s' :
  hset_child idx x s = Some (u, s') <->
  exists h, head_accessors.set_child idx x (st_head s) = Some h /\
            s' = State (st_this s) h (st_items s).
Proof.
  unfold hset_child. destruct u. destruct (head_accessors.set_child idx x (st_head s)).
  - split; [intros [= <-]; eauto | intros (? & [= ->] & ->); auto].
  - split; [discriminate | intros (? & ? & _); discriminate].
Qed.

Lemma this_Some s a s' : this_ s = Some (a, s') <-> a = st_this s /\ s' = s.
Proof. unfold this_. split; [intros [= <- <-]; auto | intros [-> ->]; auto]. Qed.

(** Breaks a successful run into the successful runs of its steps. *)
Ltac inv_run H :=
  lazymatch type of H with
  | bind _ _ _ = Some _ =>
      let a := fresh "a" in let s := fresh "s" in
      let H1 := fresh "R" in let H2 := fresh "R" in
      apply bind_Some in H as (a & s & H1 & H2); inv_run H1; inv_run H2
  | ret _ _ = Some _ => apply ret_Some in H as [? ?]; subst
  | get _ _ _ = Some _ =>
      let v := fresh "v" in
      apply get_Some in H as (v & ? & ? & ? & ?); subst
  | set _ _ _ = Some _ =>
      let v := fresh "v" in
      apply set_Some in H as (v & ? & ? & ?); subst
  | hget _ _ = Some _ => apply hget_Some in H as [? ?]; subst
  | hset _ _ = Some _ => apply hset_Some in H; subst
  | hchild _ _ = Some _ => apply hchild_Some in H as [? ?]; subst
  | hset_child _ _ _ = Some _ =>
      let h := fresh "h" in
      apply hset_child_Some in H as (h & ? & ?); subst
  | this_ _ = Some _ => apply this_Some in H as [? ?]; subst
  | fail _ = Some _ => discriminate H
  | _ => idtac
  end.

(** * Head-only operations: [clear] and copying *)

Section head_only.
Context {TP : TrieParams}.

Lemma head_set_child_Some idx x h :
    0 <= idx < Z.of_nat (length (trie_children h)) ->
    head_accessors.set_child idx x h =
      Some (Head (trie_count h) (<[Z.to_nat idx := x]> (trie_children h)) (trie_nobbledir h)).
Proof.
    intros Hi. unfold head_accessors.set_child.
    destruct (Z.leb_spec 0 idx); [|lia].
    destruct (Z.ltb_spec idx (Z.of_nat (length (trie_children h)))); [|lia].
    reflexivity.
Qed.

Lemma head_child_insert idx x h i :
    0 <= idx < Z.of_nat (length (trie_children h)) ->
    head_accessors.child i
      (Head (trie_count h) (<[Z.to_nat idx := x]> (trie_children h)) (trie_nobbledir h)) =
    if i =? idx then Some x else head_accessors.child i h.
Proof.
    intros Hi. unfold head_accessors.child; cbn [trie_children].
    destruct (Z.eqb_spec i idx) as [->|Hne].
    - destruct (Z.ltb_spec idx 0); [lia|].
      apply list_lookup_insert_eq. lia.
    - destruct (Z.ltb_spec i 0); [reflexivity|].
      apply list_lookup_insert_ne. lia.
Qed.

Lemma clear_loop_spec cnt : forall n s,
    0 <= n ->
    n + Z.of_nat cnt <= Z.of_nat (length (trie_children (st_head s))) ->
    exists s', clear_loop cnt n s = Some (tt, s') /\
               slots_written (fun _ => Some nullptr) cnt n s s'.
Proof.
    induction cnt as [|cnt IH]; intros n s Hn Hlen.
    - exists s. split; [reflexivity|].
      repeat split; intros i.
      destruct (Z.leb_spec n i), (Z.ltb_spec i (n + Z.of_nat 0)); try reflexivity; lia.
    - cbn [clear_loop]. unfold bind at 1, hset_child.
      rewrite head_set_child_Some by lia.
      set (s1 := State _ _ _).
      destruct (IH (n + 1) s1) as (s' & Hrun & Hth & Hit & Hc & Hd & Hl & Hch).
      { lia. } { subst s1; cbn. rewrite length_insert. lia. }
      exists s'. split; [exact Hrun|].
      subst s1; cbn in *. rewrite length_insert in Hl.
      repeat split; try assumption.
      intros i. rewrite Hch, head_child_insert by lia.
      destruct (Z.eqb_spec i n) as [->|Hne];
        repeat match goal with
               | |- context [Z.leb ?a ?b] => destruct (Z.leb_spec a b)
               | |- context [Z.ltb ?a ?b] => destruct (Z.ltb_spec a b)
               end; cbn; try reflexivity; lia.
Qed.

Lemma copy_loop_spec (o : head) cnt : forall n s,
    0 <= n ->
    n + Z.of_nat cnt <= Z.of_nat (length (trie_children (st_head s))) ->
    n + Z.of_nat cnt <= Z.of_nat (length (trie_children o)) ->
    exists s', copy_loop cnt n o s = Some (tt, s') /\
               slots_written (fun i => head_accessors.child i o) cnt n s s'.
Proof.
    induction cnt as [|cnt IH]; intros n s Hn Hlen Hlo.
    - exists s. split; [reflexivity|].
      repeat split; intros i.
      destruct (Z.leb_spec n i), (Z.ltb_spec i (n + Z.of_nat 0)); try reflexivity; lia.
    - cbn [copy_loop].
      assert (Hx : exists x, head_accessors.child n o = Some x).
      { unfold head_accessors.child. destruct (Z.ltb_spec n 0); [lia|].
        apply lookup_lt_is_Some_2. lia. }
      destruct Hx as [x Hx]. rewrite Hx.
      unfold bind at 1, hset_child.
      rewrite head_set_child_Some by lia.
      set (s1 := State _ _ _).
      destruct (IH (n + 1) s1) as (s' & Hrun & Hth & Hit & Hc & Hd & Hl & Hch).
      { lia. } { subst s1; cbn. rewrite length_insert. lia. } { lia. }
      exists s'. split; [exact Hrun|].
      subst s1; cbn in *. rewrite length_insert in Hl.
      repeat split; try assumption.
      intros i. rewrite Hch, head_child_insert by lia.
      destruct (Z.eqb_spec i n) as [->|Hne];
        repeat match goal with
               | |- context [Z.leb ?a ?b] => destruct (Z.leb_spec a b)
               | |- context [Z.ltb ?a ?b] => destruct (Z.ltb_spec a b)
               end; cbn; try reflexivity; try lia.
      symmetry; exact Hx.
Qed.

End head_only.

(** C8. [clear] resets the head record to empty: afterwards [size] is 0,
    [empty] is true and each of the [key_type_bits] head child slots is
    null; no field of any item is written. *)
Theorem clear_resets_head_only {TP : TrieParams} (s : state) :
  0 <= key_type_bits <= Z.of_nat (length (trie_children (st_head s))) ->
  exists s',
    clear s = Some (tt, s') /\
    hget head_accessors.size s' = Some (0, s') /\
    empty s' = Some (true, s') /\
    (forall n, 0 <= n < key_type_bits -> hchild n s' = Some (nullptr, s')) /\
    st_items s' = st_items s.
Proof.
  intros HB.
  destruct (clear_loop_spec (Z.to_nat key_type_bits) 0 s) as (s1 & Hrun & Hsw); [lia..|].
  destruct Hsw as (Hth & Hit & Hc & Hd & Hl & Hch).
  exists (State (st_this s1) (head_accessors.set_size 0 (st_head s1)) (st_items s1)).
  split; [|split; [|split; [|split]]].
  - unfold clear, bind. rewrite Hrun. reflexivity.
  - reflexivity.
  - reflexivity.
  - intros n Hn. unfold hchild; cbn [st_head].
    change (head_accessors.child n (head_accessors.set_size 0 (st_head s1)))
      with (head_accessors.child n (st_head s1)).
    rewrite Hch.
    destruct (Z.leb_spec 0 n), (Z.ltb_spec n (0 + Z.of_nat (Z.to_nat key_type_bits)));
      try lia. reflexivity.
  - exact Hit.
Qed.

Lemma clear_resets_head_only_witness :
  0 <= 8 <= Z.of_nat (length (trie_children (st_head store5))) /\
  exists s',
    clear (TP := params8 0) store5 = Some (tt, s') /\
    hget head_accessors.size s' = Some (0, s') /\
    empty s' = Some (true, s') /\
    (forall n, 0 <= n < 8 -> hchild n s' = Some (nullptr, s')) /\
    st_items s' = st_items store5.
Proof.
  split; [vm_compute; split; discriminate|].
  apply (clear_resets_head_only (TP := params8 0) store5).
  vm_compute; split; discriminate.
Defined.

(** C10. Copy construction and copy assignment are shallow: the head
    receives the [key_type_bits] child-slot references and the count of
    the index copied from, so both heads reference the same items; no
    item is written, and the nobble-direction flag is not copied. *)
Theorem copy_is_shallow {TP : TrieParams} (o : head) (s : state) :
  0 <= key_type_bits <= Z.of_nat (length (trie_children (st_head s))) ->
  key_type_bits <= Z.of_nat (length (trie_children o)) ->
  exists s',
    copy_from o s = Some (tt, s') /\
    (forall n, 0 <= n < key_type_bits ->
               head_accessors.child n (st_head s') = head_accessors.child n o) /\
    (forall n, key_type_bits <= n ->
               head_accessors.child n (st_head s') = head_accessors.child n (st_head s)) /\
    head_accessors.size (st_head s') = head_accessors.size o /\
    st_items s' = st_items s /\
    trie_nobbledir (st_head s') = trie_nobbledir (st_head s).
Proof.
  intros HB Ho.
  destruct (copy_loop_spec o (Z.to_nat key_type_bits) 0 s) as (s1 & Hrun & Hsw); [lia..|].
  destruct Hsw as (Hth & Hit & Hc & Hd & Hl & Hch).
  exists (State (st_this s1) (head_accessors.set_size (head_accessors.size o) (st_head s1))
                (st_items s1)).
  split; [|split; [|split; [|split; [|split]]]].
  - unfold copy_from, bind. rewrite Hrun. reflexivity.
  - intros n Hn. cbn [st_head].
    change (head_accessors.child n (head_accessors.set_size _ (st_head s1)))
      with (head_accessors.child n (st_head s1)).
    rewrite Hch.
    destruct (Z.leb_spec 0 n), (Z.ltb_spec n (0 + Z.of_nat (Z.to_nat key_type_bits)));
      try lia. reflexivity.
  - intros n Hn. cbn [st_head].
    change (head_accessors.child n (head_accessors.set_size _ (st_head s1)))
      with (head_accessors.child n (st_head s1)).
    rewrite Hch.
    destruct (Z.leb_spec 0 n), (Z.ltb_spec n (0 + Z.of_nat (Z.to_nat key_type_bits)));
      try lia; reflexivity.
  - reflexivity.
  - exact Hit.
  - exact Hd.
Qed.

Lemma copy_is_shallow_witness :
  (0 <= 8 <= Z.of_nat (length (trie_children (st_head store5))) /\
   8 <= Z.of_nat (length (trie_children head_with_12))) /\
  exists s',
    copy_from (TP := params8 0) head_with_12 store5 = Some (tt, s') /\
    (forall n, 0 <= n < 8 ->
               head_accessors.child n (st_head s') = head_accessors.child n head_with_12) /\
    (forall n, 8 <= n ->
               head_accessors.child n (st_head s') = head_accessors.child n (st_head store5)) /\
    head_accessors.size (st_head s') = head_accessors.size head_with_12 /\
    st_items s' = st_items store5 /\
    trie_nobbledir (st_head s') = trie_nobbledir (st_head store5).
Proof.
  split; [vm_compute; intuition discriminate|].
  apply (copy_is_shallow (TP := params8 0) head_with_12 store5);
    vm_compute; intuition discriminate.
Defined.

(** * The tagged parent encoding *)

Lemma land_3_mod (x : Z) : Z.land x 3 = x mod 4.
Proof. change 3 with (Z.ones 2). rewrite Z.land_ones by lia. reflexivity. Qed.

Lemma tag_value (b : Z) :
  0 <= b < 2 ^ 30 ->
  Z.lor (Z.shiftl b 2 mod 2 ^ uintptr_bits) 3 = 4 * b + 3.
Proof.
  intros Hb. rewrite Z.shiftl_mul_pow2 by lia.
  change (2 ^ 2) with 4. unfold uintptr_bits.
  rewrite Z.mod_small by lia.
  assert (Hl : Z.land (b * 4) 3 = 0).
  { rewrite land_3_mod. apply Z.mod_mul. lia. }
  rewrite <- Z.lxor_lor by exact Hl.
  rewrite <- Z.add_nocarry_lxor by exact Hl. lia.
Qed.

Lemma tag_is_index (b : Z) (v : item) :
  0 <= b < 2 ^ 30 ->
  item_accessors.parent_is_index (item_accessors.set_parent_is_index b v) = true.
Proof.
  intros Hb. unfold item_accessors.parent_is_index, item_accessors.set_parent_is_index.
  cbn [trie_parent]. rewrite tag_value by lia.
  rewrite land_3_mod. apply Z.eqb_eq.
  rewrite Z.add_comm, Z.mul_comm, Z.mod_add by lia. reflexivity.
Qed.

Lemma tag_bit_index (b : Z) (v : item) :
  0 <= b < 2 ^ 30 ->
  item_accessors.bit_index (item_accessors.set_parent_is_index b v) = b.
Proof.
  intros Hb. unfold item_accessors.bit_index, item_accessors.set_parent_is_index.
  cbn [trie_parent]. rewrite tag_value by lia.
  unfold unsigned_bits. rewrite Z.mod_small by lia.
  rewrite Z.shiftr_div_pow2 by lia. change (2 ^ 2) with 4.
  rewrite Z.add_comm, Z.mul_comm, Z.div_add by lia. reflexivity.
Qed.

Lemma aligned_not_index (p : Z) (v : item) :
  p mod 4 = 0 ->
  item_accessors.parent_is_index (item_accessors.set_parent p v) = false.
Proof.
  intros Ha. unfold item_accessors.parent_is_index, item_accessors.set_parent.
  cbn [trie_parent]. rewrite land_3_mod, Ha. reflexivity.
Qed.

(** C7. With the default item accessor the tagged parent encoding
    round-trips: after [set_parent_is_index b], for a bit index [b] below
    the key width, [parent_is_index] is true and [bit_index] is [b];
    after [set_parent p], for a non-null reference [p] to storage aligned
    to four bytes, [parent_is_index] is false and [parent] is [p]. *)
Theorem parent_tag_roundtrip {TP : TrieParams} (v : item) (b p : Z) :
  key_type_bits <= 64 ->
  0 <= b < key_type_bits ->
  p <> nullptr -> p mod 4 = 0 ->
  let vi := item_accessors.set_parent_is_index b v in
  let vp := item_accessors.set_parent p v in
  item_accessors.parent_is_index vi = true /\
  item_accessors.bit_index vi = b /\
  item_accessors.parent_is_index vp = false /\
  item_accessors.parent vp = p.
Proof.
  intros Hk Hb Hp Ha. cbn zeta.
  split; [apply tag_is_index; lia|].
  split; [apply tag_bit_index; lia|].
  split; [apply aligned_not_index; exact Ha|reflexivity].
Qed.

Lemma parent_tag_roundtrip_witness :
  (8 <= 64 /\ 0 <= 7 < 8 /\ 4096 <> nullptr /\ 4096 mod 4 = 0) /\
  item_accessors.parent_is_index (item_accessors.set_parent_is_index 7 (fresh_item 200)) = true /\
  item_accessors.bit_index (item_accessors.set_parent_is_index 7 (fresh_item 200)) = 7 /\
  item_accessors.parent_is_index (item_accessors.set_parent 4096 (fresh_item 200)) = false /\
  item_accessors.parent (item_accessors.set_parent 4096 (fresh_item 200)) = 4096.
Proof.
  split; [repeat split; first [lia | discriminate | reflexivity]|].
  apply (parent_tag_roundtrip (TP := params8 0) (fresh_item 200) 7 4096);
    first [reflexivity | discriminate | cbn; lia].
Defined.

(** * Read-only member functions *)

Section readonly_runs.
Context {TP : TrieParams}.

Create HintDb readonly_db.

Lemma readonly_ret {A} (a : A) : readonly (ret a).
Proof. intros s b s' Hr. apply ret_Some in Hr as [_ ->]. reflexivity. Qed.

Lemma readonly_fail {A} : readonly (@fail A).
Proof. intros s b s' Hr. discriminate. Qed.

Lemma readonly_bind {A B} (m : M A) (f : A -> M B) :
  readonly m -> (forall a, readonly (f a)) -> readonly (bind m f).
Proof.
  intros Hm Hf s b s' Hr. apply bind_Some in Hr as (a & s1 & H1 & H2).
  apply Hm in H1 as ->. exact (Hf a _ _ _ H2).
Qed.

Lemma readonly_get {A} p (f : item -> A) : readonly (get p f).
Proof. intros s b s' Hr. apply get_Some in Hr as (v & _ & _ & _ & ->). reflexivity. Qed.

Lemma readonly_hget {A} (f : head -> A) : readonly (hget f).
Proof. intros s b s' Hr. apply hget_Some in Hr as [_ ->]. reflexivity. Qed.

Lemma readonly_hchild idx : readonly (hchild idx).
Proof. intros s b s' Hr. apply hchild_Some in Hr as [_ ->]. reflexivity. Qed.

Lemma readonly_this : readonly this_.
Proof. intros s b s' Hr. apply this_Some in Hr as [_ ->]. reflexivity. Qed.

Ltac readonly_step :=
  first
    [ assumption
    | apply readonly_ret | apply readonly_fail | apply readonly_get
    | apply readonly_hget | apply readonly_hchild | apply readonly_this
    | apply readonly_bind; [| intros ?]
    | match goal with
      | |- readonly (if ?b then _ else _) => destruct b
      | |- readonly (let _ := _ in _) => cbv zeta
      end ].

Lemma readonly_scan_up n : forall bitidx, readonly (scan_up n bitidx).
Proof.
  induction n as [|n IH]; intros bitidx; cbn [scan_up]; repeat readonly_step.
  apply IH.
Qed.
#[local] Hint Resolve readonly_scan_up : readonly_db.

Lemma readonly_to_primary fuel : forall r, readonly (to_primary fuel r).
Proof.
  induction fuel as [|fuel IH]; intros r; cbn [to_primary]; repeat readonly_step.
  apply IH.
Qed.
#[local] Hint Resolve readonly_to_primary : readonly_db.

Lemma readonly_trace_up_next fuel : forall r, readonly (trace_up_next fuel r).
Proof.
  induction fuel as [|fuel IH]; intros r; cbn [trace_up_next]; repeat readonly_step.
  apply IH.
Qed.
#[local] Hint Resolve readonly_trace_up_next : readonly_db.

Lemma readonly_triebranchnext fuel r : readonly (_triebranchnext fuel r).
Proof.
  unfold _triebranchnext; repeat readonly_step; auto with readonly_db.
Qed.
#[local] Hint Resolve readonly_triebranchnext : readonly_db.

Lemma readonly_trienext fuel r : readonly (_trienext fuel r).
Proof.
  unfold _trienext; repeat readonly_step; auto with readonly_db.
Qed.
#[local] Hint Resolve readonly_trienext : readonly_db.

Lemma readonly_inc fuel it : readonly (_inc fuel it).
Proof. unfold _inc; repeat readonly_step; auto with readonly_db. Qed.

Lemma readonly_triemin : readonly _triemin.
Proof. unfold _triemin; repeat readonly_step; auto with readonly_db. Qed.

Lemma readonly_find_walk fuel : forall k keybit node, readonly (find_walk fuel k keybit node).
Proof.
  induction fuel as [|fuel IH]; intros k keybit node; cbn [find_walk]; repeat readonly_step.
  apply IH.
Qed.
#[local] Hint Resolve readonly_find_walk : readonly_db.

Lemma readonly_triefind fuel k : readonly (_triefind fuel k).
Proof. unfold _triefind; repeat readonly_step; auto with readonly_db. Qed.
#[local] Hint Resolve readonly_triefind : readonly_db.

Lemma readonly_count_ring fuel : forall p i n, readonly (count_ring fuel p i n).
Proof.
  induction fuel as [|fuel IH]; intros p i n; cbn [count_ring]; repeat readonly_step.
  apply IH.
Qed.
#[local] Hint Resolve readonly_count_ring : readonly_db.

Lemma readonly_count fuel k : readonly (count fuel k).
Proof.
  unfold count; repeat readonly_step; auto with readonly_db.
Qed.

End readonly_runs.

(** * [erase] *)

(** Whatever [erase] is given, a run that returns hands back the
    argument itself: the successor is computed (and the state left alone
    by that), the item is removed, and [it] is returned. *)
Lemma erase_result {TP : TrieParams} fuel it s r s' :
  erase fuel it s = Some (r, s') ->
  r = it /\
  (exists succ, _inc fuel it s = Some (succ, s)) /\
  trieremove fuel (_p it) s = Some (tt, s').
Proof.
  intros Hr. unfold erase in Hr.
  apply bind_Some in Hr as (succ & s1 & Hinc & Hr).
  apply bind_Some in Hr as ([] & s2 & Hrem & Hr).
  apply ret_Some in Hr as [<- <-].
  pose proof (readonly_inc _ _ _ _ _ Hinc) as ->.
  split; [reflexivity|]. split; [eauto|exact Hrem].
Qed.

(** Erasing the item at 48 from the index of [tree3]: the successor
    computed inside [erase] is the item at address 32. *)
Lemma erase_successor_differs :
  _inc (TP := params8 (-1)) 10 (Iterator 1000 48) (tree3 (-1))
  = Some (Iterator 1000 32, tree3 (-1)).
Proof. vm_compute; reflexivity. Qed.

Lemma trieremove_null {TP : TrieParams} fuel s : trieremove fuel nullptr s = None.
Proof. reflexivity. Qed.

Lemma erase_null {TP : TrieParams} fuel q s : erase fuel (Iterator q nullptr) s = None.
Proof.
  unfold erase, _inc. cbn [_p _parent].
  change (nullptr =? nullptr) with true. cbn [negb].
  rewrite andb_false_r. reflexivity.
Qed.

(** C5. As the code stands, [erase(k)] for a key that [find] does not
    find is not a no-op: [find] yields [end()], whose item reference is
    null, and [erase] passes it to [trieremove], which dereferences it. *)
Theorem erase_absent_key_faults {TP : TrieParams} fuel k s :
  _triefind fuel k s = Some (nullptr, s) ->
  find fuel k s = Some (Iterator (st_this s) nullptr, s) /\
  erase_key fuel k s = None.
Proof.
  intros Hf.
  assert (Hfind : find fuel k s = Some (Iterator (st_this s) nullptr, s)).
  { unfold find, bind. rewrite Hf. reflexivity. }
  split; [exact Hfind|].
  unfold erase_key, bind at 1. rewrite Hfind.
  apply erase_null.
Qed.

Lemma erase_absent_key_faults_witness :
  _triefind (TP := params8 0) 10 7 store5 = Some (nullptr, store5) /\
  find (TP := params8 0) 10 7 store5 = Some (Iterator (st_this store5) nullptr, store5) /\
  erase_key (TP := params8 0) 10 7 store5 = None.
Proof.
  split; [vm_compute; reflexivity|].
  apply (erase_absent_key_faults (TP := params8 0) 10 7 store5).
  vm_compute; reflexivity.
Defined.

(** * [insert] *)

Section insert_runs.
Context {TP : TrieParams}.

Lemma size_would_wrap_false sz :
  0 <= index_type_bits ->
  0 <= sz < head_accessors.max_size ->
  size_would_wrap sz = false.
Proof.
  unfold head_accessors.max_size, size_would_wrap. intros Hb Hsz.
  destruct (index_type_bits <? int_bits).
  - apply Z.ltb_ge. lia.
  - rewrite Z.mod_small by lia. apply Z.ltb_ge. lia.
Qed.

(** Past the overflow test [_trieinsert] reads the key of [r] and, if it
    returns at all, returns true. *)
Lemma trieinsert_result fuel r s b s' :
  size_would_wrap (head_accessors.size (st_head s)) = false ->
  _trieinsert fuel r s = Some (b, s') ->
  b = true /\ r <> nullptr.
Proof.
  intros Hw Hr. unfold _trieinsert in Hr.
  apply bind_Some in Hr as (sz & s0 & Hsz & Hr).
  apply hget_Some in Hsz as [-> ->]. rewrite Hw in Hr.
  apply bind_Some in Hr as (rkey & s1 & Hk & Hr).
  apply get_Some in Hk as (v & Hnn & _ & _ & ->).
  split; [|exact Hnn].
  repeat (apply bind_Some in Hr as (? & ? & _ & Hr)).
  destruct (_ =? nullptr) in Hr.
  - repeat (apply bind_Some in Hr as (? & ? & _ & Hr)).
    apply ret_Some in Hr as [<- _]. reflexivity.
  - repeat (apply bind_Some in Hr as (? & ? & _ & Hr)).
    apply ret_Some in Hr as [<- _]. reflexivity.
Qed.

Lemma insert_when_full fuel p s :
  head_accessors.size (st_head s) = head_accessors.max_size ->
  insert fuel p s = Some (Iterator (st_this s) nullptr, s).
Proof.
  intros Hfull. unfold insert, bind at 1, hget.
  rewrite Hfull, Z.ltb_irrefl. reflexivity.
Qed.

Lemma insert_when_not_full fuel p s it s' :
  0 <= index_type_bits ->
  0 <= head_accessors.size (st_head s) < head_accessors.max_size ->
  insert fuel p s = Some (it, s') ->
  it = Iterator (st_this s') p /\ p <> nullptr /\
  _trieinsert fuel p s = Some (true, s').
Proof.
  intros Hb Hsz Hr. unfold insert in Hr.
  apply bind_Some in Hr as (sz & s0 & Hg & Hr).
  apply hget_Some in Hg as [-> ->].
  destruct (Z.ltb_spec (head_accessors.size (st_head s)) head_accessors.max_size); [|lia].
  apply bind_Some in Hr as (ok & s1 & Hins & Hr).
  destruct (trieinsert_result _ _ _ _ _ (size_would_wrap_false _ Hb Hsz) Hins) as [-> Hnn].
  apply bind_Some in Hr as (this & s2 & Hth & Hr).
  apply this_Some in Hth as [-> ->]. apply ret_Some in Hr as [<- <-].
  auto.
Qed.

End insert_runs.

(** * Concrete runs that settle C3, C4 and C6 as stated *)

(** C3, as stated, fails: with keys 12 and 9 inserted in that order both
    items sit in head slot 3, the traversal visits 12 (the top of the
    branch) before 9 (its [child(0)]), and 12 > 9. *)
Lemma branch_order_counterexample :
  traversal (TP := params8 0) 10 tree_12_9 = Some ([16; 32], tree_12_9) /\
  branch_keys tree_12_9 3 [16; 32] = [12; 9] /\
  ~ branch_order_claim (TP := params8 0) 10 tree_12_9.
Proof.
  assert (Ht : traversal (TP := params8 0) 10 tree_12_9 = Some ([16; 32], tree_12_9))
    by (vm_compute; reflexivity).
  assert (Hk : branch_keys tree_12_9 3 [16; 32] = [12; 9]) by (vm_compute; reflexivity).
  split; [exact Ht|]. split; [exact Hk|].
  intros Hclaim. specialize (Hclaim _ Ht 3). rewrite Hk in Hclaim.
  specialize (Hclaim 0%nat 1%nat 12 9 ltac:(lia) eq_refl eq_refl). lia.
Qed.

(** Key 5 inserted twice, at 64 and then at 80: the second insert links
    the new item to the first ([sibling[1]] of 80 is 64, [sibling[0]] of
    64 is 80) but leaves [sibling[1]] of the first item pointing at
    itself, and [count(5)] is 1. *)
Lemma duplicate_key_example :
  count (TP := params8 0) 10 5 twice_5 = Some (1, twice_5) /\
  _triefind (TP := params8 0) 10 5 twice_5 = Some (64, twice_5) /\
  get 64 (item_accessors.sibling true) twice_5 = Some (64, twice_5) /\
  get 64 (item_accessors.sibling false) twice_5 = Some (80, twice_5) /\
  get 80 (item_accessors.sibling true) twice_5 = Some (64, twice_5) /\
  get 80 (item_accessors.sibling false) twice_5 = Some (64, twice_5) /\
  hget head_accessors.size twice_5 = Some (2, twice_5).
Proof. vm_compute. repeat split; reflexivity. Qed.



(** * Runs on well-formed indices *)

Lemma bind_run {A B} (m : M A) (f : A -> M B) s a s1 :
  m s = Some (a, s1) -> bind m f s = f a s1.
Proof. unfold bind. intros ->. reflexivity. Qed.

Lemma get_run {A} p (f : item -> A) s v :
  p <> nullptr -> st_items s !! p = Some v -> get p f s = Some (f v, s).
Proof. intros Hp Hv. apply get_Some. eauto. Qed.

Lemma set_run p f s v :
  p <> nullptr -> st_items s !! p = Some v ->
  set p f s = Some (tt, State (st_this s) (st_head s) (<[p := f v]> (st_items s))).
Proof. intros Hp Hv. apply set_Some. eauto. Qed.

Lemma key_at_lookup s p v : st_items s !! p = Some v -> key_at s p = trie_key v.
Proof. unfold key_at. intros ->. reflexivity. Qed.

Lemma bitscanr_lt (k B : Z) : 0 < B -> 0 <= k < 2 ^ B -> 0 <= bitscanr k < B.
Proof.
  intros HB Hk. unfold bitscanr. destruct (Z.eqb_spec k 0); [lia|].
  split; [apply Z.log2_nonneg|]. apply Z.log2_lt_pow2; lia.
Qed.

Section find_runs.
Context {TP : TrieParams}.

(** The descent of [_triefind] through one branch: it ends at the item
    of the branch with key [k], or at null when the branch has none. *)
Lemma find_walk_spec (s : state) (k : Z) (t : tree) :
  forall par keybit fuel,
    shape (st_items s) par t ->
    keys_ok (key_at s) keybit t ->
    t <> Leaf -> (height t <= fuel)%nat ->
    exists x : Z, find_walk fuel k keybit (root t) s = Some (x, s) /\
              ((x ∈ nodes t /\ key_at s x = k) \/
               (x = nullptr /\ forall y : Z, y ∈ nodes t -> key_at s y <> k)).
Proof.
  induction t as [|p t0 IH0 t1 IH1]; intros par keybit fuel Hsh Hk Hne Hfuel; [done|].
  destruct fuel as [|fuel]; [cbn in Hfuel; lia|].
  cbn [shape] in Hsh. destruct Hsh as (Hp & Hal & (v & Hv & Hpar & Hch & Hsib) & Hs0 & Hs1).
  cbn [keys_ok] in Hk. destruct Hk as (Hk0 & Hk1 & Hko0 & Hko1).
  cbn [height] in Hfuel. cbn [find_walk root nodes].
  erewrite bind_run by (apply get_run; eassumption).
  unfold item_accessors.key. rewrite <- (key_at_lookup s p v Hv).
  destruct (Z.eqb_spec (key_at s p) k) as [Heq|Hneq].
  { exists p. split; [reflexivity|]. left. split; [apply list_elem_of_here|exact Heq]. }
  cbv zeta.
  erewrite bind_run by (apply get_run; eassumption).
  unfold item_accessors.child. rewrite Hch.
  set (kb := Z.shiftr keybit 1) in *.
  assert (Hside : forall (c : bool) (y : Z), y ∈ nodes (if c then t0 else t1) ->
                              key_at s y = k -> dirbit k kb = negb c).
  { intros c y Hy Hyk. rewrite <- Hyk. destruct c; cbn.
    - rewrite Forall_forall in Hk0. auto.
    - rewrite Forall_forall in Hk1. auto. }
  fold (dirbit k kb). destruct (dirbit k kb) eqn:Hd; cbn [nth2 fst snd].
  - (* towards child(1) *)
    destruct t1 as [|q1 a1 b1].
    + exists nullptr. split; [reflexivity|]. right. split; [reflexivity|].
      intros y Hy Hyk. apply elem_of_cons in Hy as [->|Hy]; [done|].
      rewrite app_nil_r in Hy. specialize (Hside true y Hy Hyk). discriminate.
    + assert (Hq1 : (q1 =? nullptr) = false).
      { cbn in Hs1. apply Z.eqb_neq. tauto. }
      cbn [root]. rewrite Hq1.
      destruct (IH1 p kb fuel Hs1 Hko1 ltac:(done) ltac:(lia)) as (x & Hrun & Hx).
      exists x. split; [exact Hrun|].
      destruct Hx as [[Hin Hxk]|[-> Hnone]].
      * left. split; [|exact Hxk]. apply elem_of_cons. right.
        apply elem_of_app. right. exact Hin.
      * right. split; [reflexivity|].
        intros y Hy Hyk. apply elem_of_cons in Hy as [->|Hy]; [done|].
        apply elem_of_app in Hy as [Hy|Hy].
        -- specialize (Hside true y Hy Hyk). discriminate.
        -- exact (Hnone y Hy Hyk).
  - (* towards child(0) *)
    destruct t0 as [|q0 a0 b0].
    + exists nullptr. split; [reflexivity|]. right. split; [reflexivity|].
      intros y Hy Hyk. apply elem_of_cons in Hy as [->|Hy]; [done|].
      cbn in Hy. specialize (Hside false y Hy Hyk). discriminate.
    + assert (Hq0 : (q0 =? nullptr) = false).
      { cbn in Hs0. apply Z.eqb_neq. tauto. }
      cbn [root]. rewrite Hq0.
      destruct (IH0 p kb fuel Hs0 Hko0 ltac:(done) ltac:(lia)) as (x & Hrun & Hx).
      exists x. split; [exact Hrun|].
      destruct Hx as [[Hin Hxk]|[-> Hnone]].
      * left. split; [|exact Hxk]. apply elem_of_cons. right.
        apply elem_of_app. left. exact Hin.
      * right. split; [reflexivity|].
        intros y Hy Hyk. apply elem_of_cons in Hy as [->|Hy]; [done|].
        apply elem_of_app in Hy as [Hy|Hy].
        -- exact (Hnone y Hy Hyk).
        -- specialize (Hside false y Hy Hyk). discriminate.
Qed.

End find_runs.

Lemma elem_of_attached (ts : list tree) (y : Z) :
  y ∈ attached ts <-> exists (b : nat) (t : tree), ts !! b = Some t /\ y ∈ nodes t.
Proof.
  unfold attached. induction ts as [|t ts IH]; cbn.
  - split; [intros H; inversion H|intros (b & t & Hb & _); destruct b; discriminate].
  - rewrite elem_of_app, IH. split.
    + intros [Hy|(b & u & Hb & Hy)]; [exists 0%nat, t; auto|exists (S b), u; auto].
    + intros ([|b] & u & Hb & Hy); cbn in Hb; [left; congruence|right; eauto].
Qed.

Section find_on_wf.
Context {TP : TrieParams}.

Lemma wf_lookup_branch s ts b :
  wf s ts -> 0 <= b < key_type_bits ->
  exists t, ts !! Z.to_nat b = Some t /\ branch_ok s b t.
Proof.
  intros Hwf Hb.
  destruct (lookup_lt_is_Some_2 ts (Z.to_nat b)) as [t Ht].
  { pose proof (wf_count _ _ Hwf). lia. }
  exists t. split; [exact Ht|].
  pose proof (wf_branch _ _ Hwf _ _ Ht) as Hbr. rewrite Z2Nat.id in Hbr by lia. exact Hbr.
Qed.

Lemma attached_top s ts y :
  wf s ts -> y ∈ attached ts ->
  exists t, ts !! Z.to_nat (bitscanr (key_at s y)) = Some t /\ y ∈ nodes t /\
            0 <= key_at s y < 2 ^ key_type_bits.
Proof.
  intros Hwf Hy. apply elem_of_attached in Hy as (b & t & Hb & Hy).
  pose proof (br_top _ _ _ (wf_branch _ _ Hwf _ _ Hb)) as Htop.
  rewrite Forall_forall in Htop. destruct (Htop y Hy) as [-> Hr].
  rewrite Nat2Z.id. eauto.
Qed.

(** On a well-formed index [_triefind] returns the attached item with
    key [k], or null when no attached item has that key. *)
Lemma triefind_spec s ts k fuel :
  wf s ts -> 0 <= k < 2 ^ key_type_bits ->
  Forall (fun t => (height t <= fuel)%nat) ts ->
  exists x : Z, _triefind fuel k s = Some (x, s) /\
    ((x ∈ attached ts /\ key_at s x = k) \/
     (x = nullptr /\ forall y : Z, y ∈ attached ts -> key_at s y <> k)).
Proof.
  intros Hwf Hk Hfuel.
  pose proof (wf_bits _ _ Hwf) as HB.
  pose proof (bitscanr_lt k key_type_bits (proj1 HB) Hk) as Hb.
  destruct (wf_lookup_branch s ts _ Hwf Hb) as (t & Ht & Hbr).
  assert (Hother : forall y : Z, y ∈ attached ts -> key_at s y = k -> y ∈ nodes t).
  { intros y Hy Hyk. destruct (attached_top s ts y Hwf Hy) as (u & Hu & Hyu & _).
    rewrite Hyk, Ht in Hu. congruence. }
  unfold _triefind. cbv zeta.
  erewrite bind_run by (apply hchild_Some; split; [apply (br_slot _ _ _ Hbr)|reflexivity]).
  destruct t as [|q t0 t1].
  - exists nullptr. split; [reflexivity|]. right. split; [reflexivity|].
    intros y Hy Hyk. specialize (Hother y Hy Hyk). inversion Hother.
  - assert (Hq : (q =? nullptr) = false).
    { apply Z.eqb_neq. pose proof (br_shape _ _ _ Hbr) as Hsh. cbn in Hsh. tauto. }
    cbn [root]. rewrite Hq.
    rewrite Forall_forall in Hfuel.
    destruct (find_walk_spec s k (Node q t0 t1) (index_tag (bitscanr k))
                (Z.shiftl 1 (bitscanr k) mod 2 ^ key_type_bits) fuel
                (br_shape _ _ _ Hbr) (br_keys _ _ _ Hbr) ltac:(done))
      as (x & Hrun & Hx).
    { apply Hfuel. eapply list_elem_of_lookup_2. exact Ht. }
    exists x. split; [exact Hrun|].
    destruct Hx as [[Hin Hxk]|[-> Hnone]].
    + left. split; [|exact Hxk]. apply elem_of_attached. eauto.
    + right. split; [reflexivity|]. intros y Hy Hyk. exact (Hnone y (Hother y Hy Hyk) Hyk).
Qed.

End find_on_wf.

(** * Branch shapes *)

Lemma shape_ext (m m' : gmap Z item) (t : tree) :
  forall par,
    (forall q : Z, q ∈ nodes t -> link_view <$> (m' !! q) = link_view <$> (m !! q)) ->
    shape m par t -> shape m' par t.
Proof.
  induction t as [|p t0 IH0 t1 IH1]; intros par Hsame Hsh; [exact I|].
  cbn [shape] in *. destruct Hsh as (Hp & Hal & (v & Hv & Hpar & Hch & Hsib) & Hs0 & Hs1).
  split; [exact Hp|]. split; [exact Hal|]. split; [|split].
  - specialize (Hsame p ltac:(cbn; apply elem_of_cons; auto)).
    rewrite Hv in Hsame. destruct (m' !! p) as [v'|]; [|discriminate].
    injection Hsame as Ha Hb Hc. exists v'. repeat split; congruence.
  - apply IH0; [|exact Hs0]. intros q Hq. apply Hsame. cbn.
    apply elem_of_cons. right. apply elem_of_app. auto.
  - apply IH1; [|exact Hs1]. intros q Hq. apply Hsame. cbn.
    apply elem_of_cons. right. apply elem_of_app. auto.
Qed.

Lemma shape_frame (m m' : gmap Z item) (t : tree) par :
  (forall q : Z, q ∈ nodes t -> m' !! q = m !! q) ->
  shape m par t -> shape m' par t.
Proof. intros Hsame. apply shape_ext. intros q Hq. rewrite Hsame by exact Hq. reflexivity. Qed.

Lemma shape_root_nonnull m par p t0 t1 : shape m par (Node p t0 t1) -> (p =? nullptr) = false.
Proof. cbn. intros (Hp & _). apply Z.eqb_neq. exact Hp. Qed.

Lemma shape_allocated m par t (q : Z) :
  shape m par t -> q ∈ nodes t -> q <> nullptr /\ q mod 4 = 0 /\ is_Some (m !! q).
Proof.
  revert par. induction t as [|p t0 IH0 t1 IH1]; intros par Hsh Hq; [inversion Hq|].
  cbn [shape] in Hsh. destruct Hsh as (Hp & Hal & (v & Hv & _) & Hs0 & Hs1).
  cbn in Hq. apply elem_of_cons in Hq as [->|Hq]; [eauto|].
  apply elem_of_app in Hq as [Hq|Hq]; eauto.
Qed.

Lemma height_le_nodes (t : tree) : (height t <= length (nodes t))%nat.
Proof.
  induction t as [|p t0 IH0 t1 IH1]; cbn; [lia|]. rewrite length_app. lia.
Qed.

(** * Where an insert lands in a branch *)

Section tinsert_facts.
Variable key : Z -> Z.
Variables (r rkey : Z).
Hypothesis Hrkey : key r = rkey.

Lemma tinsert_found (t : tree) : forall keybit,
  keys_ok key keybit t ->
  (exists x : Z, x ∈ nodes t /\ key x = rkey) ->
  tinsert key r rkey keybit t = t.
Proof.
  induction t as [|p t0 IH0 t1 IH1]; intros keybit Hk (x & Hx & Hxk); [inversion Hx|].
  cbn [tinsert]. destruct (Z.eqb_spec (key p) rkey) as [|Hne]; [reflexivity|].
  cbn [keys_ok] in Hk. destruct Hk as (Hk0 & Hk1 & Hko0 & Hko1).
  rewrite Forall_forall in Hk0, Hk1.
  cbn in Hx. apply elem_of_cons in Hx as [->|Hx]; [done|].
  cbv zeta. apply elem_of_app in Hx as [Hx|Hx].
  - assert (Hd : dirbit rkey (Z.shiftr keybit 1) = false) by (rewrite <- Hxk; auto).
    rewrite Hd. f_equal. apply IH0; [exact Hko0|eauto].
  - assert (Hd : dirbit rkey (Z.shiftr keybit 1) = true) by (rewrite <- Hxk; auto).
    rewrite Hd. f_equal. apply IH1; [exact Hko1|eauto].
Qed.

Lemma tinsert_new (t : tree) : forall keybit,
  (forall x : Z, x ∈ nodes t -> key x <> rkey) ->
  nodes (tinsert key r rkey keybit t) ≡ₚ r :: nodes t.
Proof.
  induction t as [|p t0 IH0 t1 IH1]; intros keybit Hnone; [reflexivity|].
  cbn [tinsert]. destruct (Z.eqb_spec (key p) rkey) as [Heq|Hne].
  { exfalso. apply (Hnone p); [cbn; apply elem_of_cons; auto|exact Heq]. }
  cbv zeta. destruct (dirbit rkey (Z.shiftr keybit 1)); cbn [nodes].
  - rewrite IH1.
    + rewrite <- Permutation_middle. apply Permutation_swap.
    + intros x Hx. apply Hnone. cbn. apply elem_of_cons. right. apply elem_of_app. auto.
  - rewrite IH0.
    + cbn. apply Permutation_swap.
    + intros x Hx. apply Hnone. cbn. apply elem_of_cons. right. apply elem_of_app. auto.
Qed.

Lemma tinsert_nodes (t : tree) (y : Z) : forall keybit,
  y ∈ nodes (tinsert key r rkey keybit t) -> y = r \/ y ∈ nodes t.
Proof.
  induction t as [|p t0 IH0 t1 IH1]; intros keybit Hy.
  - cbn in Hy. apply elem_of_cons in Hy as [->|Hy]; auto.
  - cbn [tinsert] in Hy. destruct (key p =? rkey); [auto|].
    cbv zeta in Hy. destruct (dirbit rkey (Z.shiftr keybit 1)); cbn [nodes] in *;
      rewrite !elem_of_cons, !elem_of_app in *.
    + destruct Hy as [->|[Hy|Hy]]; auto. destruct (IH1 _ Hy); auto.
    + destruct Hy as [->|[Hy|Hy]]; auto. destruct (IH0 _ Hy); auto.
Qed.

Lemma tinsert_keys_ok (t : tree) : forall keybit,
  keys_ok key keybit t -> keys_ok key keybit (tinsert key r rkey keybit t).
Proof.
  induction t as [|p t0 IH0 t1 IH1]; intros keybit Hk.
  - cbn. repeat split; constructor.
  - cbn [tinsert]. destruct (key p =? rkey); [exact Hk|].
    cbn [keys_ok] in Hk. destruct Hk as (Hk0 & Hk1 & Hko0 & Hko1).
    cbv zeta. destruct (dirbit rkey (Z.shiftr keybit 1)) eqn:Hd; cbn [keys_ok].
    + split; [exact Hk0|]. split; [|split; [exact Hko0|apply IH1; exact Hko1]].
      rewrite Forall_forall in *. intros x Hx.
      destruct (tinsert_nodes _ _ _ Hx) as [->|Hx']; [rewrite Hrkey; exact Hd|auto].
    + split; [|split; [exact Hk1|split; [apply IH0; exact Hko0|exact Hko1]]].
      rewrite Forall_forall in *. intros x Hx.
      destruct (tinsert_nodes _ _ _ Hx) as [->|Hx']; [rewrite Hrkey; exact Hd|auto].
Qed.

Lemma tinsert_not_leaf (t : tree) keybit : tinsert key r rkey keybit t <> Leaf.
Proof.
  destruct t as [|p t0 t1]; cbn; [discriminate|].
  destruct (key p =? rkey); [discriminate|].
  destruct (dirbit rkey (Z.shiftr keybit 1)); discriminate.
Qed.

Lemma tinsert_root (p : Z) (t0 t1 : tree) keybit :
  root (tinsert key r rkey keybit (Node p t0 t1)) = p.
Proof.
  cbn. destruct (key p =? rkey); [reflexivity|].
  destruct (dirbit rkey (Z.shiftr keybit 1)); reflexivity.
Qed.

End tinsert_facts.

(** * The walk of [_trieinsert] *)

(** Symbolic execution of one accessor call on a store given by its
    updates. *)
Ltac solve_lookup :=
  cbn [st_items];
  repeat first [ rewrite lookup_insert_eq | rewrite lookup_insert_ne by congruence ];
  first [ reflexivity | eassumption ].

Ltac run_get :=
  erewrite bind_run; [| apply get_run; [ try assumption; try congruence | solve_lookup ] ];
  cbn [st_this st_head st_items].
Ltac run_set :=
  erewrite bind_run; [| apply set_run; [ try assumption; try congruence | solve_lookup ] ];
  cbn [st_this st_head st_items].
Ltac last_set :=
  erewrite set_run; [| try assumption; try congruence | solve_lookup ];
  cbn [st_this st_head st_items].

Section insert_walk.
Context {TP : TrieParams}.
Variables (r rkey : Z).
Hypothesis Hr0 : r <> nullptr.
Hypothesis Hral : r mod 4 = 0.

Lemma insert_walk_spec (t : tree) :
  forall par keybit fuel s,
    shape (st_items s) par t -> keys_ok (key_at s) keybit t ->
    t <> Leaf -> (height t <= fuel)%nat -> NoDup (nodes t) ->
    r ∉ nodes t -> st_items s !! r = Some (reset_item r rkey) ->
    exists s',
      insert_walk fuel r rkey keybit (root t) s = Some (tt, s') /\
      walk_post r rkey par keybit t s s'.
Proof.
  induction t as [|p t0 IH0 t1 IH1];
    intros par keybit fuel s Hsh Hk Hne Hfuel Hnd Hfresh Hr; [done|].
  destruct fuel as [|fuel]; [cbn in Hfuel; lia|].
  pose proof Hsh as Hshape.
  cbn [shape] in Hsh. destruct Hsh as (Hp & Hal & (v & Hv & Hpar & Hch & Hsib) & Hs0 & Hs1).
  cbn [keys_ok] in Hk. destruct Hk as (Hk0 & Hk1 & Hko0 & Hko1).
  rewrite Forall_forall in Hk0, Hk1.
  cbn [height] in Hfuel. cbn [nodes] in Hnd, Hfresh.
  apply NoDup_cons in Hnd as [Hpn Hnd]. apply NoDup_app in Hnd as (Hnd0 & Hdisj & Hnd1).
  rewrite not_elem_of_cons, not_elem_of_app in Hfresh. destruct Hfresh as (Hrp & Hr0' & Hr1').
  rewrite not_elem_of_app in Hpn. destruct Hpn as [Hp0 Hp1].
  assert (Hkp : key_at s p = trie_key v) by (apply key_at_lookup; exact Hv).
  assert (Hkr : key_at s r = rkey) by (rewrite (key_at_lookup s r _ Hr); reflexivity).
  cbn [insert_walk root].
  run_get. unfold item_accessors.key at 1.
  destruct (Z.eqb_spec (trie_key v) rkey) as [Heq|Hneq].
  - (* an item with the same key *)
    destruct s as [this hd m]. cbn [st_items st_head st_this] in *.
    run_set. run_set. run_get.
    set (m' := <[p := item_accessors.set_sibling false r v]>
                 (<[r := spliced_item r rkey p v]> m)).
    exists (State this hd m'). split.
    + assert (Hnx : (item_accessors.sibling true (item_accessors.set_sibling false r v)
                     =? nullptr) = false).
      { unfold item_accessors.sibling, item_accessors.set_sibling.
        cbn [nth2 upd2 trie_sibling snd]. rewrite Hsib. apply Z.eqb_neq. exact Hp. }
      unfold item_accessors.sibling at 1 2. cbn [nth2].
      destruct (Z.eqb_spec (fst (trie_sibling v)) nullptr) as [Hz|Hz]; cbn [negb];
        run_set; run_set; run_get; rewrite Hnx;
        unfold ret; do 2 f_equal; subst m';
        rewrite !insert_insert_eq; unfold spliced_item;
        [rewrite Hz|rewrite (proj2 (Z.eqb_neq _ _) Hz)]; reflexivity.
    + unfold walk_post; cbn [st_items st_head st_this].
      split; [reflexivity|]. split; [reflexivity|]. split; [|split; [|split]].
      * intros q Hqr Hq. cbn [nodes] in Hq. rewrite not_elem_of_cons in Hq.
        subst m'. rewrite !lookup_insert_ne by (intros ->; tauto). reflexivity.
      * intros q. subst m'.
        destruct (decide (q = p)) as [->|Hqp].
        { rewrite lookup_insert_eq, Hv. reflexivity. }
        rewrite lookup_insert_ne by congruence.
        destruct (decide (q = r)) as [->|Hqr].
        { rewrite lookup_insert_eq, Hr. reflexivity. }
        rewrite lookup_insert_ne by congruence. reflexivity.
      * cbn [tinsert]. rewrite Hkp, (proj2 (Z.eqb_eq _ _) Heq).
        apply (shape_ext m); [|exact Hshape].
        intros q Hq. subst m'.
        destruct (decide (q = p)) as [->|Hqp].
        { rewrite lookup_insert_eq, Hv. reflexivity. }
        rewrite lookup_insert_ne by congruence.
        rewrite lookup_insert_ne; [reflexivity|].
        intros <-. cbn [nodes] in Hq. rewrite elem_of_cons, elem_of_app in Hq. tauto.
      * right. exists p, v. split; [cbn; apply elem_of_cons; auto|]. auto.
  - fold (dirbit rkey (Z.shiftr keybit 1)). set (kb := Z.shiftr keybit 1) in *.
    run_get. unfold item_accessors.child. rewrite Hch.
    assert (Hoff : forall (c : bool) (y : Z),
               y ∈ nodes (if c then t1 else t0) -> dirbit rkey kb = negb c ->
               key_at s y <> rkey).
    { intros c y Hy Hd Hyk.
      destruct c; [specialize (Hk1 y Hy)|specialize (Hk0 y Hy)];
        rewrite Hyk in *; rewrite Hd in *; discriminate. }
    assert (Htins : tinsert (key_at s) r rkey keybit (Node p t0 t1) =
                    if dirbit rkey kb then Node p t0 (tinsert (key_at s) r rkey kb t1)
                    else Node p (tinsert (key_at s) r rkey kb t0) t1).
    { cbn [tinsert]. rewrite Hkp, (proj2 (Z.eqb_neq _ _) Hneq). reflexivity. }
    destruct (dirbit rkey kb) eqn:Hd; cbn [nth2 fst snd].
    + (* towards child(1) *)
      destruct t1 as [|q1 a1 b1].
      * (* the slot is free: attach here *)
        cbn [root]. change (nullptr =? nullptr) with true. cbv iota.
        destruct s as [this hd m]. cbn [st_items st_head st_this] in *.
        run_set. last_set.
        eexists. split; [reflexivity|].
        unfold walk_post; cbn [st_items st_head st_this].
        split; [reflexivity|]. split; [reflexivity|]. split; [|split; [|split]].
        -- intros q Hqr Hq. cbn [nodes] in Hq. rewrite not_elem_of_cons in Hq.
           rewrite !lookup_insert_ne by (intros ->; tauto). reflexivity.
        -- intros q.
           destruct (decide (q = p)) as [->|Hqp].
           { rewrite lookup_insert_eq, Hv. reflexivity. }
           rewrite lookup_insert_ne by congruence.
           destruct (decide (q = r)) as [->|Hqr].
           { rewrite lookup_insert_eq, Hr. reflexivity. }
           rewrite lookup_insert_ne by congruence. reflexivity.
        -- rewrite Htins. cbn [tinsert shape root].
           split; [exact Hp|]. split; [exact Hal|]. split; [|split].
           ++ eexists. split; [apply lookup_insert_eq|].
              unfold item_accessors.set_child; cbn [trie_parent trie_child trie_sibling upd2].
              rewrite Hch. cbn [fst snd root]. auto.
           ++ apply (shape_frame m); [|exact Hs0]. intros q Hq.
              rewrite !lookup_insert_ne by (intros ->; tauto). reflexivity.
           ++ split; [exact Hr0|]. split; [exact Hral|]. split; [|split; exact I].
              eexists. split; [rewrite lookup_insert_ne by congruence; apply lookup_insert_eq|].
              cbn. auto.
        -- left. split.
           ++ intros y Hy. cbn [nodes] in Hy. rewrite app_nil_r in Hy.
              apply elem_of_cons in Hy as [->|Hy]; [congruence|].
              apply (Hoff false y Hy). reflexivity.
           ++ intros q.
              destruct (decide (q = p)) as [->|Hqp].
              { rewrite lookup_insert_eq, Hv. reflexivity. }
              rewrite lookup_insert_ne by congruence.
              destruct (decide (q = r)) as [->|Hqr].
              { rewrite lookup_insert_eq, Hr. reflexivity. }
              rewrite lookup_insert_ne by congruence. reflexivity.
      * (* occupied: keep walking *)
        cbn [root]. rewrite (shape_root_nonnull _ _ _ _ _ Hs1).
        destruct (IH1 p kb fuel s Hs1 Hko1 ltac:(done) ltac:(lia) Hnd1 Hr1' Hr)
          as (s' & Hrun & Hpost).
        exists s'. split; [exact Hrun|].
        destruct Hpost as (Hhd & Hth & Hframe & Hkeys & Hsh' & Hcase).
        unfold walk_post.
        split; [exact Hhd|]. split; [exact Hth|]. split; [|split; [exact Hkeys|split]].
        -- intros q Hqr Hq. cbn [nodes] in Hq.
           rewrite not_elem_of_cons, not_elem_of_app in Hq. apply Hframe; tauto.
        -- rewrite Htins. cbn [shape].
           split; [exact Hp|]. split; [exact Hal|]. split; [|split].
           ++ exists v. rewrite Hframe by (try congruence; exact Hp1).
              rewrite tinsert_root. cbn [root] in Hch. auto.
           ++ apply (shape_frame (st_items s)); [|exact Hs0]. intros q Hq.
              apply Hframe; [intros ->; tauto|]. exact (Hdisj q Hq).
           ++ exact Hsh'.
        -- destruct Hcase as [[Hnone Hring]|(x & vx & Hx & Hvx & Hkx & Hst)].
           ++ left. split; [|exact Hring].
              intros y Hy. cbn [nodes] in Hy. rewrite elem_of_cons, elem_of_app in Hy.
              destruct Hy as [->|[Hy|Hy]]; [congruence| |auto].
              apply (Hoff false y Hy). reflexivity.
           ++ right. exists x, vx. split; [|auto].
              cbn [nodes]. rewrite elem_of_cons, elem_of_app. auto.
    + (* towards child(0) *)
      destruct t0 as [|q0 a0 b0].
      * (* the slot is free: attach here *)
        cbn [root]. change (nullptr =? nullptr) with true. cbv iota.
        destruct s as [this hd m]. cbn [st_items st_head st_this] in *.
        run_set. last_set.
        eexists. split; [reflexivity|].
        unfold walk_post; cbn [st_items st_head st_this].
        split; [reflexivity|]. split; [reflexivity|]. split; [|split; [|split]].
        -- intros q Hqr Hq. cbn [nodes] in Hq. rewrite not_elem_of_cons in Hq.
           rewrite !lookup_insert_ne by (intros ->; tauto). reflexivity.
        -- intros q.
           destruct (decide (q = p)) as [->|Hqp].
           { rewrite lookup_insert_eq, Hv. reflexivity. }
           rewrite lookup_insert_ne by congruence.
           destruct (decide (q = r)) as [->|Hqr].
           { rewrite lookup_insert_eq, Hr. reflexivity. }
           rewrite lookup_insert_ne by congruence. reflexivity.
        -- rewrite Htins. cbn [tinsert shape root].
           split; [exact Hp|]. split; [exact Hal|]. split; [|split].
           ++ eexists. split; [apply lookup_insert_eq|].
              unfold item_accessors.set_child; cbn [trie_parent trie_child trie_sibling upd2].
              rewrite Hch. cbn [fst snd root]. auto.
           ++ split; [exact Hr0|]. split; [exact Hral|]. split; [|split; exact I].
              eexists. split; [rewrite lookup_insert_ne by congruence; apply lookup_insert_eq|].
              cbn. auto.
           ++ apply (shape_frame m); [|exact Hs1]. intros q Hq.
              rewrite !lookup_insert_ne by (intros ->; tauto). reflexivity.
        -- left. split.
           ++ intros y Hy. cbn [nodes app] in Hy.
              apply elem_of_cons in Hy as [->|Hy]; [congruence|].
              apply (Hoff true y Hy). reflexivity.
           ++ intros q.
              destruct (decide (q = p)) as [->|Hqp].
              { rewrite lookup_insert_eq, Hv. reflexivity. }
              rewrite lookup_insert_ne by congruence.
              destruct (decide (q = r)) as [->|Hqr].
              { rewrite lookup_insert_eq, Hr. reflexivity. }
              rewrite lookup_insert_ne by congruence. reflexivity.
      * (* occupied: keep walking *)
        cbn [root]. rewrite (shape_root_nonnull _ _ _ _ _ Hs0).
        destruct (IH0 p kb fuel s Hs0 Hko0 ltac:(done) ltac:(lia) Hnd0 Hr0' Hr)
          as (s' & Hrun & Hpost).
        exists s'. split; [exact Hrun|].
        destruct Hpost as (Hhd & Hth & Hframe & Hkeys & Hsh' & Hcase).
        unfold walk_post.
        split; [exact Hhd|]. split; [exact Hth|]. split; [|split; [exact Hkeys|split]].
        -- intros q Hqr Hq. cbn [nodes] in Hq.
           rewrite not_elem_of_cons, not_elem_of_app in Hq. apply Hframe; tauto.
        -- rewrite Htins. cbn [shape].
           split; [exact Hp|]. split; [exact Hal|]. split; [|split].
           ++ exists v. rewrite Hframe by (try congruence; exact Hp0).
              rewrite tinsert_root. cbn [root] in Hch. auto.
           ++ exact Hsh'.
           ++ apply (shape_frame (st_items s)); [|exact Hs1]. intros q Hq.
              apply Hframe; [intros ->; tauto|]. intros Hq0. exact (Hdisj q Hq0 Hq).
        -- destruct Hcase as [[Hnone Hring]|(x & vx & Hx & Hvx & Hkx & Hst)].
           ++ left. split; [|exact Hring].
              intros y Hy. cbn [nodes] in Hy. rewrite elem_of_cons, elem_of_app in Hy.
              destruct Hy as [->|[Hy|Hy]]; [congruence|auto|].
              apply (Hoff true y Hy). reflexivity.
           ++ right. exists x, vx. split; [|auto].
              cbn [nodes]. rewrite elem_of_cons, elem_of_app. auto.
Qed.

End insert_walk.

(** * [_trieinsert] on well-formed indices *)

Lemma key_at_ext (s s' : state) :
  (forall q : Z, trie_key <$> (st_items s' !! q) = trie_key <$> (st_items s !! q)) ->
  forall q : Z, key_at s' q = key_at s q.
Proof.
  intros H q. specialize (H q). unfold key_at.
  destruct (st_items s' !! q), (st_items s !! q); cbn in H; congruence.
Qed.

Lemma keys_ok_ext (key key' : Z -> Z) (t : tree) : forall keybit,
  (forall q : Z, q ∈ nodes t -> key' q = key q) ->
  keys_ok key keybit t -> keys_ok key' keybit t.
Proof.
  induction t as [|p t0 IH0 t1 IH1]; intros keybit Hext Hk; [exact I|].
  cbn [keys_ok nodes] in *. destruct Hk as (Hk0 & Hk1 & Hko0 & Hko1).
  rewrite Forall_forall in Hk0, Hk1.
  split; [|split; [|split]].
  - rewrite Forall_forall. intros x Hx. rewrite Hext; [auto|].
    apply elem_of_cons. right. apply elem_of_app. auto.
  - rewrite Forall_forall. intros x Hx. rewrite Hext; [auto|].
    apply elem_of_cons. right. apply elem_of_app. auto.
  - apply IH0; [|exact Hko0]. intros q Hq. apply Hext.
    apply elem_of_cons. right. apply elem_of_app. auto.
  - apply IH1; [|exact Hko1]. intros q Hq. apply Hext.
    apply elem_of_cons. right. apply elem_of_app. auto.
Qed.

Lemma tinsert_ext (key key' : Z -> Z) (r rkey : Z) (t : tree) : forall keybit,
  (forall q : Z, q ∈ nodes t -> key' q = key q) ->
  tinsert key' r rkey keybit t = tinsert key r rkey keybit t.
Proof.
  induction t as [|p t0 IH0 t1 IH1]; intros keybit Hext; [reflexivity|].
  cbn [tinsert nodes] in *. rewrite (Hext p) by (apply elem_of_cons; auto).
  destruct (key p =? rkey); [reflexivity|]. cbv zeta.
  rewrite IH0, IH1; [reflexivity| |];
    intros q Hq; apply Hext; apply elem_of_cons; right; apply elem_of_app; auto.
Qed.

Lemma attached_insert_perm (ts : list tree) (b : nat) (t t' : tree) (r : Z) :
  ts !! b = Some t -> nodes t' ≡ₚ r :: nodes t ->
  attached (<[b := t']> ts) ≡ₚ r :: attached ts.
Proof.
  unfold attached. revert b. induction ts as [|u ts IH]; intros b Hb Hperm; [discriminate|].
  destruct b as [|b]; cbn in *.
  - injection Hb as ->. rewrite Hperm. reflexivity.
  - rewrite (IH b Hb Hperm). rewrite <- Permutation_middle. reflexivity.
Qed.

Section wf_facts.
Context {TP : TrieParams}.

Lemma wf_branches_disjoint s ts (b1 b2 : nat) t1 t2 (x : Z) :
  wf s ts -> ts !! b1 = Some t1 -> ts !! b2 = Some t2 -> b1 <> b2 ->
  x ∈ nodes t1 -> x ∉ nodes t2.
Proof.
  intros Hwf H1 H2 Hne Hx1 Hx2.
  pose proof (br_top _ _ _ (wf_branch _ _ Hwf _ _ H1)) as Ht1.
  pose proof (br_top _ _ _ (wf_branch _ _ Hwf _ _ H2)) as Ht2.
  rewrite Forall_forall in Ht1, Ht2.
  destruct (Ht1 x Hx1) as [E1 _], (Ht2 x Hx2) as [E2 _]. lia.
Qed.

Lemma wf_attached_nodup s ts : wf s ts -> NoDup (attached ts).
Proof. intros Hwf. exact (NoDup_fmap_1 _ _ (wf_distinct _ _ Hwf)). Qed.

Lemma wf_branch_nodup s ts (b : nat) t : wf s ts -> ts !! b = Some t -> NoDup (nodes t).
Proof.
  intros Hwf Hb. pose proof (wf_attached_nodup s ts Hwf) as Hnd.
  unfold attached in Hnd. clear Hwf. revert b Hb Hnd.
  induction ts as [|u ts IH]; intros b Hb Hnd; [discriminate|].
  cbn in Hnd. apply NoDup_app in Hnd as (Hu & _ & Hts).
  destruct b as [|b]; cbn in Hb; [congruence|eauto].
Qed.

End wf_facts.

Section insert_on_wf.
Context {TP : TrieParams}.

Lemma branch_ok_frame s s' b t :
  branch_ok s b t ->
  head_accessors.child b (st_head s') = head_accessors.child b (st_head s) ->
  (forall q : Z, q ∈ nodes t -> st_items s' !! q = st_items s !! q) ->
  branch_ok s' b t.
Proof.
  intros [Hslot Hshape Hkeys Htop] Hhd Hsame.
  assert (Hkey : forall q : Z, q ∈ nodes t -> key_at s' q = key_at s q).
  { intros q Hq. unfold key_at. rewrite (Hsame q Hq). reflexivity. }
  split.
  - rewrite Hhd. exact Hslot.
  - apply (shape_frame (st_items s)); assumption.
  - apply (keys_ok_ext (key_at s)); assumption.
  - rewrite Forall_forall in *. intros x Hx. rewrite (Hkey x Hx). auto.
Qed.

Lemma reset_fields (r : Z) (v : item) :
  item_accessors.set_sibling true r
    (item_accessors.set_sibling false r
       (item_accessors.set_child true nullptr
          (item_accessors.set_child false nullptr
             (item_accessors.set_parent nullptr v)))) = reset_item r (trie_key v).
Proof. reflexivity. Qed.

Lemma shiftl_1_mod (b : Z) : 0 <= b < key_type_bits ->
  Z.shiftl 1 b mod 2 ^ key_type_bits = 2 ^ b.
Proof.
  intros Hb. rewrite Z.shiftl_1_l. apply Z.mod_small.
  split; [apply Z.pow_nonneg; lia|]. apply Z.pow_lt_mono_r; lia.
Qed.

Lemma trieinsert_spec s ts r v fuel :
  wf s ts ->
  r <> nullptr -> r mod 4 = 0 ->
  st_items s !! r = Some v -> 0 <= trie_key v < 2 ^ key_type_bits ->
  r ∉ attached ts ->
  trie_count (st_head s) < head_accessors.max_size ->
  Forall (fun t => (height t <= fuel)%nat) ts ->
  exists s' ts',
    _trieinsert fuel r s = Some (true, s') /\
    insert_post r (trie_key v) s ts s' ts'.
Proof.
  intros Hwf Hr0 Hral Hv Hkv Hfresh Hroom Hfuel.
  pose proof (wf_bits _ _ Hwf) as HB.
  pose proof (wf_size _ _ Hwf) as Hsize.
  assert (Hib : 0 <= index_type_bits).
  { destruct (Z.le_gt_cases 0 index_type_bits) as [|Hneg]; [assumption|].
    unfold head_accessors.max_size in Hsize.
    rewrite (Z.pow_neg_r 2 _ Hneg) in Hsize. lia. }
  assert (Hwrap : size_would_wrap (head_accessors.size (st_head s)) = false).
  { apply size_would_wrap_false; [exact Hib|]. unfold head_accessors.size. lia. }
  assert (Hincr : (trie_count (st_head s) + 1) mod 2 ^ index_type_bits
                  = trie_count (st_head s) + 1).
  { apply Z.mod_small. unfold head_accessors.max_size in Hroom. lia. }
  set (rkey := trie_key v) in *.
  pose proof (bitscanr_lt rkey key_type_bits (proj1 HB) Hkv) as Hb.
  set (b := bitscanr rkey) in *.
  destruct (wf_lookup_branch s ts b Hwf Hb) as (t & Ht & Hbr).
  assert (Hrt : r ∉ nodes t).
  { intros Hin. apply Hfresh. apply elem_of_attached. eauto. }
  assert (Hlen : 0 <= b < Z.of_nat (length (trie_children (st_head s)))).
  { pose proof (wf_slots _ _ Hwf). lia. }
  destruct s as [this hd m]. cbn [st_items st_head st_this] in *.
  set (m1 := <[r := reset_item r rkey]> m).
  set (s1 := State this hd m1).
  assert (Hkey1 : forall q : Z, key_at s1 q = key_at (State this hd m) q).
  { intros q. unfold key_at. subst s1 m1. cbn [st_items].
    destruct (decide (q = r)) as [->|Hq].
    - rewrite lookup_insert_eq, Hv. reflexivity.
    - rewrite lookup_insert_ne by congruence. reflexivity. }
  unfold _trieinsert.
  erewrite bind_run by (apply hget_Some; split; reflexivity).
  cbn [st_this st_head st_items]. rewrite Hwrap.
  run_get. run_set. run_set. run_set. run_set. run_set.
  rewrite !insert_insert_eq, reset_fields. fold rkey m1.
  unfold item_accessors.key at 1 2. cbv zeta. fold rkey b.
  erewrite bind_run by (apply hchild_Some; split; [apply (br_slot _ _ _ Hbr)|reflexivity]).
  change (item_accessors.key v) with rkey. fold b.
  rewrite (shiftl_1_mod b Hb).
  assert (Hper : forall t' : tree, nodes t' ≡ₚ r :: nodes t ->
            (forall y : Z, y ∈ nodes t -> key_at (State this hd m) y <> rkey) ->
            forall s' : state,
              (forall q : Z, key_at s' q = key_at (State this hd m) q) ->
              NoDup (key_at s' <$> attached (<[Z.to_nat b := t']> ts)) /\
              (forall y : Z, y ∈ attached ts -> key_at (State this hd m) y <> rkey) /\
              attached (<[Z.to_nat b := t']> ts) ≡ₚ r :: attached ts).
  { intros t' Hperm Hnone s' Hkeys.
    assert (Hall : forall y : Z, y ∈ attached ts -> key_at (State this hd m) y <> rkey).
    { intros y Hy Hyk. destruct (attached_top _ ts y Hwf Hy) as (u & Hu & Hyu & _).
      rewrite Hyk in Hu. fold b in Hu. rewrite Ht in Hu. injection Hu as <-.
      exact (Hnone y Hyu Hyk). }
    pose proof (attached_insert_perm ts _ t t' r Ht Hperm) as Hatt.
    split; [|split; [exact Hall|exact Hatt]].
    rewrite Hatt. cbn [fmap list_fmap]. rewrite Hkeys.
    replace (key_at (State this hd m) r) with rkey
      by (symmetry; apply (key_at_lookup (State this hd m)); exact Hv).
    apply NoDup_cons. split.
    - intros Hin. apply list_elem_of_fmap in Hin as (y & Hyk & Hy).
      rewrite Hkeys in Hyk. exact (Hall y Hy (eq_sym Hyk)).
    - erewrite list_fmap_ext; [apply (wf_distinct _ _ Hwf)|].
      intros i y _. apply Hkeys. }
  destruct t as [|p t0 t1].
  - (* the head slot is free *)
    cbn [root]. change (nullptr =? nullptr) with true. cbv iota.
    subst s1 m1. run_set. rewrite insert_insert_eq.
    unfold bind at 1, hset_child. cbn [st_head st_this st_items].
    rewrite (head_set_child_Some _ _ _ Hlen).
    unfold bind at 1, hset, ret. cbn [st_head st_this st_items].
    eexists. exists (<[Z.to_nat b := Node r Leaf Leaf]> ts).
    split; [reflexivity|].
    set (s' := State _ (head_accessors.incr_size _) _).
    assert (Hkeys : forall q : Z, trie_key <$> (st_items s' !! q) = trie_key <$> (m !! q)).
    { intros q. subst s'. cbn [st_items].
      destruct (decide (q = r)) as [->|Hq].
      - rewrite lookup_insert_eq, Hv. reflexivity.
      - rewrite lookup_insert_ne by congruence. reflexivity. }
    pose proof (key_at_ext (State this hd m) s' Hkeys) as Hkat.
    destruct (Hper (Node r Leaf Leaf) ltac:(reflexivity) ltac:(intros y Hy; inversion Hy)
                s' Hkat) as (Hnd & Hall & Hatt).
    split.
    + (* well-formed *)
      split.
      * exact HB.
      * subst s'. cbn. rewrite length_insert. exact (wf_slots _ _ Hwf).
      * rewrite length_insert. exact (wf_count _ _ Hwf).
      * intros b' t' Hb'.
        destruct (decide (b' = Z.to_nat b)) as [->|Hne].
        -- rewrite list_lookup_insert_eq in Hb' by (pose proof (wf_count _ _ Hwf); lia).
           injection Hb' as <-. rewrite Z2Nat.id by lia.
           split.
           ++ subst s'. cbn [st_head].
              change (head_accessors.child b (head_accessors.incr_size ?h))
                with (head_accessors.child b h).
              rewrite head_child_insert by exact Hlen. rewrite Z.eqb_refl. reflexivity.
           ++ subst s'. cbn [st_items shape root].
              split; [exact Hr0|]. split; [exact Hral|]. split; [|split; exact I].
              eexists. split; [apply lookup_insert_eq|]. cbn. auto.
           ++ cbn. repeat split; constructor.
           ++ cbn [nodes app]. constructor; [|constructor].
              rewrite Hkat, (key_at_lookup (State this hd m) r v Hv). fold rkey. fold b. auto.
        -- rewrite list_lookup_insert_ne in Hb' by congruence.
           apply (branch_ok_frame (State this hd m)).
           ++ exact (wf_branch _ _ Hwf _ _ Hb').
           ++ subst s'. cbn [st_head].
              change (head_accessors.child (Z.of_nat b') (head_accessors.incr_size ?h))
                with (head_accessors.child (Z.of_nat b') h).
              rewrite head_child_insert by exact Hlen.
              destruct (Z.eqb_spec (Z.of_nat b') b); [lia|reflexivity].
           ++ intros q Hq. subst s'. cbn [st_items].
              apply lookup_insert_ne. intros <-. apply Hfresh.
              apply elem_of_attached. eauto.
      * exact Hnd.
      * rewrite (Permutation_length Hatt). subst s'. cbn [st_head length].
        unfold head_accessors.incr_size; cbn [trie_count]. rewrite Hincr. lia.
    + reflexivity.
    + reflexivity.
    + reflexivity.
    + subst s'. cbn. apply length_insert.
    + exact Hkeys.
    + exists None. split; [split; assumption|].
      intros q. subst s'. cbn [st_items]. unfold rings_after_insert.
      destruct (decide (q = r)) as [->|Hq].
      * rewrite lookup_insert_eq. reflexivity.
      * rewrite lookup_insert_ne by congruence. reflexivity.
  - (* the head slot is occupied: walk the branch *)
    set (t := Node p t0 t1) in *.
    assert (Hnz : (root t =? nullptr) = false).
    { apply (shape_root_nonnull _ _ _ _ _ (br_shape _ _ _ Hbr)). }
    rewrite Hnz.
    pose proof (br_keys _ _ _ Hbr) as Hkeys0. rewrite (shiftl_1_mod b Hb) in Hkeys0.
    rewrite Forall_forall in Hfuel.
    destruct (insert_walk_spec r rkey Hr0 Hral t (index_tag b) (2 ^ b) fuel s1)
      as (s2 & Hrun & Hpost).
    { apply (shape_frame m); [|exact (br_shape _ _ _ Hbr)].
      intros q Hq. subst s1 m1. cbn [st_items]. apply lookup_insert_ne. congruence. }
    { apply (keys_ok_ext (key_at (State this hd m))); [|exact Hkeys0]. auto. }
    { done. }
    { apply Hfuel. eapply list_elem_of_lookup_2. exact Ht. }
    { exact (wf_branch_nodup _ _ _ _ Hwf Ht). }
    { exact Hrt. }
    { subst s1 m1. cbn [st_items]. apply lookup_insert_eq. }
    fold s1. rewrite (bind_run _ _ _ _ _ Hrun).
    unfold bind at 1, hset, ret.
    destruct Hpost as (Hhd & Hth & Hframe & Hkeys & Hshape & Hcase).
    rewrite (tinsert_ext (key_at (State this hd m)) (key_at s1)) in Hshape by auto.
    set (t' := tinsert (key_at (State this hd m)) r rkey (2 ^ b) t) in *.
    set (s' := State _ (head_accessors.incr_size _) _).
    assert (Hkeys' : forall q : Z, trie_key <$> (st_items s' !! q) = trie_key <$> (m !! q)).
    { intros q. subst s'. cbn [st_items]. rewrite Hkeys. subst s1 m1. cbn [st_items].
      destruct (decide (q = r)) as [->|Hq].
      - rewrite lookup_insert_eq, Hv. reflexivity.
      - rewrite lookup_insert_ne by congruence. reflexivity. }
    pose proof (key_at_ext (State this hd m) s' Hkeys') as Hkat.
    assert (Hchild : forall i : Z, head_accessors.child i (st_head s') = head_accessors.child i hd).
    { intros i. subst s'. cbn [st_head]. rewrite Hhd. reflexivity. }
    assert (Hbr' : branch_ok s' b t').
    { split.
      - rewrite Hchild. subst t'. unfold t. rewrite tinsert_root.
        exact (br_slot _ _ _ Hbr).
      - exact Hshape.
      - rewrite (shiftl_1_mod b Hb).
        apply (keys_ok_ext (key_at (State this hd m))); [auto|].
        apply tinsert_keys_ok; [apply (key_at_lookup (State this hd m)); exact Hv|exact Hkeys0].
      - rewrite Forall_forall. intros x Hx. rewrite Hkat.
        destruct (tinsert_nodes _ _ _ _ _ _ Hx) as [->|Hx'].
        + rewrite (key_at_lookup (State this hd m) r v Hv). fold rkey b. auto.
        + pose proof (br_top _ _ _ Hbr) as Htop. rewrite Forall_forall in Htop. auto. }
    assert (Hothers : forall (b' : nat) (u : tree),
               b' <> Z.to_nat b -> ts !! b' = Some u -> branch_ok s' (Z.of_nat b') u).
    { intros b' u Hne Hu.
      apply (branch_ok_frame (State this hd m)).
      - exact (wf_branch _ _ Hwf _ _ Hu).
      - apply Hchild.
      - intros q Hq. subst s'. cbn [st_items].
        assert (Hqr : q <> r).
        { intros ->. apply Hfresh. apply elem_of_attached. eauto. }
        rewrite Hframe; [subst s1 m1; cbn [st_items]; apply lookup_insert_ne; congruence
                        |exact Hqr|].
        exact (wf_branches_disjoint _ _ _ _ _ _ _ Hwf Hu Ht Hne Hq). }
    assert (Hwf' : NoDup (key_at s' <$> attached (<[Z.to_nat b := t']> ts)) ->
                   (length (attached (<[Z.to_nat b := t']> ts))
                    <= S (length (attached ts)))%nat ->
                   wf s' (<[Z.to_nat b := t']> ts)).
    { intros Hnd Hlength. split.
      - exact HB.
      - subst s'. cbn [st_head]. rewrite Hhd. exact (wf_slots _ _ Hwf).
      - rewrite length_insert. exact (wf_count _ _ Hwf).
      - intros b' u Hb'.
        destruct (decide (b' = Z.to_nat b)) as [->|Hne].
        + rewrite list_lookup_insert_eq in Hb' by (pose proof (wf_count _ _ Hwf); lia).
          injection Hb' as <-. rewrite Z2Nat.id by lia. exact Hbr'.
        + rewrite list_lookup_insert_ne in Hb' by congruence. auto.
      - exact Hnd.
      - subst s'. cbn [st_head]. rewrite Hhd. subst s1. cbn [st_head].
        unfold head_accessors.incr_size; cbn [trie_count]. rewrite Hincr. lia. }
    eexists. exists (<[Z.to_nat b := t']> ts). split; [reflexivity|].
    fold s'.
    destruct Hcase as [[Hnone Hring]|(x & vx & Hx & Hvx & Hkx & Hst)].
    + (* no item with this key: a new leaf *)
      assert (Hn1 : forall y : Z, y ∈ nodes t -> key_at (State this hd m) y <> rkey).
      { intros y Hy. rewrite <- Hkey1. auto. }
      destruct (Hper t' (tinsert_new _ _ _ t (2 ^ b) Hn1) Hn1 s' Hkat) as (Hnd & Hall & Hatt).
      split; [apply (Hwf' Hnd); rewrite (Permutation_length Hatt); cbn; lia|exact Hth|subst s'; cbn; rewrite Hhd; reflexivity
             |subst s'; cbn; rewrite Hhd; reflexivity
             |subst s'; cbn; rewrite Hhd; reflexivity|exact Hkeys'|].
      exists None. split; [split; assumption|].
      intros q. subst s'. cbn [st_items]. rewrite Hring. subst s1 m1. cbn [st_items].
      unfold rings_after_insert.
      destruct (decide (q = r)) as [->|Hq].
      * rewrite lookup_insert_eq. reflexivity.
      * rewrite lookup_insert_ne by congruence. reflexivity.
    + (* an item with this key is attached: [r] joins its ring *)
      clear Hper.
      assert (Hxr : x <> r) by (intros ->; exact (Hrt Hx)).
      assert (Hvx' : m !! x = Some vx).
      { subst s1 m1. cbn [st_items] in Hvx. rewrite lookup_insert_ne in Hvx by congruence.
        exact Hvx. }
      assert (Hxk : key_at (State this hd m) x = rkey).
      { rewrite (key_at_lookup (State this hd m) x vx Hvx'). exact Hkx. }
      assert (Hsame : t' = t).
      { subst t'. apply tinsert_found; [exact Hkeys0|eauto]. }
      rewrite Hsame, list_insert_id by exact Ht.
      rewrite Hsame, list_insert_id in Hwf' by exact Ht.
      split; [|exact Hth|subst s'; cbn; rewrite Hhd; reflexivity
             |subst s'; cbn; rewrite Hhd; reflexivity
             |subst s'; cbn; rewrite Hhd; reflexivity|exact Hkeys'|].
      * apply Hwf'; [|lia]. erewrite list_fmap_ext; [apply (wf_distinct _ _ Hwf)|].
        intros i y _. apply Hkat.
      * exists (Some x). split.
        { split; [apply elem_of_attached; eauto|]. split; [exact Hxk|reflexivity]. }
        intros q. subst s'. cbn [st_items]. rewrite Hst. subst s1 m1. cbn [st_items].
        unfold rings_after_insert. rewrite Hvx'.
        destruct (decide (q = x)) as [->|Hqx].
        { rewrite lookup_insert_eq. reflexivity. }
        rewrite lookup_insert_ne by congruence.
        destruct (decide (q = r)) as [->|Hq].
        { rewrite lookup_insert_eq. reflexivity. }
        rewrite !lookup_insert_ne by congruence. reflexivity.
Qed.

End insert_on_wf.

(** * Forward traversal of well-formed indices *)

Lemma index_tag_eq (b : Z) : 0 <= b < 2 ^ 30 -> index_tag b = 4 * b + 3.
Proof. apply tag_value. Qed.

Lemma index_tag_nonnull (b : Z) : 0 <= b < 2 ^ 30 -> index_tag b <> nullptr.
Proof. intros Hb. rewrite index_tag_eq by exact Hb. unfold nullptr. lia. Qed.

Lemma parent_index_tag (v : item) (b : Z) :
  0 <= b < 2 ^ 30 -> trie_parent v = index_tag b ->
  item_accessors.parent_is_index v = true /\ item_accessors.bit_index v = b.
Proof.
  intros Hb Hpar. split.
  - rewrite <- (tag_is_index b v Hb). unfold item_accessors.parent_is_index.
    rewrite Hpar. reflexivity.
  - pose proof (tag_bit_index b v Hb) as E. unfold item_accessors.bit_index in *.
    rewrite Hpar. exact E.
Qed.

Lemma parent_aligned (v : item) (p : Z) :
  p mod 4 = 0 -> trie_parent v = p -> item_accessors.parent_is_index v = false.
Proof.
  intros Hal Hpar. unfold item_accessors.parent_is_index.
  rewrite Hpar, land_3_mod, Hal. reflexivity.
Qed.

Section traversal.
Context {TP : TrieParams}.

Lemma to_primary_here fuel (q : Z) (v : item) s :
  q <> nullptr -> st_items s !! q = Some v -> trie_parent v <> nullptr ->
  to_primary (S fuel) q s = Some (q, s).
Proof.
  intros Hq Hv Hpar. cbn [to_primary].
  erewrite bind_run by (apply get_run; eassumption).
  unfold item_accessors.is_primary_sibling.
  rewrite (proj2 (Z.eqb_neq _ _) Hpar). reflexivity.
Qed.

(** One step of the climb from a child: on to the sibling branch under
    [child(1)] when the climb comes from [child(0)] and there is one,
    otherwise further up from the parent. *)
Lemma climb_from_child s (p : Z) (v : item) (q : Z) (w : item) fuel :
  p <> nullptr -> p mod 4 = 0 -> st_items s !! p = Some v ->
  q <> nullptr -> st_items s !! q = Some w -> trie_parent w = p ->
  trace_up_next (S fuel) q s =
    if (fst (trie_child v) =? q) && negb (snd (trie_child v) =? nullptr)
    then Some ((snd (trie_child v), nullptr), s)
    else trace_up_next fuel p s.
Proof.
  intros Hp Hal Hv Hq Hw Hpar. cbn [trace_up_next].
  erewrite bind_run by (apply get_run; eassumption).
  rewrite (parent_aligned w p Hal Hpar).
  erewrite bind_run by (apply get_run; eassumption).
  unfold item_accessors.parent. rewrite Hpar.
  erewrite bind_run by (apply get_run; eassumption).
  erewrite bind_run by (apply get_run; eassumption).
  unfold item_accessors.child. cbn [nth2].
  destruct ((fst (trie_child v) =? q) && negb (snd (trie_child v) =? nullptr)); reflexivity.
Qed.

Lemma branchnext_spec s (u : tree) :
  forall par n up,
    shape (st_items s) par u -> par <> nullptr -> NoDup (nodes u) ->
    (u <> Leaf -> climbs s n (root u) up) ->
    forall pre x rest, nodes u = pre ++ x :: rest ->
    forall fuel, (n + height u <= fuel)%nat ->
      _triebranchnext fuel x s = Some (step_after rest up, s).
Proof.
  induction u as [|p t0 IH0 t1 IH1];
    intros par n up Hsh Hpar Hnd Hup pre x rest Hsplit fuel Hfuel.
  { destruct pre; discriminate. }
  pose proof Hsh as Hshape.
  cbn [shape] in Hsh. destruct Hsh as (Hp & Hal & (v & Hv & Hvpar & Hch & Hsib) & Hs0 & Hs1).
  cbn [nodes] in Hnd, Hsplit. cbn [height] in Hfuel.
  apply NoDup_cons in Hnd as [Hpn Hnd]. apply NoDup_app in Hnd as (Hnd0 & Hdisj & Hnd1).
  rewrite not_elem_of_app in Hpn. destruct Hpn as [Hp0 Hp1].
  specialize (Hup ltac:(done)). cbn [root] in Hup.
  destruct pre as [|p' pre].
  - (* the root of the branch *)
    cbn in Hsplit. injection Hsplit as <- <-.
    destruct fuel as [|fuel]; [lia|].
    unfold _triebranchnext.
    erewrite bind_run by (apply get_run; eassumption).
    unfold item_accessors.sibling. cbn [nth2]. rewrite Hsib.
    rewrite (proj2 (Z.eqb_neq _ _) Hp). cbn [negb].
    erewrite bind_run;
      [|erewrite bind_run by (apply get_run; eassumption); reflexivity].
    unfold item_accessors.is_primary_sibling. rewrite Hvpar.
    rewrite (proj2 (Z.eqb_neq _ _) Hpar). cbn [negb].
    erewrite bind_run by (apply (to_primary_here fuel p v); [assumption..|congruence]).
    erewrite bind_run by (apply get_run; eassumption).
    erewrite bind_run by (apply get_run; eassumption).
    unfold item_accessors.child. cbn [nth2]. rewrite Hch. cbn [fst snd].
    destruct t0 as [|q0 a0 b0].
    + cbn [root nodes app]. change (nullptr =? nullptr) with true. cbn [negb].
      destruct t1 as [|q1 a1 b1].
      * cbn [root nodes]. change (nullptr =? nullptr) with true. cbn [negb step_after].
        apply Hup. lia.
      * pose proof (shape_root_nonnull _ _ _ _ _ Hs1) as Hq1.
        cbn [root nodes step_after]. rewrite Hq1. reflexivity.
    + pose proof (shape_root_nonnull _ _ _ _ _ Hs0) as Hq0.
      cbn [root nodes app step_after]. rewrite Hq0. cbn [negb]. rewrite Hq0. reflexivity.
  - cbn in Hsplit. injection Hsplit as <- Hsplit.
    assert (Hside : (exists rest0, nodes t0 = pre ++ x :: rest0 /\ rest = rest0 ++ nodes t1) \/
                    (exists pre1, nodes t1 = pre1 ++ x :: rest)).
    { apply app_eq_app in Hsplit as (l & [[H0 H1]|[H0 H1]]).
      - destruct l as [|y l]; cbn in H1.
        + right. exists []. symmetry. exact H1.
        + injection H1 as <- ->. left. eauto.
      - right. eauto. }
    destruct Hside as [(rest0 & Hin0 & ->)|(pre1 & Hin1)].
    + (* under child(0) *)
      destruct t0 as [|q0 a0 b0]; [destruct pre; discriminate|].
      pose proof Hs0 as Hs0'. cbn [shape] in Hs0'.
      destruct Hs0' as (Hq0 & _ & (w & Hw & Hwpar & _) & _).
      set (up0 := match t1 with Leaf => up | Node q1 _ _ => (q1, nullptr) end).
      assert (Hclimb : climbs s (S n) q0 up0).
      { intros f Hf. destruct f as [|f]; [lia|].
        rewrite (climb_from_child s p v q0 w f Hp Hal Hv Hq0 Hw Hwpar).
        rewrite Hch. cbn [fst snd root]. rewrite Z.eqb_refl. cbn [andb]. subst up0.
        destruct t1 as [|q1 a1 b1].
        - cbn [root]. change (nullptr =? nullptr) with true. cbn [negb]. apply Hup. lia.
        - cbn [root]. rewrite (shape_root_nonnull _ _ _ _ _ Hs1). reflexivity. }
      rewrite (IH0 p (S n) up0 Hs0 Hp Hnd0 (fun _ => Hclimb) pre x rest0 Hin0 fuel ltac:(lia)).
      do 2 f_equal. destruct rest0 as [|y rest0]; [|reflexivity].
      subst up0. destruct t1; reflexivity.
    + (* under child(1) *)
      destruct t1 as [|q1 a1 b1]; [destruct pre1; discriminate|].
      pose proof Hs1 as Hs1'. cbn [shape] in Hs1'.
      destruct Hs1' as (Hq1 & _ & (w & Hw & Hwpar & _) & _).
      assert (Hclimb : climbs s (S n) q1 up).
      { intros f Hf. destruct f as [|f]; [lia|].
        rewrite (climb_from_child s p v q1 w f Hp Hal Hv Hq1 Hw Hwpar).
        rewrite Hch. cbn [fst snd root].
        assert (Hne : (root t0 =? q1) = false).
        { apply Z.eqb_neq. destruct t0 as [|q0 a0 b0]; [exact (not_eq_sym Hq1)|].
          cbn [root]. intros ->. apply (Hdisj q1); cbn; apply elem_of_cons; auto. }
        rewrite Hne. cbn [andb]. apply Hup. lia. }
      exact (IH1 p (S n) up Hs1 Hp Hnd1 (fun _ => Hclimb) pre1 x rest Hin1 fuel ltac:(lia)).
Qed.

Lemma concat_split {A} (ls : list (list A)) : forall pre x rest,
  concat ls = pre ++ x :: rest ->
  exists (i : nat) (l pre_i rest_i : list A),
    ls !! i = Some l /\ l = pre_i ++ x :: rest_i /\
    pre = concat (take i ls) ++ pre_i /\
    rest = rest_i ++ concat (drop (S i) ls).
Proof.
  induction ls as [|l ls IH]; intros pre x rest Hsplit.
  { destruct pre; discriminate. }
  cbn in Hsplit. apply app_eq_app in Hsplit as (k & [[H0 H1]|[H0 H1]]).
  - destruct k as [|y k]; cbn in H1.
    + destruct (IH [] x rest (eq_sym H1)) as (i & l' & pre_i & rest_i & Hi & Hl & Hpre & Hrest).
      exists (S i), l', pre_i, rest_i. cbn. rewrite app_nil_r in H0. subst l.
      rewrite <- app_assoc, <- Hpre, app_nil_r. auto.
    + injection H1 as <- ->. exists 0%nat, l, pre, k. cbn. rewrite drop_0. auto.
  - destruct (IH k x rest H1) as (i & l' & pre_i & rest_i & Hi & Hl & Hpre & Hrest).
    exists (S i), l', pre_i, rest_i. cbn. rewrite H0, Hpre, <- app_assoc. auto.
Qed.

Lemma scan_up_spec s ts (n : nat) : forall bitidx,
  wf s ts -> 0 <= bitidx -> bitidx + Z.of_nat n = key_type_bits ->
  exists b', scan_up n bitidx s =
               Some ((b', hd nullptr (concat (nodes <$> drop (Z.to_nat bitidx) ts))), s) /\
             (key_type_bits <= b' ->
              hd nullptr (concat (nodes <$> drop (Z.to_nat bitidx) ts)) = nullptr).
Proof.
  induction n as [|n IH]; intros bitidx Hwf Hb Hn.
  - exists bitidx. rewrite drop_ge by (pose proof (wf_count _ _ Hwf); lia).
    split; reflexivity.
  - destruct (wf_lookup_branch s ts bitidx Hwf ltac:(lia)) as (t & Ht & Hbr).
    cbn [scan_up].
    erewrite bind_run by (apply hchild_Some; split; [apply (br_slot _ _ _ Hbr)|reflexivity]).
    rewrite (drop_S _ _ _ Ht). cbn [fmap list_fmap concat].
    destruct t as [|q t0 t1].
    + cbn [root nodes app]. change (nullptr =? nullptr) with true. cbv iota.
      destruct (IH (bitidx + 1) Hwf ltac:(lia) ltac:(lia)) as (b' & Hrun & Hnull).
      replace (Z.to_nat (bitidx + 1)) with (S (Z.to_nat bitidx)) in * by lia.
      exists b'. split; assumption.
    + cbn [root nodes app hd].
      rewrite (shape_root_nonnull _ _ _ _ _ (br_shape _ _ _ Hbr)).
      exists bitidx. split; [reflexivity|lia].
Qed.

Lemma trienext_spec s ts pre x rest fuel :
  wf s ts -> attached ts = pre ++ x :: rest ->
  Forall (fun t => (height t < fuel)%nat) ts ->
  _trienext fuel x s = Some (hd nullptr rest, s).
Proof.
  intros Hwf Hsplit Hfuel. pose proof (wf_bits _ _ Hwf) as HB.
  unfold attached in Hsplit.
  apply concat_split in Hsplit as (i & l & pre_i & rest_i & Hi & Hl & Hpre & ->).
  apply list_lookup_fmap_Some in Hi as (t & -> & Ht).
  rewrite <- fmap_drop.
  assert (Hilt : (i < length ts)%nat) by (eapply lookup_lt_Some; exact Ht).
  pose proof (wf_count _ _ Hwf) as Hcnt.
  pose proof (wf_branch _ _ Hwf _ _ Ht) as Hbr.
  pose proof (br_shape _ _ _ Hbr) as Hsh.
  assert (Hx : x ∈ nodes t) by (rewrite Hl; apply elem_of_app; right; apply elem_of_cons; auto).
  destruct (shape_allocated _ _ _ x Hsh Hx) as (Hx0 & _ & (vx & Hvx)).
  assert (Hfuel_t : (height t < fuel)%nat).
  { rewrite Forall_forall in Hfuel. apply Hfuel. eapply list_elem_of_lookup_2. exact Ht. }
  assert (Htag : 0 <= Z.of_nat i < 2 ^ 30) by lia.
  destruct t as [|q t0 t1]; [inversion Hx|].
  pose proof Hsh as Hsh'. cbn [shape] in Hsh'.
  destruct Hsh' as (Hq & _ & (v & Hv & Hvpar & _) & _).
  destruct (parent_index_tag v _ Htag Hvpar) as [Hidx Hbit].
  assert (Hclimb : climbs s 1 q (nullptr, q)).
  { intros f Hf. destruct f as [|f]; [lia|]. cbn [trace_up_next].
    erewrite bind_run by (apply get_run; eassumption). rewrite Hidx. reflexivity. }
  unfold _trienext.
  erewrite bind_run by (apply get_run; eassumption).
  erewrite bind_run by
    (apply (branchnext_spec s (Node q t0 t1) (index_tag (Z.of_nat i)) 1 (nullptr, q) Hsh
              (index_tag_nonnull _ Htag) (wf_branch_nodup _ _ _ _ Hwf Ht)
              (fun _ => Hclimb) pre_i x rest_i Hl fuel); lia).
  destruct rest_i as [|y rest_i]; cbn [step_after fst snd app hd].
  - change (nullptr =? nullptr) with true. cbn [negb].
    erewrite bind_run by (apply get_run; eassumption). rewrite Hbit.
    destruct (scan_up_spec s ts (Z.to_nat (key_type_bits - (Z.of_nat i + 1)))
                (Z.of_nat i + 1) Hwf ltac:(lia) ltac:(lia)) as (b' & Hrun & Hnull).
    replace (Z.to_nat (Z.of_nat i + 1)) with (S i) in * by lia.
    rewrite (bind_run _ _ _ _ _ Hrun). cbn [fst snd].
    destruct (Z.leb_spec key_type_bits b') as [Hge|_]; [|reflexivity].
    rewrite (Hnull Hge). reflexivity.
  - assert (Hy : y ∈ nodes (Node q t0 t1)).
    { rewrite Hl. apply elem_of_app. right. apply elem_of_cons. right.
      apply elem_of_cons. auto. }
    destruct (shape_allocated _ _ _ y Hsh Hy) as (Hy0 & _).
    rewrite (proj2 (Z.eqb_neq _ _) Hy0). reflexivity.
Qed.

Lemma attached_nonnull s ts (x : Z) : wf s ts -> x ∈ attached ts -> x <> nullptr.
Proof.
  intros Hwf Hx. apply elem_of_attached in Hx as (b & t & Hb & Hx).
  exact (proj1 (shape_allocated _ _ _ x (br_shape _ _ _ (wf_branch _ _ Hwf _ _ Hb)) Hx)).
Qed.

Lemma triemin_spec s ts :
  wf s ts -> _triemin s = Some (hd nullptr (attached ts), s).
Proof.
  intros Hwf. pose proof (wf_bits _ _ Hwf) as HB. unfold _triemin.
  erewrite bind_run by (apply hget_Some; split; reflexivity).
  unfold head_accessors.size.
  destruct (Z.eqb_spec (trie_count (st_head s)) 0) as [Hz|Hnz].
  - pose proof (wf_size _ _ Hwf) as Hsz. rewrite Hz in Hsz.
    destruct (attached ts); [reflexivity|cbn in Hsz; lia].
  - destruct (scan_up_spec s ts (Z.to_nat key_type_bits) 0 Hwf ltac:(lia) ltac:(lia))
      as (b' & Hrun & _).
    rewrite (bind_run _ _ _ _ _ Hrun). reflexivity.
Qed.

Lemma inc_run fuel (x y : Z) s :
  st_this s <> nullptr -> x <> nullptr ->
  _trienext fuel x s = Some (y, s) ->
  _inc fuel (Iterator (st_this s) x) s = Some (Iterator (st_this s) y, s).
Proof.
  intros Hthis Hx Hnext. unfold _inc. cbn [_parent _p].
  rewrite (proj2 (Z.eqb_neq _ _) Hx), (proj2 (Z.eqb_neq _ _) Hthis). cbn [negb andb].
  erewrite bind_run by (apply this_Some; split; reflexivity).
  rewrite Z.eqb_refl. rewrite (bind_run _ _ _ _ _ Hnext). reflexivity.
Qed.

Lemma iterate_spec s ts fuel :
  wf s ts -> st_this s <> nullptr ->
  Forall (fun t => (height t < fuel)%nat) ts ->
  forall rest pre (n : nat),
    attached ts = pre ++ rest -> (length rest < n)%nat ->
    iterate fuel n (Iterator (st_this s) (hd nullptr rest)) s = Some (rest, s).
Proof.
  intros Hwf Hthis Hfuel rest.
  induction rest as [|x rest IH]; intros pre n Hsplit Hn.
  - destruct n as [|n]; [cbn in Hn; lia|]. reflexivity.
  - destruct n as [|n]; [cbn in Hn; lia|]. cbn [iterate hd _p].
    assert (Hx : x <> nullptr).
    { apply (attached_nonnull s ts x Hwf). rewrite Hsplit.
      apply elem_of_app. right. apply elem_of_cons. auto. }
    rewrite (proj2 (Z.eqb_neq _ _) Hx).
    erewrite bind_run by
      (apply inc_run; [exact Hthis|exact Hx
                      |apply (trienext_spec s ts pre x rest fuel Hwf Hsplit Hfuel)]).
    erewrite bind_run by (apply (IH (pre ++ [x]) n);
                          [rewrite <- app_assoc; exact Hsplit|cbn in Hn; lia]).
    reflexivity.
Qed.

(** On a well-formed index the forward traversal visits exactly the
    attached items: branch by branch in head-slot order, each branch
    root first, then the items under [child(0)], then those under
    [child(1)]. *)
Lemma traversal_spec s ts fuel :
  wf s ts -> st_this s <> nullptr ->
  Forall (fun t => (height t < fuel)%nat) ts ->
  (length (attached ts) < fuel)%nat ->
  traversal fuel s = Some (attached ts, s).
Proof.
  intros Hwf Hthis Hfuel Hlen. unfold traversal, begin_.
  erewrite bind_run;
    [|erewrite bind_run by (apply this_Some; split; reflexivity);
      rewrite (bind_run _ _ _ _ _ (triemin_spec s ts Hwf)); reflexivity].
  exact (iterate_spec s ts fuel Hwf Hthis Hfuel (attached ts) [] fuel eq_refl Hlen).
Qed.

End traversal.

(** * Key order along the traversal *)

Lemma dirbit_zero (k : Z) : dirbit k 0 = false.
Proof. unfold dirbit. rewrite Z.land_0_r. reflexivity. Qed.

Lemma dirbit_testbit (k i : Z) : 0 <= i -> dirbit k (2 ^ i) = Z.testbit k i.
Proof.
  intros Hi. unfold dirbit. destruct (Z.testbit k i) eqn:Hb.
  - apply negb_true_iff, Z.eqb_neq. intros Hz.
    assert (Ht : Z.testbit (Z.land k (2 ^ i)) i = true).
    { rewrite Z.land_spec, Hb, Z.pow2_bits_true by lia. reflexivity. }
    rewrite Hz, Z.bits_0 in Ht. discriminate.
  - apply negb_false_iff, Z.eqb_eq. apply Z.bits_inj'. intros n Hn.
    rewrite Z.land_spec, Z.bits_0, Z.pow2_bits_eqb by lia.
    destruct (Z.eqb_spec i n) as [<-|]; [rewrite Hb; reflexivity|apply andb_false_r].
Qed.

Lemma div_pow2_step (k i : Z) : 0 <= i ->
  k / 2 ^ i = 2 * (k / 2 ^ (i + 1)) + Z.b2z (Z.testbit k i).
Proof.
  intros Hi. rewrite (Z.testbit_spec' k i Hi).
  rewrite Z.pow_add_r, <- Z.div_div by lia.
  change (2 ^ 1) with 2. apply Z.div_mod. lia.
Qed.

Lemma bitscanr_nonneg (k : Z) : 0 <= bitscanr k.
Proof. unfold bitscanr. destruct (k =? 0); [lia|apply Z.log2_nonneg]. Qed.

Lemma bitscanr_lt_keys (a c : Z) : bitscanr a < bitscanr c -> a < c.
Proof.
  intros Hlt. destruct (Z.lt_ge_cases a c) as [|Hge]; [assumption|exfalso].
  unfold bitscanr in Hlt.
  destruct (Z.eqb_spec c 0) as [Hc|Hc], (Z.eqb_spec a 0) as [Ha|Ha]; try lia.
  - pose proof (Z.log2_nonneg a). lia.
  - rewrite (Z.log2_nonpos c) in Hlt by lia. lia.
  - pose proof (Z.log2_le_mono c a Hge). lia.
Qed.

Lemma shiftr_pow2 (j : Z) : 0 < j -> Z.shiftr (2 ^ j) 1 = 2 ^ (j - 1).
Proof.
  intros Hj. rewrite Z.shiftr_div_pow2 by lia. change (2 ^ 1) with 2.
  replace j with (j - 1 + 1) at 1 by lia. rewrite Z.pow_add_r by lia.
  change (2 ^ 1) with 2. apply Z.div_mul. lia.
Qed.

Lemma nodes_nil (t : tree) : nodes t = [] -> t = Leaf.
Proof. destruct t; [reflexivity|discriminate]. Qed.

Lemma Forall_false_nil {A} (l : list A) : Forall (fun _ => false = true) l -> l = [].
Proof. destruct l; [reflexivity|]. intros H. inversion H. discriminate. Qed.

(** Once the mask has run out nothing hangs under [child(1)]. *)
Lemma ordered_exhausted (key : Z -> Z) (t : tree) :
  keys_ok key 0 t -> ordered key t.
Proof.
  induction t as [|p t0 IH0 t1 IH1]; intros Hk; [exact I|].
  cbn [keys_ok] in Hk. change (Z.shiftr 0 1) with 0 in Hk.
  destruct Hk as (_ & Hk1 & Hko0 & Hko1).
  assert (Hnil : nodes t1 = []).
  { apply Forall_false_nil. eapply Forall_impl; [exact Hk1|].
    intros x Hx. cbn in Hx. rewrite dirbit_zero in Hx. exact Hx. }
  cbn [ordered]. split; [|split; [apply IH0; exact Hko0|apply IH1; exact Hko1]].
  intros x y _ Hy. rewrite Hnil in Hy. inversion Hy.
Qed.

Lemma ordered_bit0 (key : Z -> Z) (t : tree) :
  keys_ok key (2 ^ 0) t -> ordered key t.
Proof.
  intros Hk. apply ordered_exhausted. destruct t as [|p t0 t1]; [exact I|].
  cbn [keys_ok] in *. change (Z.shiftr (2 ^ 0) 1) with 0 in Hk.
  change (Z.shiftr 0 1) with 0. exact Hk.
Qed.

Lemma ordered_prefix (key : Z -> Z) (t : tree) : forall j,
  0 <= j ->
  keys_ok key (2 ^ j) t ->
  (forall x y : Z, x ∈ nodes t -> y ∈ nodes t -> key x / 2 ^ j = key y / 2 ^ j) ->
  ordered key t.
Proof.
  induction t as [|p t0 IH0 t1 IH1]; intros j Hj Hk Hpre; [exact I|].
  cbn [keys_ok] in Hk. destruct Hk as (Hk0 & Hk1 & Hko0 & Hko1).
  destruct (Z.eq_dec j 0) as [->|Hj0].
  { apply ordered_bit0. cbn [keys_ok]. auto. }
  rewrite shiftr_pow2 in * by lia.
  rewrite Forall_forall in Hk0, Hk1.
  assert (Hdiv : forall (c : bool) (x : Z),
             x ∈ nodes (if c then t1 else t0) ->
             key x / 2 ^ (j - 1) = 2 * (key p / 2 ^ j) + Z.b2z c).
  { intros c x Hx. rewrite (div_pow2_step (key x) (j - 1)) by lia.
    replace (j - 1 + 1) with j by lia.
    rewrite <- dirbit_testbit by lia.
    rewrite (Hpre x p).
    - destruct c; [rewrite (Hk1 x Hx)|rewrite (Hk0 x Hx)]; reflexivity.
    - cbn. apply elem_of_cons. right. apply elem_of_app. destruct c; auto.
    - cbn. apply elem_of_cons. auto. }
  cbn [ordered]. split; [|split].
  - intros x y Hx Hy.
    pose proof (Hdiv false x Hx) as Ex. pose proof (Hdiv true y Hy) as Ey.
    cbn [Z.b2z] in Ex, Ey.
    destruct (Z.lt_ge_cases (key x) (key y)) as [|Hge]; [assumption|exfalso].
    pose proof (Z.div_le_mono (key y) (key x) (2 ^ (j - 1)) ltac:(lia) Hge). lia.
  - apply (IH0 (j - 1)); [lia|exact Hko0|].
    intros x y Hx Hy. rewrite (Hdiv false x Hx), (Hdiv false y Hy). reflexivity.
  - apply (IH1 (j - 1)); [lia|exact Hko1|].
    intros x y Hx Hy. rewrite (Hdiv true x Hx), (Hdiv true y Hy). reflexivity.
Qed.

Lemma below_nodes (t : tree) (x y : Z) : below t x y -> x ∈ nodes t /\ y ∈ nodes t.
Proof.
  induction t as [|p t0 IH0 t1 IH1]; cbn [below nodes]; [intros []|].
  rewrite !elem_of_cons, !elem_of_app.
  intros [[-> Hy]|[H|H]].
  - split; [left; reflexivity|right; exact Hy].
  - destruct (IH0 H). tauto.
  - destruct (IH1 H). tauto.
Qed.

(** In the walk of one branch an item comes before a smaller key only
    when that key lies below it. *)
Lemma preorder_order (key : Z -> Z) (t : tree) :
  ordered key t ->
  forall (i j : nat) (x y : Z),
    (i < j)%nat -> nodes t !! i = Some x -> nodes t !! j = Some y ->
    key x < key y \/ below t x y.
Proof.
  induction t as [|p t0 IH0 t1 IH1]; intros Hord i j x y Hij Hi Hj; [discriminate|].
  cbn [ordered] in Hord. destruct Hord as (Hlr & Ho0 & Ho1).
  cbn [nodes below] in *.
  destruct j as [|j]; [lia|]. cbn in Hj.
  destruct i as [|i]; cbn in Hi.
  - injection Hi as ->. right. left. split; [reflexivity|].
    eapply list_elem_of_lookup_2. exact Hj.
  - apply lookup_app_Some in Hi as [Hi|[Hil Hi]];
      apply lookup_app_Some in Hj as [Hj|[Hjl Hj]].
    + destruct (IH0 Ho0 i j x y ltac:(lia) Hi Hj); auto.
    + left. apply Hlr; eapply list_elem_of_lookup_2; eassumption.
    + apply lookup_lt_Some in Hj. lia.
    + destruct (IH1 Ho1 (i - length (nodes t0))%nat (j - length (nodes t0))%nat x y
                  ltac:(lia) Hi Hj); auto.
Qed.

Lemma elem_of_concat {A} (ls : list (list A)) (y : A) :
  y ∈ concat ls -> exists (b : nat) (l : list A), ls !! b = Some l /\ y ∈ l.
Proof.
  induction ls as [|l ls IH]; cbn; [intros H; inversion H|].
  rewrite elem_of_app. intros [Hy|Hy].
  - exists 0%nat, l. auto.
  - destruct (IH Hy) as (b & l' & Hb & Hl'). exists (S b), l'. auto.
Qed.

Lemma concat_order {A} (R : A -> A -> Prop) (ls : list (list A)) :
  (forall (b : nat) (l : list A) (i j : nat) (x y : A),
      ls !! b = Some l -> (i < j)%nat -> l !! i = Some x -> l !! j = Some y -> R x y) ->
  (forall (b1 b2 : nat) (l1 l2 : list A) (x y : A),
      (b1 < b2)%nat -> ls !! b1 = Some l1 -> ls !! b2 = Some l2 ->
      x ∈ l1 -> y ∈ l2 -> R x y) ->
  forall (i j : nat) (x y : A),
    (i < j)%nat -> concat ls !! i = Some x -> concat ls !! j = Some y -> R x y.
Proof.
  induction ls as [|l ls IH]; intros Hin Hacross i j x y Hij Hi Hj; [discriminate|].
  cbn [concat] in Hi, Hj.
  apply lookup_app_Some in Hi as [Hi|[Hil Hi]];
    apply lookup_app_Some in Hj as [Hj|[Hjl Hj]].
  - exact (Hin 0%nat l i j x y eq_refl Hij Hi Hj).
  - apply list_elem_of_lookup_2 in Hj.
    apply list_elem_of_lookup_2 in Hi.
    apply elem_of_concat in Hj as (b2 & l2 & Hb2 & Hy).
    exact (Hacross 0%nat (S b2) l l2 x y ltac:(lia) eq_refl Hb2 Hi Hy).
  - apply lookup_lt_Some in Hj. lia.
  - apply (IH (fun b => Hin (S b))
              (fun b1 b2 l1 l2 x y Hlt =>
                 Hacross (S b1) (S b2) l1 l2 x y (proj1 (Nat.succ_lt_mono b1 b2) Hlt))
              (i - length l)%nat (j - length l)%nat x y ltac:(lia) Hi Hj).
Qed.

Section order_on_wf.
Context {TP : TrieParams}.

Lemma wf_branch_ordered s ts (b : nat) t :
  wf s ts -> ts !! b = Some t -> ordered (key_at s) t.
Proof.
  intros Hwf Ht. pose proof (wf_bits _ _ Hwf) as HB.
  pose proof (wf_count _ _ Hwf) as Hcnt.
  assert (Hb : 0 <= Z.of_nat b < key_type_bits).
  { apply lookup_lt_Some in Ht. lia. }
  pose proof (wf_branch _ _ Hwf _ _ Ht) as Hbr.
  pose proof (br_keys _ _ _ Hbr) as Hk. rewrite (shiftl_1_mod _ Hb) in Hk.
  destruct (Z.eq_dec (Z.of_nat b) 0) as [Hz|Hnz].
  { rewrite Hz in Hk. apply ordered_bit0. exact Hk. }
  apply (ordered_prefix (key_at s) t (Z.of_nat b)); [lia|exact Hk|].
  pose proof (br_top _ _ _ Hbr) as Htop. rewrite Forall_forall in Htop.
  assert (Hone : forall x : Z, x ∈ nodes t -> key_at s x / 2 ^ Z.of_nat b = 1).
  { intros x Hx. destruct (Htop x Hx) as [Hscan Hrange].
    unfold bitscanr in Hscan.
    destruct (Z.eqb_spec (key_at s x) 0) as [|Hk0]; [lia|].
    pose proof (Z.log2_spec (key_at s x) ltac:(lia)) as Hlog. rewrite Hscan in Hlog.
    rewrite Z.pow_succ_r in Hlog by lia.
    symmetry. apply (Z.div_unique _ _ 1 (key_at s x - 2 ^ Z.of_nat b)); lia. }
  intros x y Hx Hy. rewrite (Hone x Hx), (Hone y Hy). reflexivity.
Qed.

(** Whenever the traversal of a well-formed index visits [x] before [y],
    the key of [x] is smaller than the key of [y] unless [y] lies below
    [x] in its branch. *)
Lemma attached_order s ts :
  wf s ts ->
  forall (i j : nat) (x y : Z),
    (i < j)%nat -> attached ts !! i = Some x -> attached ts !! j = Some y ->
    key_at s x < key_at s y \/ exists t, t ∈ ts /\ below t x y.
Proof.
  intros Hwf. unfold attached. apply concat_order.
  - intros b l i j x y Hb Hij Hi Hj.
    apply list_lookup_fmap_Some in Hb as (t & -> & Ht).
    destruct (preorder_order (key_at s) t (wf_branch_ordered s ts b t Hwf Ht) i j x y Hij Hi Hj)
      as [Hlt|Hbelow]; [left; exact Hlt|right].
    exists t. split; [eapply list_elem_of_lookup_2; exact Ht|exact Hbelow].
  - intros b1 b2 l1 l2 x y Hlt Hb1 Hb2 Hx Hy. left.
    apply list_lookup_fmap_Some in Hb1 as (t1 & -> & Ht1).
    apply list_lookup_fmap_Some in Hb2 as (t2 & -> & Ht2).
    pose proof (br_top _ _ _ (wf_branch _ _ Hwf _ _ Ht1)) as Htop1.
    pose proof (br_top _ _ _ (wf_branch _ _ Hwf _ _ Ht2)) as Htop2.
    rewrite Forall_forall in Htop1, Htop2.
    apply bitscanr_lt_keys.
    rewrite (proj1 (Htop1 x Hx)), (proj1 (Htop2 y Hy)). lia.
Qed.

End order_on_wf.

(** * Soundness of the validity check *)

Lemma shapeb_sound (m : gmap Z item) (t : tree) : forall par,
  shapeb m par t = true -> shape m par t.
Proof.
  induction t as [|p t0 IH0 t1 IH1]; intros par Hb; [exact I|].
  cbn [shapeb] in Hb.
  apply andb_prop in Hb as [Hb Hs1]. apply andb_prop in Hb as [Hb Hs0].
  apply andb_prop in Hb as [Hb Hf]. apply andb_prop in Hb as [Hp Hal].
  destruct (m !! p) as [v|] eqn:Hv; [|discriminate].
  apply andb_prop in Hf as [Hf Hsib]. apply andb_prop in Hf as [Hf Hc1].
  apply andb_prop in Hf as [Hpar Hc0].
  apply negb_true_iff, Z.eqb_neq in Hp.
  apply Z.eqb_eq in Hal, Hsib, Hc1, Hc0, Hpar.
  cbn [shape]. split; [exact Hp|]. split; [exact Hal|]. split; [|split; auto].
  exists v. split; [exact Hv|]. split; [exact Hpar|]. split; [|exact Hsib].
  destruct (trie_child v) as [c0 c1]. cbn [fst snd] in *. congruence.
Qed.

Lemma keys_okb_sound (key : Z -> Z) (t : tree) : forall keybit,
  keys_okb key keybit t = true -> keys_ok key keybit t.
Proof.
  induction t as [|p t0 IH0 t1 IH1]; intros keybit Hb; [exact I|].
  cbn [keys_okb] in Hb. cbv zeta in Hb.
  apply andb_prop in Hb as [Hb Hk1]. apply andb_prop in Hb as [Hb Hk0].
  apply andb_prop in Hb as [Hf0 Hf1].
  rewrite forallb_forall in Hf0, Hf1.
  cbn [keys_ok]. split; [|split; [|split; auto]].
  - apply Forall_forall. intros x Hx.
    apply negb_true_iff. apply Hf0. apply list_elem_of_In. exact Hx.
  - apply Forall_forall. intros x Hx. apply Hf1. apply list_elem_of_In. exact Hx.
Qed.

Section checker.
Context {TP : TrieParams}.

Lemma branch_okb_sound s b t : branch_okb s b t = true -> branch_ok s b t.
Proof.
  unfold branch_okb. intros Hb.
  apply andb_prop in Hb as [Hb Htop]. apply andb_prop in Hb as [Hb Hkeys].
  apply andb_prop in Hb as [Hslot Hshape].
  split.
  - destruct (head_accessors.child b (st_head s)) as [x|]; [|discriminate].
    apply Z.eqb_eq in Hslot. congruence.
  - apply shapeb_sound. exact Hshape.
  - apply keys_okb_sound. exact Hkeys.
  - apply Forall_forall. intros x Hx. rewrite forallb_forall in Htop.
    specialize (Htop x (proj1 (list_elem_of_In _ _) Hx)).
    apply andb_prop in Htop as [Htop Hlt]. apply andb_prop in Htop as [Hscan Hle].
    apply Z.eqb_eq in Hscan. apply Z.leb_le in Hle. apply Z.ltb_lt in Hlt. auto.
Qed.

Lemma branches_okb_sound s (ts : list tree) : forall (b0 : nat),
  branches_okb s b0 ts = true ->
  forall (b : nat) (t : tree), ts !! b = Some t -> branch_ok s (Z.of_nat (b0 + b)) t.
Proof.
  induction ts as [|u ts IH]; intros b0 Hb b t Ht; [discriminate|].
  cbn [branches_okb] in Hb. apply andb_prop in Hb as [Hu Hrest].
  destruct b as [|b]; cbn in Ht.
  - injection Ht as <-. rewrite Nat.add_0_r. apply branch_okb_sound. exact Hu.
  - replace (b0 + S b)%nat with (S b0 + b)%nat by lia. exact (IH (S b0) Hrest b t Ht).
Qed.

(** The check is sound: what it accepts is well formed. *)
Lemma wfb_sound s ts : wfb s ts = true -> wf s ts.
Proof.
  unfold wfb. intros Hb.
  apply andb_prop in Hb as [Hb Hmax]. apply andb_prop in Hb as [Hb Hsize].
  apply andb_prop in Hb as [Hb Hnd]. apply andb_prop in Hb as [Hb Hbr].
  apply andb_prop in Hb as [Hb Hcnt]. apply andb_prop in Hb as [Hb Hslots].
  apply andb_prop in Hb as [Hpos H64].
  apply Z.ltb_lt in Hpos. apply Z.leb_le in H64, Hslots, Hsize, Hmax.
  apply Z.eqb_eq in Hcnt. apply bool_decide_eq_true in Hnd.
  split; try assumption; try lia.
  intros b t Ht. apply (branches_okb_sound s ts 0%nat); assumption.
Qed.

End checker.

(** C3 (as amended). On a well-formed index the forward traversal from
    [begin()] to [end()] visits exactly the attached items, branch by
    branch in head-slot order and each branch in pre-order; whenever it
    visits [x] before [y] the key of [x] is smaller than the key of [y],
    unless [y] lies below [x] in the trie. *)
Theorem traversal_order {TP : TrieParams} (s : state) (ts : list tree) (fuel : nat) :
  wf s ts -> st_this s <> nullptr ->
  Forall (fun t => (height t < fuel)%nat) ts ->
  (length (attached ts) < fuel)%nat ->
  traversal fuel s = Some (attached ts, s) /\
  forall (i j : nat) (x y : Z),
    (i < j)%nat -> attached ts !! i = Some x -> attached ts !! j = Some y ->
    key_at s x < key_at s y \/ exists t, t ∈ ts /\ below t x y.
Proof.
  intros Hwf Hthis Hfuel Hlen. split.
  - exact (traversal_spec s ts fuel Hwf Hthis Hfuel Hlen).
  - exact (attached_order s ts Hwf).
Qed.

Lemma traversal_order_witness :
  (wf (TP := params8 0) (tree3 0) branches3 /\ st_this (tree3 0) <> nullptr /\
   Forall (fun t => (height t < 10)%nat) branches3 /\
   (length (attached branches3) < 10)%nat) /\
  traversal (TP := params8 0) 10 (tree3 0) = Some (attached branches3, tree3 0) /\
  forall (i j : nat) (x y : Z),
    (i < j)%nat -> attached branches3 !! i = Some x -> attached branches3 !! j = Some y ->
    key_at (tree3 0) x < key_at (tree3 0) y \/ exists t, t ∈ branches3 /\ below t x y.
Proof.
  assert (Hwf : wf (TP := params8 0) (tree3 0) branches3)
    by (apply wfb_sound; vm_compute; reflexivity).
  assert (Hthis : st_this (tree3 0) <> nullptr) by (vm_compute; discriminate).
  assert (Hfuel : Forall (fun t => (height t < 10)%nat) branches3)
    by (repeat constructor; cbn; lia).
  assert (Hlen : (length (attached branches3) < 10)%nat) by (cbn; lia).
  split; [auto|].
  exact (traversal_order (TP := params8 0) (tree3 0) branches3 10 Hwf Hthis Hfuel Hlen).
Defined.

(** * [insert] on well-formed indices *)

Lemma insert_on_wf {TP : TrieParams} s ts p v fuel :
  wf s ts ->
  p <> nullptr -> p mod 4 = 0 ->
  st_items s !! p = Some v -> 0 <= trie_key v < 2 ^ key_type_bits ->
  p ∉ attached ts ->
  head_accessors.size (st_head s) <> head_accessors.max_size ->
  Forall (fun t => (height t <= fuel)%nat) ts ->
  exists s' ts',
    insert fuel p s = Some (Iterator (st_this s) p, s') /\
    insert_post p (trie_key v) s ts s' ts'.
Proof.
  intros Hwf Hp Hal Hv Hk Hfresh Hroom Hfuel.
  pose proof (wf_size _ _ Hwf) as Hsize. unfold head_accessors.size in Hroom.
  destruct (trieinsert_spec s ts p v fuel Hwf Hp Hal Hv Hk Hfresh ltac:(lia) Hfuel)
    as (s' & ts' & Hrun & Hpost).
  exists s', ts'. split; [|exact Hpost].
  unfold insert.
  erewrite bind_run by (apply hget_Some; split; reflexivity).
  unfold head_accessors.size.
  destruct (Z.ltb_spec (trie_count (st_head s)) head_accessors.max_size); [|lia].
  rewrite (bind_run _ _ _ _ _ Hrun).
  erewrite bind_run by (apply this_Some; split; reflexivity).
  rewrite (ip_this _ _ _ _ _ _ Hpost). reflexivity.
Qed.

(** C2. [insert] fails exactly when the count is at its maximum
    ([size() == max_size()]): then it returns [end()] and leaves the whole
    state as it was (the item's housekeeping fields, the head slots, the
    count and every attached item).  Below the maximum a call that
    returns hands back an iterator to the item, which is not [end()]; and
    on a well-formed index it does return, for an item that is not yet
    attached. *)
Theorem insert_fails_iff_full {TP : TrieParams} fuel p s :
  0 <= index_type_bits ->
  0 <= head_accessors.size (st_head s) <= head_accessors.max_size ->
  (head_accessors.size (st_head s) = head_accessors.max_size ->
     insert fuel p s = Some (Iterator (st_this s) nullptr, s)) /\
  (head_accessors.size (st_head s) <> head_accessors.max_size ->
     forall it s', insert fuel p s = Some (it, s') ->
                   it = Iterator (st_this s') p /\ _p it <> nullptr) /\
  (head_accessors.size (st_head s) <> head_accessors.max_size ->
     forall ts v,
       wf s ts -> p <> nullptr -> p mod 4 = 0 ->
       st_items s !! p = Some v -> 0 <= trie_key v < 2 ^ key_type_bits ->
       p ∉ attached ts ->
       Forall (fun t => (height t <= fuel)%nat) ts ->
       exists s', insert fuel p s = Some (Iterator (st_this s) p, s')).
Proof.
  intros Hb Hsz. split; [|split].
  - apply insert_when_full.
  - intros Hne it s' Hr.
    destruct (insert_when_not_full fuel p s it s' Hb ltac:(lia) Hr) as (-> & Hnn & _).
    auto.
  - intros Hne ts v Hwf Hp Hal Hv Hk Hfresh Hfuel.
    destruct (insert_on_wf s ts p v fuel Hwf Hp Hal Hv Hk Hfresh Hne Hfuel)
      as (s' & ts' & Hrun & _).
    eauto.
Qed.

Lemma insert_fails_iff_full_witness :
  insert (TP := params8 0) 10 64 full_5 = Some (Iterator 1000 nullptr, full_5) /\
  (exists s', insert (TP := params8 0) 10 64 (tree3 0) = Some (Iterator 1000 64, s')).
Proof.
  split.
  - apply (insert_fails_iff_full (TP := params8 0) 10 64 full_5);
      [vm_compute; discriminate|vm_compute; intuition discriminate|reflexivity].
  - apply (proj2 (proj2 (insert_fails_iff_full (TP := params8 0) 10 64 (tree3 0)
                           ltac:(vm_compute; discriminate)
                           ltac:(vm_compute; intuition discriminate)))
             ltac:(vm_compute; discriminate) branches3 (fresh_item 5)).
    + apply wfb_sound. vm_compute. reflexivity.
    + vm_compute. discriminate.
    + reflexivity.
    + vm_compute. reflexivity.
    + vm_compute. intuition discriminate.
    + apply (bool_decide_unpack _). vm_compute. reflexivity.
    + repeat constructor.
Defined.

(** * Removal from a well-formed index *)

Lemma nobble_pick (d : bool) (q : Z) (w0 w1 : tree) :
  nobble d (Node q w0 w1) =
  match pick d w0 w1 with
  | Some c => (fst (nobble d (side c w0 w1)),
               with_side c q w0 w1 (snd (nobble d (side c w0 w1))))
  | None => (q, Leaf)
  end.
Proof. destruct d, w0, w1; reflexivity. Qed.

Lemma nth2_root (w0 w1 : tree) (c : bool) : nth2 (root w0, root w1) c = root (side c w0 w1).
Proof. destruct c; reflexivity. Qed.

Lemma nodes_with_side (c : bool) (q L : Z) (w0 w1 wc' : tree) :
  nodes (side c w0 w1) ≡ₚ L :: nodes wc' ->
  nodes (Node q w0 w1) ≡ₚ L :: nodes (with_side c q w0 w1 wc').
Proof.
  intros Hperm. destruct c; cbn [side with_side nodes] in *.
  - rewrite Hperm. rewrite <- Permutation_middle. apply Permutation_swap.
  - rewrite Hperm. cbn. apply Permutation_swap.
Qed.

Lemma side_nodes (c : bool) (w0 w1 : tree) (x : Z) :
  x ∈ nodes (side c w0 w1) -> x ∈ nodes w0 ++ nodes w1.
Proof. destruct c; cbn; rewrite elem_of_app; auto. Qed.

Lemma walk_result_descend m par q w0 w1 (c idx0 idx : bool) L wc' :
  shape m par (Node q w0 w1) -> NoDup (nodes (Node q w0 w1)) ->
  walk_result m q (side c w0 w1) c L idx wc' ->
  walk_result m par (Node q w0 w1) idx0 L idx (with_side c q w0 w1 wc').
Proof.
  intros Hsh Hnd (vL & Hleaf & Hperm & Hcase).
  exists vL. split; [exact Hleaf|]. split; [apply nodes_with_side; exact Hperm|].
  right.
  cbn [shape] in Hsh. destruct Hsh as (Hq & Hal & (v & Hv & Hpar & Hch & Hsib) & Hs0 & Hs1).
  cbn [nodes] in Hnd.
  apply NoDup_cons in Hnd as [Hqn Hnd]. apply NoDup_app in Hnd as (Hnd0 & Hdisj & Hnd1).
  rewrite not_elem_of_app in Hqn. destruct Hqn as [Hq0 Hq1].
  destruct Hcase as [(-> & Hroot & -> & HparL) | (vP & HPin & HvP & Hroot & Hsh')].
  - exists v. rewrite HparL.
    split; [destruct c; cbn; apply elem_of_cons; auto|].
    split; [exact Hv|]. split; [destruct c; reflexivity|].
    destruct c; cbn [with_side shape side] in *.
    + split; [exact Hq|]. split; [exact Hal|]. split; [|split; [|exact I]].
      * eexists. split; [apply lookup_insert_eq|].
        unfold item_accessors.set_child. cbn. rewrite Hch. cbn. auto.
      * apply (shape_frame m); [|exact Hs0].
        intros x Hx. apply lookup_insert_ne. congruence.
    + split; [exact Hq|]. split; [exact Hal|]. split; [|split; [exact I|]].
      * eexists. split; [apply lookup_insert_eq|].
        unfold item_accessors.set_child. cbn. rewrite Hch. cbn. auto.
      * apply (shape_frame m); [|exact Hs1].
        intros x Hx. apply lookup_insert_ne. congruence.
  - assert (HPc : trie_parent vL ∈ nodes (side c w0 w1)).
    { rewrite Hperm. apply elem_of_cons. auto. }
    assert (HPq : trie_parent vL <> q).
    { intros E. rewrite E in HPc. apply side_nodes, elem_of_app in HPc. tauto. }
    exists vP.
    split; [destruct c; cbn; rewrite elem_of_cons, elem_of_app; auto|].
    split; [exact HvP|]. split; [destruct c; reflexivity|].
    destruct c; cbn [with_side shape side] in *.
    + split; [exact Hq|]. split; [exact Hal|]. split; [|split; [|exact Hsh']].
      * exists v. rewrite lookup_insert_ne by congruence.
        rewrite Hroot. auto.
      * apply (shape_frame m); [|exact Hs0].
        intros x Hx. apply lookup_insert_ne. intros E. subst x.
        apply (Hdisj _ Hx HPc).
    + split; [exact Hq|]. split; [exact Hal|]. split; [|split; [exact Hsh'|]].
      * exists v. rewrite lookup_insert_ne by congruence.
        rewrite Hroot. auto.
      * apply (shape_frame m); [|exact Hs1].
        intros x Hx. apply lookup_insert_ne. intros E. subst x.
        apply (Hdisj _ HPc Hx).
Qed.

Lemma pick_Some (d c : bool) (w0 w1 : tree) :
  pick d w0 w1 = Some c -> side c w0 w1 <> Leaf.
Proof. destruct d, w0, w1; cbn; intros [= <-]; cbn; congruence. Qed.

Lemma pick_None (d : bool) (w0 w1 : tree) :
  pick d w0 w1 = None -> w0 = Leaf /\ w1 = Leaf.
Proof. destruct d, w0, w1; cbn; intros [=]; auto. Qed.

Lemma pick_is_Some (d : bool) (w0 w1 : tree) :
  w0 <> Leaf \/ w1 <> Leaf -> is_Some (pick d w0 w1).
Proof. destruct d, w0, w1; cbn; intros [H|H]; try congruence; eauto. Qed.

Lemma classic_leaf (u0 u1 : tree) : (u0 = Leaf /\ u1 = Leaf) \/ (u0 <> Leaf \/ u1 <> Leaf).
Proof. destruct u0, u1; auto; right; auto; left; congruence. Qed.

Section remove_on_wf.
Context {TP : TrieParams}.

Lemma nobble_walk_step (d idx0 : bool) (fuel : nat) s par q w0 w1 :
  shape (st_items s) par (Node q w0 w1) ->
  nobble_walk (S fuel) d q idx0 s =
  match pick d w0 w1 with
  | Some c => nobble_walk fuel d (root (side c w0 w1)) c s
  | None => Some ((q, idx0), s)
  end.
Proof.
  intros Hsh. cbn [shape] in Hsh.
  destruct Hsh as (Hq & Hal & (v & Hv & Hpar & Hch & Hsib) & Hs0 & Hs1).
  cbn [nobble_walk]. run_get. unfold item_accessors.child. rewrite Hch.
  destruct d, w0 as [|p0 a0 b0], w1 as [|p1 a1 b1]; cbn [nth2 fst snd root pick side negb];
    try (change (nullptr =? nullptr) with true; cbn [negb]);
    try rewrite (shape_root_nonnull _ _ _ _ _ Hs0);
    try rewrite (shape_root_nonnull _ _ _ _ _ Hs1); cbn [negb];
    try reflexivity;
    run_get; unfold item_accessors.child; rewrite Hch; cbn [nth2 fst snd root negb];
    try (change (nullptr =? nullptr) with true; cbn [negb]);
    try rewrite (shape_root_nonnull _ _ _ _ _ Hs0);
    try rewrite (shape_root_nonnull _ _ _ _ _ Hs1); cbn [negb];
    reflexivity.
Qed.

Lemma nobble_walk_spec (d : bool) (w : tree) :
  forall par idx0 fuel s,
    w <> Leaf -> shape (st_items s) par w -> NoDup (nodes w) -> (height w <= fuel)%nat ->
    exists idx,
      nobble_walk fuel d (root w) idx0 s = Some ((fst (nobble d w), idx), s) /\
      walk_result (st_items s) par w idx0 (fst (nobble d w)) idx (snd (nobble d w)).
Proof.
  induction w as [|q w0 IH0 w1 IH1]; intros par idx0 fuel s Hne Hsh Hnd Hfuel; [done|].
  destruct fuel as [|fuel]; [cbn in Hfuel; lia|].
  cbn [root]. rewrite (nobble_walk_step d idx0 fuel s par q w0 w1 Hsh), nobble_pick.
  pose proof Hsh as Hshape. pose proof Hnd as Hnodup.
  cbn [shape] in Hsh. destruct Hsh as (Hq & Hal & (v & Hv & Hpar & Hch & Hsib) & Hs0 & Hs1).
  cbn [nodes] in Hnd. cbn [height] in Hfuel.
  apply NoDup_cons in Hnd as [Hqn Hnd]. apply NoDup_app in Hnd as (Hnd0 & Hdisj & Hnd1).
  destruct (pick d w0 w1) as [c|] eqn:Hpick.
  - apply pick_Some in Hpick.
    assert (IH : exists idx,
      nobble_walk fuel d (root (side c w0 w1)) c s =
        Some ((fst (nobble d (side c w0 w1)), idx), s) /\
      walk_result (st_items s) q (side c w0 w1) c
        (fst (nobble d (side c w0 w1))) idx (snd (nobble d (side c w0 w1)))).
    { destruct c; cbn [side] in *; [apply IH1|apply IH0]; auto; lia. }
    destruct IH as (idx & Hrun & Hres). exists idx. cbn [fst snd].
    split; [exact Hrun|].
    apply walk_result_descend; assumption.
  - apply pick_None in Hpick as [-> ->]. exists idx0. cbn [fst snd].
    split; [reflexivity|].
    exists v. split; [|split].
    + unfold childless. rewrite Hch. cbn [root]. auto.
    + reflexivity.
    + left. auto.
Qed.


Lemma adopt_child_spec (c : bool) s (r L : Z) vr vL w :
  r <> nullptr -> L <> nullptr -> L <> r ->
  st_items s !! r = Some vr -> nth2 (trie_child vr) c = root w ->
  st_items s !! L = Some vL -> nth2 (trie_child vL) c = nullptr ->
  shape (st_items s) r w -> NoDup (nodes w) -> L ∉ nodes w ->
  exists m',
    adopt_child c r L s = Some (tt, State (st_this s) (st_head s) m') /\
    m' !! L = Some (item_accessors.set_child c (root w) vL) /\
    shape m' L w /\
    (forall x : Z, x <> L -> x ∉ nodes w -> m' !! x = st_items s !! x) /\
    (forall x : Z, ring_view <$> (m' !! x) = ring_view <$> (st_items s !! x)).
Proof.
  intros Hr HL HLr Hvr Hrc HvL HLc Hsh Hnd HLw.
  destruct s as [this hd m]. cbn [st_items st_this st_head] in *.
  unfold adopt_child. run_get. unfold item_accessors.child. rewrite Hrc.
  destruct w as [|p a b].
  - cbn [root]. change (nullptr =? nullptr) with true. cbn [negb].
    exists m. split; [reflexivity|]. split; [|split; [exact I|split; reflexivity]].
    rewrite HvL. f_equal. destruct vL as [pa [c0 c1] sb k].
    unfold item_accessors.set_child. cbn in *. destruct c; cbn in *; subst; reflexivity.
  - cbn [root]. pose proof Hsh as Hshape. cbn [shape] in Hsh.
    destruct Hsh as (Hp & Hal & (vp & Hvp & Hpar & Hch & Hsib) & Hs0 & Hs1).
    cbn [nodes] in Hnd, HLw.
    apply NoDup_cons in Hnd as [Hpn Hnd].
    rewrite not_elem_of_cons in HLw. destruct HLw as [HLp HLw].
    rewrite (proj2 (Z.eqb_neq p nullptr) Hp). cbn [negb].
    run_set. last_set.
    eexists. split; [reflexivity|].
    split; [rewrite lookup_insert_ne by congruence; apply lookup_insert_eq|].
    split; [|split].
    + cbn [shape]. split; [exact Hp|]. split; [exact Hal|]. split; [|split].
      * eexists. split; [apply lookup_insert_eq|].
        unfold item_accessors.set_parent. cbn. auto.
      * apply (shape_frame m); [|exact Hs0]. intros x Hx.
        assert (x ∈ nodes a ++ nodes b) by (apply elem_of_app; auto).
        rewrite !lookup_insert_ne by (intros <-; tauto). reflexivity.
      * apply (shape_frame m); [|exact Hs1]. intros x Hx.
        assert (x ∈ nodes a ++ nodes b) by (apply elem_of_app; auto).
        rewrite !lookup_insert_ne by (intros <-; tauto). reflexivity.
    + intros x HxL Hxp. cbn [nodes] in Hxp. rewrite not_elem_of_cons in Hxp.
      rewrite !lookup_insert_ne by (intros <-; tauto). reflexivity.
    + intros x. destruct (decide (x = p)) as [->|Hxp].
      { rewrite lookup_insert_eq, Hvp. reflexivity. }
      rewrite lookup_insert_ne by congruence.
      destruct (decide (x = L)) as [->|HxL].
      { rewrite lookup_insert_eq, HvL. reflexivity. }
      rewrite lookup_insert_ne by congruence. reflexivity.
Qed.

Lemma root_in_nodes (w : tree) : w <> Leaf -> root w ∈ nodes w.
Proof. destruct w; [done|]. intros _. cbn. apply elem_of_cons. auto. Qed.

Lemma nodes_nonnull m par w (x : Z) : shape m par w -> x ∈ nodes w -> x <> nullptr.
Proof. intros Hsh Hx. apply (shape_allocated m par w x Hsh Hx). Qed.

Lemma root_not_in m par (a b : tree) :
  shape m par b -> (forall x : Z, x ∈ nodes a -> x ∉ nodes b) -> root a ∉ nodes b.
Proof.
  intros Hsh Hdisj Hin. destruct a as [|p a0 a1].
  - apply (nodes_nonnull _ _ _ _ Hsh Hin). reflexivity.
  - apply (Hdisj p); [cbn; apply elem_of_cons; auto|exact Hin].
Qed.

Lemma adopt_children_spec s (r L : Z) vr vL a b :
  r <> nullptr -> L <> nullptr -> L <> r ->
  st_items s !! r = Some vr -> trie_child vr = (root a, root b) ->
  st_items s !! L = Some vL -> trie_child vL = (nullptr, nullptr) ->
  shape (st_items s) r a -> shape (st_items s) r b ->
  NoDup (r :: nodes a ++ nodes b) -> L ∉ nodes a ++ nodes b ->
  exists m',
    adopt_children r L s = Some (tt, State (st_this s) (st_head s) m') /\
    m' !! L = Some (Item (trie_parent vL) (root a, root b) (trie_sibling vL) (trie_key vL)) /\
    shape m' L a /\ shape m' L b /\
    (forall x : Z, x <> L -> x ∉ nodes a ++ nodes b -> m' !! x = st_items s !! x) /\
    (forall x : Z, ring_view <$> (m' !! x) = ring_view <$> (st_items s !! x)).
Proof.
  intros Hr HL HLr Hvr Hrc HvL HLc Hsa Hsb Hnd HLw.
  apply NoDup_cons in Hnd as [Hrn Hnd]. apply NoDup_app in Hnd as (Hnda & Hdisj & Hndb).
  rewrite not_elem_of_app in HLw, Hrn. destruct HLw as [HLa HLb]. destruct Hrn as [Hra Hrb].
  destruct (adopt_child_spec false s r L vr vL a) as (m1 & Hrun1 & HL1 & Hsh1 & Hfr1 & Hrg1);
    try assumption; try (rewrite ?Hrc, ?HLc; reflexivity).
  set (s1 := State (st_this s) (st_head s) m1) in *.
  destruct (adopt_child_spec true s1 r L vr (item_accessors.set_child false (root a) vL) b)
    as (m2 & Hrun2 & HL2 & Hsh2 & Hfr2 & Hrg2); try assumption.
  { subst s1. cbn [st_items]. rewrite Hfr1 by congruence. exact Hvr. }
  { rewrite Hrc. reflexivity. }
  { unfold item_accessors.set_child. cbn. rewrite HLc. reflexivity. }
  { subst s1. cbn [st_items]. apply (shape_frame (st_items s)); [|exact Hsb].
    intros x Hx. apply Hfr1; [intros ->; tauto|]. intros Hxa. apply (Hdisj _ Hxa Hx). }
  exists m2. unfold adopt_children.
  rewrite (bind_run _ _ _ _ _ Hrun1). fold s1. rewrite Hrun2. subst s1.
  cbn [st_this st_head st_items] in *.
  split; [reflexivity|]. split; [|split; [|split; [|split]]].
  - rewrite HL2. reflexivity.
  - apply (shape_frame m1); [|exact Hsh1]. intros x Hx. apply Hfr2.
    + intros ->. tauto.
    + intros Hxb. apply (Hdisj _ Hx Hxb).
  - exact Hsh2.
  - intros x HxL Hx. rewrite not_elem_of_app in Hx.
    rewrite Hfr2, Hfr1 by tauto. reflexivity.
  - intros x. rewrite Hrg2, Hrg1. reflexivity.
Qed.

Lemma to_nobble_run s :
  exists hd0,
    _to_nobble s = Some (nobble_dir s, State (st_this s) hd0 (st_items s)) /\
    trie_count hd0 = trie_count (st_head s) /\
    trie_children hd0 = trie_children (st_head s).
Proof.
  unfold _to_nobble, nobble_dir.
  destruct (NobbleDir <? 0); [exists (st_head s); destruct s; auto|].
  destruct (0 <? NobbleDir); [exists (st_head s); destruct s; auto|].
  cbn. eexists. split; [reflexivity|]. auto.
Qed.

Lemma find_replacement_step (d idx0 : bool) (fuel : nat) s par r u0 u1 :
  shape (st_items s) par (Node r u0 u1) -> u0 <> Leaf \/ u1 <> Leaf ->
  find_replacement fuel d r s = nobble_walk (S fuel) d r idx0 s.
Proof.
  intros Hsh Hne. rewrite (nobble_walk_step d idx0 fuel s par r u0 u1 Hsh).
  cbn [shape] in Hsh.
  destruct Hsh as (Hq & Hal & (v & Hv & Hpar & Hch & Hsib) & Hs0 & Hs1).
  unfold find_replacement. run_get. unfold item_accessors.child. rewrite Hch.
  destruct d, u0 as [|p0 a0 b0], u1 as [|p1 a1 b1]; cbn [nth2 fst snd root pick side negb];
    try (destruct Hne; congruence);
    try (change (nullptr =? nullptr) with true; cbn [negb]);
    try rewrite (shape_root_nonnull _ _ _ _ _ Hs0);
    try rewrite (shape_root_nonnull _ _ _ _ _ Hs1); cbn [negb];
    (erewrite bind_run; [| first [ reflexivity | run_get; reflexivity ] ]);
    unfold item_accessors.child; rewrite ?Hch; reflexivity.
Qed.

Lemma ring_view_set_child (c : bool) (x : Z) (v : item) :
  ring_view (item_accessors.set_child c x v) = ring_view v.
Proof. reflexivity. Qed.

(** The replacement search and the handing over of the children, when
    the removed item [r] has a child. *)
Lemma remove_core s par (r : Z) u0 u1 fuel :
  shape (st_items s) par (Node r u0 u1) -> NoDup (nodes (Node r u0 u1)) ->
  u0 <> Leaf \/ u1 <> Leaf -> par <> nullptr -> par ∉ nodes (Node r u0 u1) ->
  (height (Node r u0 u1) <= S fuel)%nat ->
  exists L a b hd0 m2 vr2 vL2,
    snd (nobble (nobble_dir s) (Node r u0 u1)) = Node r a b /\
    fst (nobble (nobble_dir s) (Node r u0 u1)) = L /\
    nodes (Node r u0 u1) ≡ₚ L :: r :: nodes a ++ nodes b /\
    trieremove fuel r s =
      (remove_set_parent r L ;;; hset head_accessors.decr_size) (State (st_this s) hd0 m2) /\
    trie_count hd0 = trie_count (st_head s) /\
    trie_children hd0 = trie_children (st_head s) /\
    L <> nullptr /\ L mod 4 = 0 /\
    m2 !! r = Some vr2 /\ trie_parent vr2 = par /\
    m2 !! L = Some vL2 /\ trie_child vL2 = (root a, root b) /\ snd (trie_sibling vL2) = L /\
    shape m2 L a /\ shape m2 L b /\
    (forall x : Z, x ∉ nodes (Node r u0 u1) -> m2 !! x = st_items s !! x) /\
    (forall x : Z, ring_view <$> (m2 !! x) = ring_view <$> (st_items s !! x)).
Proof.
  intros Hsh Hnd Hne Hpar0 Hparn Hfuel.
  pose proof Hsh as Hshape. cbn [shape] in Hsh.
  destruct Hsh as (Hr & Hal & (vr & Hvr & Hpar & Hch & Hsib) & Hs0 & Hs1).
  unfold trieremove. run_get. run_get.
  unfold item_accessors.is_secondary_sibling. rewrite Hpar.
  rewrite (proj2 (Z.eqb_neq par nullptr) Hpar0).
  run_get. unfold item_accessors.sibling at 1. cbn [nth2]. rewrite Hsib, Z.eqb_refl. cbn [negb].
  run_get. run_get. unfold item_accessors.child. rewrite Hch. cbn [nth2 fst snd].
  assert (Hnl : (root u0 =? nullptr) && (root u1 =? nullptr) = false).
  { destruct u0, u1; cbn [root]; try (destruct Hne; congruence);
      rewrite ?(shape_root_nonnull _ _ _ _ _ Hs0), ?(shape_root_nonnull _ _ _ _ _ Hs1);
      rewrite ?andb_false_r; reflexivity. }
  rewrite Hnl.
  destruct (to_nobble_run s) as (hd0 & Hnob & Hcnt & Hchl).
  rewrite (bind_run _ _ _ _ _ Hnob).
  set (d := nobble_dir s) in *. set (s0 := State (st_this s) hd0 (st_items s)).
  assert (Hshape0 : shape (st_items s0) par (Node r u0 u1)) by exact Hshape.
  destruct (nobble_walk_spec d (Node r u0 u1) par false (S fuel) s0)
    as (idx & Hwalk & vL & Hleaf & Hperm & Hcase); try assumption; [done|].
  cbn [root] in Hwalk.
  rewrite <- (find_replacement_step d false fuel s0 par r u0 u1 Hshape0 Hne) in Hwalk.
  rewrite (bind_run _ _ _ _ _ Hwalk). cbn [fst snd].
  destruct Hleaf as (HL0 & HLal & HvL & HLch & HLsib).
  set (L := fst (nobble d (Node r u0 u1))) in *.
  destruct Hcase as [(Hleaf' & _) | (vP & HPin & HvP & Hroot & Hsh1)].
  { exfalso. rewrite nobble_pick in Hleaf'.
    destruct (pick_is_Some d u0 u1 Hne) as [c Hc]. rewrite Hc in Hleaf'.
    destruct c; discriminate. }
  subst s0. cbn [st_items] in *.
  destruct (snd (nobble d (Node r u0 u1))) as [|r' a b] eqn:Hsnd; [inversion HPin|].
  cbn [root] in Hroot. subst r'.
  assert (Hnd' : NoDup (L :: r :: nodes a ++ nodes b)).
  { rewrite <- Hperm. exact Hnd. }
  apply NoDup_cons in Hnd' as [HLn Hnd'].
  assert (HPL : trie_parent vL <> L) by (intros E; rewrite E in HPin; tauto).
  assert (HP0 : trie_parent vL <> nullptr).
  { apply (nodes_nonnull _ _ _ _ Hsh1 HPin). }
  run_get. unfold item_accessors.parent at 1.
  run_set.
  set (m1 := <[trie_parent vL := item_accessors.set_child idx nullptr vP]> (st_items s)) in *.
  pose proof Hsh1 as Hshape1. cbn [shape] in Hsh1.
  destruct Hsh1 as (_ & _ & (vr1 & Hvr1 & Hpar1 & Hch1 & Hsib1) & Hsa & Hsb).
  set (s1 := State (st_this s) hd0 m1).
  destruct (adopt_children_spec s1 r L vr1 vL a b)
    as (m2 & Hrun2 & HL2 & Hsa2 & Hsb2 & Hfr2 & Hrg2); try assumption.
  { intros E. apply HLn. rewrite E. apply elem_of_cons. auto. }
  { subst s1 m1. cbn [st_items]. rewrite lookup_insert_ne by congruence. exact HvL. }
  { intros Hin. apply HLn. apply elem_of_cons. auto. }
  rewrite (bind_run _ _ _ _ _ Hrun2). subst s1. cbn [st_this st_head st_items] in *.
  assert (Hrn : r ∉ nodes a ++ nodes b) by (apply NoDup_cons in Hnd'; tauto).
  assert (HrL : r <> L) by (intros E; apply HLn; rewrite E; apply elem_of_cons; auto).
  exists L, a, b, hd0, m2, vr1, (Item (trie_parent vL) (root a, root b) (trie_sibling vL) (trie_key vL)).
  split; [reflexivity|]. split; [reflexivity|]. split; [exact Hperm|].
  split; [reflexivity|]. split; [exact Hcnt|]. split; [exact Hchl|].
  split; [exact HL0|]. split; [exact HLal|].
  split; [rewrite Hfr2 by assumption; exact Hvr1|]. split; [exact Hpar1|].
  split; [exact HL2|]. split; [reflexivity|]. split; [exact HLsib|].
  split; [exact Hsa2|]. split; [exact Hsb2|]. split.
  - intros x Hx. rewrite Hperm in Hx.
    cbn [nodes] in Hx. rewrite !not_elem_of_cons in Hx. destruct Hx as (HxL & Hxr & Hx).
    rewrite Hfr2 by assumption. subst m1. apply lookup_insert_ne.
    intros E. rewrite E in HPin. cbn [nodes] in HPin.
    apply elem_of_cons in HPin. tauto.
  - intros x. rewrite Hrg2. subst m1.
    destruct (decide (x = trie_parent vL)) as [->|Hx].
    + rewrite lookup_insert_eq, HvP. reflexivity.
    + rewrite lookup_insert_ne by congruence. reflexivity.
Qed.

Lemma head_child_in_range (b : Z) (h : head) (x : Z) :
  head_accessors.child b h = Some x -> 0 <= b < Z.of_nat (length (trie_children h)).
Proof.
  unfold head_accessors.child. destruct (Z.ltb_spec b 0); [discriminate|].
  intros Hl. apply lookup_lt_Some in Hl. lia.
Qed.

Lemma remove_set_parent_spec s par (r node : Z) vr vn :
  linked s par r -> par <> nullptr ->
  st_items s !! r = Some vr -> trie_parent vr = par -> r <> nullptr -> r <> par ->
  st_items s !! node = Some vn -> node <> nullptr -> node <> par ->
  exists s',
    remove_set_parent r node s = Some (tt, s') /\
    st_this s' = st_this s /\ trie_count (st_head s') = trie_count (st_head s) /\
    relinked s s' par r node /\
    st_items s' !! node = Some (Item par (trie_child vn) (trie_sibling vn) (trie_key vn)) /\
    (forall x : Z, x <> node -> x <> par -> st_items s' !! x = st_items s !! x) /\
    (forall x : Z, ring_view <$> (st_items s' !! x) = ring_view <$> (st_items s !! x)).
Proof.
  intros Hlink Hpar0 Hvr Hpar Hr Hrp Hvn Hn Hnp.
  destruct s as [this hd m]. cbn [st_items st_this st_head] in *.
  unfold remove_set_parent. run_get.
  destruct Hlink as [(b & Hb & Hpb & Hslot) | (Hal & vp & Hvp & Hside)];
    cbn [st_items st_head] in *.
  - rewrite Hpb in Hpar. destruct (parent_index_tag vr b Hb Hpar) as [His Hbit].
    rewrite His. run_get. rewrite Hbit.
    apply head_child_in_range in Hslot.
    unfold hset_child at 1. erewrite bind_run; [|cbn [st_head]; rewrite (head_set_child_Some b node hd Hslot); reflexivity].
    cbn [st_this st_head st_items]. last_set.
    eexists. split; [reflexivity|]. cbn [st_this st_head st_items trie_count trie_children].
    split; [reflexivity|]. split; [reflexivity|]. split; [|split; [|split]].
    + left. exists b. split; [exact Hb|]. split; [exact Hpb|]. split; [reflexivity|].
      apply lookup_insert_ne. congruence.
    + rewrite lookup_insert_eq. unfold item_accessors.set_parent_is_index.
      rewrite Hpb. reflexivity.
    + intros x Hxn _. apply lookup_insert_ne. congruence.
    + intros x. destruct (decide (x = node)) as [->|Hx].
      * rewrite lookup_insert_eq, Hvn. reflexivity.
      * rewrite lookup_insert_ne by congruence. reflexivity.
  - rewrite (parent_aligned vr par Hal Hpar).
    run_get. change (item_accessors.parent vr) with (trie_parent vr). rewrite Hpar.
    run_get. unfold item_accessors.child at 1. cbn [nth2].
    set (c := negb (fst (trie_child vp) =? r)) in *.
    assert (Hset : (if fst (trie_child vp) =? r
                    then set par (item_accessors.set_child false node)
                    else set par (item_accessors.set_child true node)) (State this hd m) =
                   Some (tt, State this hd (<[par := item_accessors.set_child c node vp]> m))).
    { subst c. destruct (fst (trie_child vp) =? r); cbn [negb]; last_set; reflexivity. }
    rewrite (bind_run _ _ _ _ _ Hset).
    run_get. change (item_accessors.parent vr) with (trie_parent vr). rewrite Hpar.
    last_set.
    eexists. split; [reflexivity|]. cbn [st_this st_head st_items].
    split; [reflexivity|]. split; [reflexivity|]. split; [|split; [|split]].
    + right. cbn [st_items st_head]. split; [exact Hal|]. split; [reflexivity|]. exists vp. split; [exact Hvp|].
      rewrite lookup_insert_ne by congruence. apply lookup_insert_eq.
    + rewrite lookup_insert_eq. reflexivity.
    + intros x Hxn Hxp. rewrite !lookup_insert_ne by congruence. reflexivity.
    + intros x. destruct (decide (x = node)) as [->|Hx].
      * rewrite lookup_insert_eq, Hvn. reflexivity.
      * rewrite lookup_insert_ne by congruence.
        destruct (decide (x = par)) as [->|Hx'].
        -- rewrite lookup_insert_eq, Hvp. reflexivity.
        -- rewrite lookup_insert_ne by congruence. reflexivity.
Qed.

Lemma unlink_leaf_spec s par (r : Z) vr :
  linked s par r -> par <> nullptr ->
  st_items s !! r = Some vr -> trie_parent vr = par -> r <> nullptr -> r <> par ->
  exists s',
    unlink_leaf r s = Some (tt, s') /\
    st_this s' = st_this s /\ trie_count (st_head s') = trie_count (st_head s) /\
    relinked s s' par r nullptr /\
    (forall x : Z, x <> par -> st_items s' !! x = st_items s !! x) /\
    (forall x : Z, ring_view <$> (st_items s' !! x) = ring_view <$> (st_items s !! x)).
Proof.
  intros Hlink Hpar0 Hvr Hpar Hr Hrp.
  destruct s as [this hd m]. cbn [st_items st_this st_head] in *.
  unfold unlink_leaf. run_get.
  destruct Hlink as [(b & Hb & Hpb & Hslot) | (Hal & vp & Hvp & Hside)];
    cbn [st_items st_head] in *.
  - rewrite Hpb in Hpar. destruct (parent_index_tag vr b Hb Hpar) as [His Hbit].
    rewrite His. run_get. rewrite Hbit.
    apply head_child_in_range in Hslot.
    unfold hset_child. cbn [st_head]. rewrite (head_set_child_Some b nullptr hd Hslot).
    eexists. split; [reflexivity|]. cbn [st_this st_head st_items trie_count trie_children].
    split; [reflexivity|]. split; [reflexivity|]. split; [|split; reflexivity].
    left. exists b. auto.
  - rewrite (parent_aligned vr par Hal Hpar).
    run_get. change (item_accessors.parent vr) with (trie_parent vr). rewrite Hpar.
    run_get. unfold item_accessors.child at 1. cbn [nth2].
    set (c := negb (fst (trie_child vp) =? r)) in *.
    assert (Hset : (if fst (trie_child vp) =? r
                    then set par (item_accessors.set_child false nullptr)
                    else set par (item_accessors.set_child true nullptr)) (State this hd m) =
                   Some (tt, State this hd (<[par := item_accessors.set_child c nullptr vp]> m))).
    { subst c. destruct (fst (trie_child vp) =? r); cbn [negb]; last_set; reflexivity. }
    rewrite Hset.
    eexists. split; [reflexivity|]. cbn [st_this st_head st_items].
    split; [reflexivity|]. split; [reflexivity|]. split; [|split].
    + right. cbn [st_items st_head]. split; [exact Hal|]. split; [reflexivity|]. exists vp. split; [exact Hvp|].
      apply lookup_insert_eq.
    + intros x Hxp. rewrite !lookup_insert_ne by congruence. reflexivity.
    + intros x. destruct (decide (x = par)) as [->|Hx'].
      * rewrite lookup_insert_eq, Hvp. reflexivity.
      * rewrite lookup_insert_ne by congruence. reflexivity.
Qed.

Lemma replace_root_node (d : bool) (r : Z) (u0 u1 : tree) :
  u0 <> Leaf \/ u1 <> Leaf ->
  replace_root d (Node r u0 u1) =
  match snd (nobble d (Node r u0 u1)) with
  | Node _ a b => Node (fst (nobble d (Node r u0 u1))) a b
  | Leaf => Leaf
  end.
Proof. destruct u0, u1; intros [H|H]; try congruence; reflexivity. Qed.

Lemma remove_at_root s par (r : Z) u0 u1 fuel :
  shape (st_items s) par (Node r u0 u1) -> NoDup (nodes (Node r u0 u1)) ->
  linked s par r -> par <> nullptr -> par ∉ nodes (Node r u0 u1) ->
  (height (Node r u0 u1) <= S fuel)%nat ->
  exists s',
    trieremove fuel r s = Some (tt, s') /\
    st_this s' = st_this s /\
    trie_count (st_head s') = (trie_count (st_head s) - 1) mod 2 ^ index_type_bits /\
    relinked s s' par r (root (replace_root (nobble_dir s) (Node r u0 u1))) /\
    shape (st_items s') par (replace_root (nobble_dir s) (Node r u0 u1)) /\
    (forall x : Z, x ∉ nodes (Node r u0 u1) -> x <> par ->
                   st_items s' !! x = st_items s !! x) /\
    (forall x : Z, ring_view <$> (st_items s' !! x) = ring_view <$> (st_items s !! x)).
Proof.
  intros Hsh Hnd Hlink Hpar0 Hparn Hfuel.
  assert (Hrp : r <> par).
  { intros E. apply Hparn. rewrite <- E. cbn. apply elem_of_cons. auto. }
  assert (Hr0 : r <> nullptr) by (cbn [shape] in Hsh; tauto).
  destruct (classic_leaf u0 u1) as [[-> ->] | Hne].
  - (* no children *)
    cbn [shape] in Hsh. destruct Hsh as (Hr & Hal & (vr & Hvr & Hpar & Hch & Hsib) & _).
    destruct (unlink_leaf_spec s par r vr) as (s1 & Hrun & Hthis & Hcnt & Hrel & Hfr & Hrg);
      try assumption.
    exists (State (st_this s1) (head_accessors.decr_size (st_head s1)) (st_items s1)).
    split; [|split; [exact Hthis|split; [|split; [|split; [exact I|split]]]]].
    + unfold trieremove. run_get. run_get.
      unfold item_accessors.is_secondary_sibling. rewrite Hpar.
      rewrite (proj2 (Z.eqb_neq par nullptr) Hpar0).
      run_get. unfold item_accessors.sibling at 1. cbn [nth2]. rewrite Hsib, Z.eqb_refl.
      cbn [negb]. run_get. run_get. unfold item_accessors.child. rewrite Hch.
      cbn [nth2 fst snd root]. change (nullptr =? nullptr) with true. cbn [andb].
      rewrite (bind_run _ _ _ _ _ Hrun). reflexivity.
    + cbn [st_head head_accessors.decr_size trie_count]. rewrite Hcnt. reflexivity.
    + exact Hrel.
    + intros x _ Hxp. cbn [st_items]. apply Hfr. exact Hxp.
    + exact Hrg.
  - destruct (remove_core s par r u0 u1 fuel Hsh Hnd Hne Hpar0 Hparn Hfuel)
      as (L & a & b & hd0 & m2 & vr2 & vL2 & Hsnd & Hfst & Hperm & Hrun & Hcnt0 & Hchl0 &
          HL0 & HLal & Hvr2 & Hpar2 & HvL2 & HLch & HLsib & Hsa & Hsb & Hfr2 & Hrg2).
    rewrite (replace_root_node _ _ _ _ Hne), Hsnd, Hfst. cbn [root].
    assert (HLu : L ∈ nodes (Node r u0 u1)) by (rewrite Hperm; apply elem_of_cons; auto).
    assert (HLp : L <> par) by (intros E; apply Hparn; rewrite <- E; exact HLu).
    assert (Hnd' : NoDup (L :: r :: nodes a ++ nodes b)) by (rewrite <- Hperm; exact Hnd).
    apply NoDup_cons in Hnd' as [HLn _].
    set (s2 := State (st_this s) hd0 m2) in *.
    assert (Hlink2 : linked s2 par r).
    { destruct Hlink as [(bx & Hb & Hpb & Hslot) | (Hal & vp & Hvp & Hside)].
      - left. exists bx. split; [exact Hb|]. split; [exact Hpb|].
        unfold head_accessors.child in *. subst s2. cbn [st_head]. rewrite Hchl0. exact Hslot.
      - right. split; [exact Hal|]. exists vp. subst s2. cbn [st_items].
        rewrite (Hfr2 par Hparn). auto. }
    destruct (remove_set_parent_spec s2 par r L vr2 vL2)
      as (s3 & Hrun3 & Hthis3 & Hcnt3 & Hrel3 & HL3 & Hfr3 & Hrg3); try assumption.
    exists (State (st_this s3) (head_accessors.decr_size (st_head s3)) (st_items s3)).
    subst s2. cbn [st_this st_head st_items] in *.
    split; [|split; [exact Hthis3|split; [|split; [|split; [|split]]]]].
    + rewrite Hrun. rewrite (bind_run _ _ _ _ _ Hrun3). reflexivity.
    + cbn [st_head head_accessors.decr_size trie_count]. rewrite Hcnt3, Hcnt0. reflexivity.
    + destruct Hrel3 as [(bx & Hb & Hpb & Hch3 & Hp3) | (Hal & Hch3 & vp & Hvp & Hp3)];
        cbn [st_this st_head st_items] in *.
      * left. exists bx. cbn [st_head st_items head_accessors.decr_size trie_children].
        rewrite Hch3, Hchl0, Hp3. rewrite (Hfr2 par Hparn). auto.
      * right. cbn [st_head st_items head_accessors.decr_size trie_children].
        split; [exact Hal|]. split; [rewrite Hch3; exact Hchl0|].
        exists vp. rewrite <- (Hfr2 par Hparn). auto.
    + cbn [st_items shape]. split; [exact HL0|]. split; [exact HLal|]. split; [|split].
      * eexists. split; [exact HL3|]. cbn. auto.
      * apply (shape_frame m2); [|exact Hsa]. intros x Hx.
        assert (Hxu : x ∈ nodes (Node r u0 u1)).
        { rewrite Hperm. rewrite !elem_of_cons, elem_of_app. auto. }
        apply Hfr3; [|intros E; apply Hparn; rewrite <- E; exact Hxu].
        intros E. apply HLn. rewrite <- E. rewrite elem_of_cons, elem_of_app. auto.
      * apply (shape_frame m2); [|exact Hsb]. intros x Hx.
        assert (Hxu : x ∈ nodes (Node r u0 u1)).
        { rewrite Hperm. rewrite !elem_of_cons, elem_of_app. auto. }
        apply Hfr3; [|intros E; apply Hparn; rewrite <- E; exact Hxu].
        intros E. apply HLn. rewrite <- E. rewrite elem_of_cons, elem_of_app. auto.
    + intros x Hx Hxp. cbn [st_items]. rewrite Hfr3; [apply Hfr2; exact Hx| |exact Hxp].
      intros E. apply Hx. rewrite E. exact HLu.
    + intros x. cbn [st_items]. rewrite Hrg3. apply Hrg2.
Qed.

Lemma tremove_absent (d : bool) (r : Z) (t : tree) : r ∉ nodes t -> tremove d r t = t.
Proof.
  induction t as [|p t0 IH0 t1 IH1]; [reflexivity|].
  cbn [nodes tremove]. rewrite not_elem_of_cons, not_elem_of_app. intros (Hp & H0 & H1).
  rewrite (proj2 (Z.eqb_neq p r)) by congruence. rewrite IH0, IH1 by assumption. reflexivity.
Qed.

Lemma tremove_side (d c : bool) (r p : Z) (t0 t1 : tree) :
  p <> r -> r ∉ nodes (side (negb c) t0 t1) ->
  tremove d r (Node p t0 t1) = with_side c p t0 t1 (tremove d r (side c t0 t1)).
Proof.
  intros Hp Hr. cbn [tremove]. rewrite (proj2 (Z.eqb_neq p r) Hp).
  destruct c; cbn [side with_side negb] in *; rewrite (tremove_absent d r _ Hr); reflexivity.
Qed.

Lemma shape_with_side m par (c : bool) (p : Z) (t0 t1 w' : tree) v :
  p <> nullptr -> p mod 4 = 0 -> m !! p = Some v -> trie_parent v = par ->
  trie_child v = upd2 (root t0, root t1) c (root w') -> snd (trie_sibling v) = p ->
  shape m p w' -> shape m p (side (negb c) t0 t1) ->
  shape m par (with_side c p t0 t1 w').
Proof.
  intros Hp Hal Hv Hpar Hch Hsib Hw Ho.
  destruct c; cbn [with_side shape side negb] in *;
    (split; [exact Hp|]; split; [exact Hal|]; split; [|split; assumption]);
    exists v; rewrite Hch; auto.
Qed.

Lemma set_child_same (c : bool) (x : Z) (v : item) :
  nth2 (trie_child v) c = x -> item_accessors.set_child c x v = v.
Proof.
  destruct v as [pa [c0 c1] sb k]. unfold item_accessors.set_child. cbn.
  destruct c; cbn; intros <-; reflexivity.
Qed.

Lemma index_tag_unaligned (b : Z) : 0 <= b < 2 ^ 30 -> index_tag b mod 4 = 0 -> False.
Proof.
  intros Hb. rewrite (index_tag_eq b Hb).
  replace (4 * b + 3) with (3 + b * 4) by lia. rewrite Z_mod_plus_full. discriminate.
Qed.

Lemma remove_in_branch s (r : Z) fuel (t : tree) :
  forall par,
    shape (st_items s) par t -> NoDup (nodes t) -> r ∈ nodes t ->
    linked s par (root t) -> par <> nullptr -> par ∉ nodes t ->
    (height t <= S fuel)%nat ->
    exists s',
      trieremove fuel r s = Some (tt, s') /\
      st_this s' = st_this s /\
      trie_count (st_head s') = (trie_count (st_head s) - 1) mod 2 ^ index_type_bits /\
      relinked s s' par (root t) (root (tremove (nobble_dir s) r t)) /\
      shape (st_items s') par (tremove (nobble_dir s) r t) /\
      (forall x : Z, x ∉ nodes t -> x <> par -> st_items s' !! x = st_items s !! x) /\
      (forall x : Z, ring_view <$> (st_items s' !! x) = ring_view <$> (st_items s !! x)).
Proof.
  induction t as [|p t0 IH0 t1 IH1]; intros par Hsh Hnd Hin Hlink Hpar0 Hparn Hfuel;
    [inversion Hin|].
  destruct (decide (p = r)) as [->|Hpr].
  { cbn [tremove]. rewrite Z.eqb_refl. apply remove_at_root; assumption. }
  pose proof Hsh as Hshape. cbn [shape] in Hsh.
  destruct Hsh as (Hp & Hal & (vp & Hvp & Hpar & Hch & Hsib) & Hs0 & Hs1).
  pose proof Hnd as Hnodup. cbn [nodes] in Hnd, Hin, Hparn. cbn [height] in Hfuel.
  apply NoDup_cons in Hnd as [Hpn Hnd]. apply NoDup_app in Hnd as (Hnd0 & Hdisj & Hnd1).
  rewrite not_elem_of_app in Hpn. destruct Hpn as [Hp0 Hp1].
  rewrite not_elem_of_cons, not_elem_of_app in Hparn. destruct Hparn as (Hparp & Hpar0' & Hpar1').
  apply elem_of_cons in Hin as [E|Hin]; [congruence|].
  assert (Hc : exists c : bool, r ∈ nodes (side c t0 t1) /\ r ∉ nodes (side (negb c) t0 t1)).
  { apply elem_of_app in Hin as [Hin|Hin].
    - exists false. cbn. split; [exact Hin|]. exact (Hdisj _ Hin).
    - exists true. cbn. split; [exact Hin|]. intros H0. exact (Hdisj _ H0 Hin). }
  destruct Hc as (c & Hrc & Hro).
  rewrite (tremove_side _ c r p t0 t1 Hpr Hro).
  assert (Hroots : root (side c t0 t1) <> nullptr /\
                   (fst (trie_child vp) =? root (side c t0 t1)) = negb c).
  { rewrite Hch. cbn [fst]. destruct c; cbn [side negb] in *.
    - split; [destruct t1; [inversion Hrc|cbn; cbn in Hs1; tauto]|].
      apply Z.eqb_neq. intros E.
      apply (root_not_in _ _ t0 t1 Hs1 Hdisj). rewrite E.
      apply root_in_nodes. intros ->. inversion Hrc.
    - split; [destruct t0; [inversion Hrc|cbn; cbn in Hs0; tauto]|]. apply Z.eqb_refl. }
  destruct Hroots as [Hroot0 Hside].
  assert (IH : exists s',
      trieremove fuel r s = Some (tt, s') /\
      st_this s' = st_this s /\
      trie_count (st_head s') = (trie_count (st_head s) - 1) mod 2 ^ index_type_bits /\
      relinked s s' p (root (side c t0 t1)) (root (tremove (nobble_dir s) r (side c t0 t1))) /\
      shape (st_items s') p (tremove (nobble_dir s) r (side c t0 t1)) /\
      (forall x : Z, x ∉ nodes (side c t0 t1) -> x <> p -> st_items s' !! x = st_items s !! x) /\
      (forall x : Z, ring_view <$> (st_items s' !! x) = ring_view <$> (st_items s !! x))).
  { assert (Hl : linked s p (root (side c t0 t1))).
    { right. split; [exact Hal|]. exists vp. split; [exact Hvp|].
      rewrite Hside, negb_involutive, Hch. destruct c; reflexivity. }
    destruct c; cbn [side] in *; [apply IH1|apply IH0]; auto; lia. }
  destruct IH as (s' & Hrun & Hthis & Hcnt & Hrel & Hsh' & Hfr & Hrg).
  set (w' := tremove (nobble_dir s) r (side c t0 t1)) in *.
  destruct Hrel as [(bx & Hb & Hpb & _) | (_ & Hchl & vp' & Hvp' & Hp')].
  { exfalso. rewrite Hpb in Hal. exact (index_tag_unaligned bx Hb Hal). }
  rewrite Hvp in Hvp'. injection Hvp' as <-. rewrite Hside, negb_involutive in Hp'.
  assert (Hparfr : st_items s' !! par = st_items s !! par).
  { apply Hfr; [|exact Hparp]. destruct c; cbn; assumption. }
  exists s'. split; [exact Hrun|]. split; [exact Hthis|]. split; [exact Hcnt|].
  assert (Hrt : root (with_side c p t0 t1 w') = p) by (destruct c; reflexivity).
  rewrite Hrt. cbn [root] in *.
  split; [|split; [|split; [|exact Hrg]]].
  - destruct Hlink as [(bx & Hb & Hpb & Hslot) | (Hpal & vq & Hvq & Hq)].
    + left. exists bx. split; [exact Hb|]. split; [exact Hpb|]. split; [|exact Hparfr].
      rewrite Hchl. symmetry. apply list_insert_id.
      unfold head_accessors.child in Hslot.
      destruct (bx <? 0); [discriminate|exact Hslot].
    + right. split; [exact Hpal|]. split; [exact Hchl|]. exists vq. split; [exact Hvq|].
      rewrite Hparfr, Hvq. f_equal. symmetry. apply set_child_same. exact Hq.
  - apply (shape_with_side _ _ _ _ _ _ _ _ Hp Hal Hp'); [exact Hpar| |exact Hsib|exact Hsh'|].
    + unfold item_accessors.set_child. cbn [trie_child]. rewrite Hch. reflexivity.
    + apply (shape_frame (st_items s)).
      * intros x Hx. apply Hfr.
        -- destruct c; cbn [side negb] in *; [exact (Hdisj _ Hx)|].
           intros H0. exact (Hdisj _ H0 Hx).
        -- intros ->. destruct c; cbn [side negb] in *; tauto.
      * destruct c; cbn [side negb]; assumption.
  - intros x Hx Hxp. cbn [nodes] in Hx.
    rewrite not_elem_of_cons, not_elem_of_app in Hx.
    apply Hfr; [destruct c; cbn; tauto|tauto].
Qed.

End remove_on_wf.

(** ** What removal does to a branch *)

Lemma nobble_nodes (d : bool) (w : tree) :
  w <> Leaf -> nodes w ≡ₚ fst (nobble d w) :: nodes (snd (nobble d w)).
Proof.
  induction w as [|q w0 IH0 w1 IH1]; intros Hne; [done|].
  rewrite nobble_pick. destruct (pick d w0 w1) as [c|] eqn:Hpick.
  - cbn [fst snd]. apply nodes_with_side. apply pick_Some in Hpick.
    destruct c; cbn [side] in *; auto.
  - apply pick_None in Hpick as [-> ->]. reflexivity.
Qed.

Lemma nobble_root (d : bool) (r : Z) (u0 u1 : tree) :
  u0 <> Leaf \/ u1 <> Leaf ->
  exists c, pick d u0 u1 = Some c /\
    snd (nobble d (Node r u0 u1)) =
      with_side c r u0 u1 (snd (nobble d (side c u0 u1))).
Proof.
  intros Hne. destruct (pick_is_Some d u0 u1 Hne) as [c Hc]. exists c.
  split; [exact Hc|]. rewrite nobble_pick, Hc. reflexivity.
Qed.

Lemma nobble_subset (d : bool) (w : tree) (x : Z) :
  x ∈ nodes (snd (nobble d w)) -> x ∈ nodes w.
Proof.
  destruct w as [|q w0 w1]; [cbn; auto|].
  intros Hx. rewrite (nobble_nodes d (Node q w0 w1)) by done.
  apply elem_of_cons. auto.
Qed.

Lemma keys_ok_nobble (key : Z -> Z) (d : bool) (w : tree) :
  forall kb, keys_ok key kb w -> keys_ok key kb (snd (nobble d w)).
Proof.
  induction w as [|q w0 IH0 w1 IH1]; intros kb Hk; [exact I|].
  rewrite nobble_pick. destruct (pick d w0 w1) as [c|]; [|exact I].
  cbn [snd]. cbn [keys_ok] in Hk. destruct Hk as (Hk0 & Hk1 & Hko0 & Hko1).
  rewrite Forall_forall in Hk0, Hk1.
  destruct c; cbn [with_side side keys_ok].
  - split; [rewrite Forall_forall; exact Hk0|]. split; [|split; [exact Hko0|auto]].
    rewrite Forall_forall. intros x Hx. apply Hk1. eapply nobble_subset; eauto.
  - split; [|split; [rewrite Forall_forall; exact Hk1|split; [auto|exact Hko1]]].
    rewrite Forall_forall. intros x Hx. apply Hk0. eapply nobble_subset; eauto.
Qed.

Lemma replace_root_nodes (d : bool) (r : Z) (u0 u1 : tree) :
  nodes (Node r u0 u1) ≡ₚ r :: nodes (replace_root d (Node r u0 u1)).
Proof.
  destruct (classic_leaf u0 u1) as [[-> ->] | Hne]; [reflexivity|].
  rewrite (replace_root_node d r u0 u1 Hne).
  rewrite (nobble_nodes d (Node r u0 u1)) by done.
  destruct (nobble_root d r u0 u1 Hne) as (c & _ & ->).
  destruct c; cbn [with_side nodes]; apply Permutation_swap.
Qed.

Lemma keys_ok_replace_root (key : Z -> Z) (d : bool) (u : tree) (kb : Z) :
  keys_ok key kb u -> keys_ok key kb (replace_root d u).
Proof.
  destruct u as [|r u0 u1]; [auto|]. intros Hk.
  destruct (classic_leaf u0 u1) as [[-> ->] | Hne]; [exact I|].
  rewrite (replace_root_node d r u0 u1 Hne).
  pose proof (keys_ok_nobble key d _ kb Hk) as Hk'.
  destruct (snd (nobble d (Node r u0 u1))); [exact I|exact Hk'].
Qed.

Lemma tremove_nodes (d : bool) (r : Z) (t : tree) :
  r ∈ nodes t -> NoDup (nodes t) -> nodes t ≡ₚ r :: nodes (tremove d r t).
Proof.
  induction t as [|p t0 IH0 t1 IH1]; intros Hin Hnd; [inversion Hin|].
  cbn [tremove]. destruct (Z.eqb_spec p r) as [->|Hpr]; [apply replace_root_nodes|].
  cbn [nodes] in *. apply elem_of_cons in Hin as [E|Hin]; [congruence|].
  apply NoDup_cons in Hnd as [Hpn Hnd]. apply NoDup_app in Hnd as (Hnd0 & Hdisj & Hnd1).
  apply elem_of_app in Hin as [Hin|Hin].
  - rewrite (tremove_absent d r t1) by (exact (Hdisj _ Hin)).
    rewrite (IH0 Hin Hnd0) at 1. cbn. apply Permutation_swap.
  - rewrite (tremove_absent d r t0) by (intros H0; exact (Hdisj _ H0 Hin)).
    rewrite (IH1 Hin Hnd1) at 1. rewrite <- Permutation_middle. apply Permutation_swap.
Qed.

Lemma tremove_subset (d : bool) (r : Z) (t : tree) (x : Z) :
  x ∈ nodes (tremove d r t) -> x ∈ nodes t.
Proof.
  induction t as [|p t0 IH0 t1 IH1]; [auto|].
  cbn [tremove]. destruct (Z.eqb_spec p r) as [->|Hpr].
  - intros Hx. rewrite (replace_root_nodes d r t0 t1). apply elem_of_cons. auto.
  - cbn [nodes]. rewrite !elem_of_cons, !elem_of_app. tauto.
Qed.

Lemma keys_ok_tremove (key : Z -> Z) (d : bool) (r : Z) (t : tree) :
  forall kb, keys_ok key kb t -> keys_ok key kb (tremove d r t).
Proof.
  induction t as [|p t0 IH0 t1 IH1]; intros kb Hk; [exact I|].
  cbn [tremove]. destruct (Z.eqb_spec p r) as [->|Hpr]; [apply keys_ok_replace_root; exact Hk|].
  cbn [keys_ok] in *. destruct Hk as (Hk0 & Hk1 & Hko0 & Hko1).
  rewrite Forall_forall in Hk0, Hk1.
  split; [|split; [|split; auto]]; rewrite Forall_forall; intros x Hx;
    [apply Hk0|apply Hk1]; eapply tremove_subset; eauto.
Qed.

Section erase_on_wf.
Context {TP : TrieParams}.

Lemma attached_remove_perm (ts : list tree) (b : nat) (t t' : tree) (r : Z) :
  ts !! b = Some t -> nodes t ≡ₚ r :: nodes t' ->
  attached ts ≡ₚ r :: attached (<[b := t']> ts).
Proof.
  unfold attached. revert b. induction ts as [|u ts IH]; intros b Hb Hperm; [discriminate|].
  destruct b as [|b]; cbn in *.
  - injection Hb as ->. rewrite Hperm. reflexivity.
  - rewrite (IH b Hb Hperm). rewrite <- Permutation_middle. reflexivity.
Qed.

Lemma rings_keys (s s' : state) :
  (forall q : Z, ring_view <$> (st_items s' !! q) = ring_view <$> (st_items s !! q)) ->
  forall q : Z, key_at s' q = key_at s q.
Proof.
  intros H. apply key_at_ext. intros q. specialize (H q).
  unfold ring_view in H.
  destruct (st_items s' !! q), (st_items s !! q); cbn in *; congruence.
Qed.

Lemma trieremove_spec s ts (r : Z) fuel :
  wf s ts -> r ∈ attached ts ->
  Forall (fun t => (height t <= S fuel)%nat) ts ->
  exists s' ts',
    trieremove fuel r s = Some (tt, s') /\ remove_post r s ts s' ts'.
Proof.
  intros Hwf Hin Hfuel.
  apply elem_of_attached in Hin as (b & t & Hb & Hrt).
  pose proof (wf_branch _ _ Hwf _ _ Hb) as [Hslot Hshape Hkeys Htop].
  pose proof (wf_bits _ _ Hwf) as Hbits.
  pose proof (wf_count _ _ Hwf) as Hcount.
  pose proof (lookup_lt_Some _ _ _ Hb) as Hblt.
  assert (HB : 0 <= Z.of_nat b < 2 ^ 30) by lia.
  assert (Hparn : index_tag (Z.of_nat b) ∉ nodes t).
  { intros Hx. destruct (shape_allocated _ _ _ _ Hshape Hx) as (_ & Hal & _).
    exact (index_tag_unaligned _ HB Hal). }
  destruct (remove_in_branch s r fuel t (index_tag (Z.of_nat b)))
    as (s' & Hrun & Hthis & Hcnt & Hrel & Hsh' & Hfr & Hrg); try assumption.
  { eapply wf_branch_nodup; eauto. }
  { left. exists (Z.of_nat b). auto. }
  { apply index_tag_nonnull. exact HB. }
  { rewrite Forall_forall in Hfuel. apply Hfuel. eapply list_elem_of_lookup_2; eauto. }
  set (t' := tremove (nobble_dir s) r t) in *.
  assert (Hchl : trie_children (st_head s') = <[b := root t']> (trie_children (st_head s))).
  { destruct Hrel as [(bx & Hbx & Hpb & Hc & _) | (Hal & _)].
    - rewrite (index_tag_eq _ HB), (index_tag_eq _ Hbx) in Hpb.
      assert (bx = Z.of_nat b) by lia. subst bx. rewrite Nat2Z.id in Hc. exact Hc.
    - exfalso. exact (index_tag_unaligned _ HB Hal). }
  pose proof (rings_keys s s' Hrg) as Hkey.
  pose proof (tremove_nodes (nobble_dir s) r t Hrt (wf_branch_nodup _ _ _ _ Hwf Hb)) as Hperm.
  fold t' in Hperm.
  pose proof (attached_remove_perm ts b t t' r Hb Hperm) as Hatt.
  pose proof (wf_size _ _ Hwf) as Hsize.
  assert (Hlen : (1 <= length (attached ts))%nat).
  { rewrite Hatt. cbn. lia. }
  assert (Hcnt' : trie_count (st_head s') = trie_count (st_head s) - 1).
  { rewrite Hcnt. apply Z.mod_small. unfold head_accessors.max_size in Hsize. lia. }
  exists s', (<[b := t']> ts). split; [exact Hrun|].
  split; [|exact Hthis|exact Hcnt'|rewrite Hchl; apply length_insert|exact Hrg|exact Hatt].
  split.
  - exact Hbits.
  - rewrite Hchl, length_insert. apply (wf_slots _ _ Hwf).
  - rewrite length_insert. exact Hcount.
  - intros b' u Hb'.
    destruct (decide (b' = b)) as [->|Hne].
    + rewrite list_lookup_insert_eq in Hb' by exact Hblt. injection Hb' as <-.
      split.
      * unfold head_accessors.child. rewrite Hchl.
        destruct (Z.ltb_spec (Z.of_nat b) 0); [lia|]. rewrite Nat2Z.id.
        apply list_lookup_insert_eq.
        pose proof (wf_slots _ _ Hwf). lia.
      * exact Hsh'.
      * apply (keys_ok_ext (key_at s)); [intros; apply Hkey|].
        apply keys_ok_tremove. exact Hkeys.
      * rewrite Forall_forall in *. intros x Hx. rewrite Hkey. apply Htop.
        eapply tremove_subset; eauto.
    + rewrite list_lookup_insert_ne in Hb' by congruence.
      apply (branch_ok_frame s); [exact (wf_branch _ _ Hwf _ _ Hb')| |].
      * unfold head_accessors.child. rewrite Hchl.
        destruct (Z.of_nat b' <? 0); [reflexivity|].
        rewrite Nat2Z.id. apply list_lookup_insert_ne. lia.
      * intros q Hq. apply Hfr.
        -- exact (wf_branches_disjoint s ts b' b u t q Hwf Hb' Hb Hne Hq).
        -- intros ->.
           destruct (shape_allocated _ _ _ _ (br_shape _ _ _ (wf_branch _ _ Hwf _ _ Hb')) Hq)
             as (_ & Hal & _).
           exact (index_tag_unaligned _ HB Hal).
  - pose proof (wf_distinct _ _ Hwf) as Hd.
    rewrite Hatt in Hd. rewrite fmap_cons in Hd. apply NoDup_cons in Hd as [_ Hd].
    erewrite list_fmap_ext; [exact Hd|]. intros i x _. apply Hkey.
  - rewrite Hcnt'. rewrite Hatt in Hsize. cbn [length] in Hsize. lia.
Qed.

End erase_on_wf.

(** * Independence of the nobble direction *)

Section refinement_proofs.
Context {TP : TrieParams}.

Lemma branch_in_attached (ts : list tree) (t : tree) :
  t ∈ ts -> (length (nodes t) <= length (attached ts))%nat.
Proof.
  unfold attached. induction ts as [|u ts IH]; intros Hin; [inversion Hin|].
  cbn. rewrite length_app. apply elem_of_cons in Hin as [->|Hin]; [lia|].
  specialize (IH Hin). lia.
Qed.

Lemma wf_heights s ts (fuel : nat) :
  wf s ts -> (Z.to_nat head_accessors.max_size < fuel)%nat ->
  Forall (fun t => (height t < fuel)%nat) ts.
Proof.
  intros Hwf Hfuel. rewrite Forall_forall. intros t Ht.
  pose proof (height_le_nodes t). pose proof (branch_in_attached ts t Ht).
  pose proof (wf_size _ _ Hwf). lia.
Qed.

Lemma existsb_eqb (p : Z) (l : list Z) : existsb (Z.eqb p) l = true <-> p ∈ l.
Proof.
  rewrite existsb_exists. split.
  - intros (x & Hx & E). apply Z.eqb_eq in E. subst. apply list_elem_of_In. exact Hx.
  - intros Hp. exists p. split; [apply list_elem_of_In; exact Hp|apply Z.eqb_refl].
Qed.

Lemma key_eqb_spec s (k y : Z) :
  is_Some (st_items s !! y) -> key_eqb (keys_of s) k y = true <-> key_at s y = k.
Proof.
  intros [v Hv]. unfold key_eqb, keys_of, key_at. rewrite Hv. cbn. apply Z.eqb_eq.
Qed.

Lemma attached_allocated s ts (y : Z) : wf s ts -> y ∈ attached ts -> is_Some (st_items s !! y).
Proof.
  intros Hwf Hy. apply elem_of_attached in Hy as (b & t & Hb & Hy).
  apply (shape_allocated _ _ _ _ (br_shape _ _ _ (wf_branch _ _ Hwf _ _ Hb)) Hy).
Qed.

Lemma shape_item m par t (y : Z) :
  shape m par t -> y ∈ nodes t ->
  exists v, m !! y = Some v /\ snd (trie_sibling v) = y.
Proof.
  revert par. induction t as [|p t0 IH0 t1 IH1]; intros par Hsh Hy; [inversion Hy|].
  cbn [shape] in Hsh. destruct Hsh as (Hp & Hal & (v & Hv & _ & _ & Hsib) & Hs0 & Hs1).
  cbn in Hy. apply elem_of_cons in Hy as [->|Hy]; [eauto|].
  apply elem_of_app in Hy as [Hy|Hy]; eauto.
Qed.

Lemma attached_key_inj s ts (x y : Z) :
  wf s ts -> x ∈ attached ts -> y ∈ attached ts -> key_at s x = key_at s y -> x = y.
Proof.
  intros Hwf Hx Hy E. pose proof (wf_distinct _ _ Hwf) as Hd.
  apply list_elem_of_lookup in Hx as [i Hi]. apply list_elem_of_lookup in Hy as [j Hj].
  assert (i = j); [|congruence].
  apply (NoDup_lookup _ i j (key_at s x) Hd); rewrite list_lookup_fmap.
  - rewrite Hi. reflexivity.
  - rewrite Hj. cbn. congruence.
Qed.


Lemma key_eqb_ext (key key' : Z -> option Z) (k : Z) (l : list Z) :
  (forall q : Z, key q = key' q) ->
  List.filter (key_eqb key k) l = List.filter (key_eqb key' k) l /\
  existsb (key_eqb key k) l = existsb (key_eqb key' k) l.
Proof.
  intros H.
  assert (E : forall y, key_eqb key k y = key_eqb key' k y).
  { intros y. unfold key_eqb. rewrite H. reflexivity. }
  induction l as [|y l [IH1 IH2]]; [auto|]. cbn [List.filter existsb].
  rewrite E, IH1, IH2. split; reflexivity.
Qed.

Lemma lookup_key_spec s ts key (present : list Z) (k x : Z) :
  wf s ts -> attached ts ≡ₚ present -> (forall q : Z, keys_of s q = key q) ->
  (x ∈ attached ts /\ key_at s x = k) \/
  (x = nullptr /\ forall y : Z, y ∈ attached ts -> key_at s y <> k) ->
  lookup_key key present k = x.
Proof.
  intros Hwf Hperm Hkey Hx. unfold lookup_key.
  rewrite <- (proj1 (key_eqb_ext (keys_of s) key k present Hkey)).
  assert (Hin : forall y : Z, In y (List.filter (key_eqb (keys_of s) k) present) ->
                          y ∈ attached ts /\ key_at s y = k).
  { intros y Hy. apply filter_In in Hy as [Hy E]. apply list_elem_of_In in Hy.
    rewrite <- Hperm in Hy. split; [exact Hy|].
    apply key_eqb_spec; [|exact E]. eapply attached_allocated; eauto. }
  destruct (List.filter (key_eqb (keys_of s) k) present) as [|y l] eqn:Hf.
  - destruct Hx as [[Hx E]|[-> _]]; [|reflexivity]. exfalso.
    assert (In x (List.filter (key_eqb (keys_of s) k) present)); [|rewrite Hf in *; auto].
    apply filter_In. split.
    + apply list_elem_of_In. rewrite <- Hperm. exact Hx.
    + apply key_eqb_spec; [eapply attached_allocated; eauto|exact E].
  - cbn [hd]. destruct (Hin y (or_introl eq_refl)) as [Hy E].
    destruct Hx as [[Hx E']|[_ Hnone]].
    + apply (attached_key_inj s ts y x Hwf Hy Hx). congruence.
    + exfalso. exact (Hnone y Hy E).
Qed.

Lemma existsb_key s ts key (present : list Z) (k : Z) :
  wf s ts -> attached ts ≡ₚ present -> (forall q : Z, keys_of s q = key q) ->
  existsb (key_eqb key k) present = true <->
  exists y : Z, y ∈ attached ts /\ key_at s y = k.
Proof.
  intros Hwf Hperm Hkey.
  rewrite <- (proj2 (key_eqb_ext (keys_of s) key k present Hkey)).
  rewrite existsb_exists. split.
  - intros (y & Hy & E). apply list_elem_of_In in Hy. rewrite <- Hperm in Hy.
    exists y. split; [exact Hy|]. apply key_eqb_spec; [|exact E].
    eapply attached_allocated; eauto.
  - intros (y & Hy & E). exists y. split.
    + apply list_elem_of_In. rewrite <- Hperm. exact Hy.
    + apply key_eqb_spec; [eapply attached_allocated; eauto|exact E].
Qed.

Lemma filter_remove (p : Z) (l l' : list Z) :
  NoDup l -> l ≡ₚ p :: l' -> l' ≡ₚ List.filter (fun y => negb (y =? p)) l.
Proof.
  intros Hnd Hperm.
  assert (Hnd' : NoDup (p :: l')) by (rewrite <- Hperm; exact Hnd).
  apply NoDup_cons in Hnd' as [Hp Hnd'].
  apply NoDup_Permutation;
    [exact Hnd'|apply NoDup_ListNoDup, List.NoDup_filter, NoDup_ListNoDup; exact Hnd|].
  intros x. split.
  - intros Hx. apply list_elem_of_In, filter_In. split.
    + apply list_elem_of_In. rewrite Hperm. apply elem_of_cons. auto.
    + apply negb_true_iff, Z.eqb_neq. intros ->. exact (Hp Hx).
  - intros Hx. apply list_elem_of_In, filter_In in Hx as [Hx Hne].
    apply list_elem_of_In in Hx. rewrite Hperm in Hx.
    apply negb_true_iff, Z.eqb_neq in Hne.
    apply elem_of_cons in Hx as [E|Hx]; [contradiction|exact Hx].
Qed.

Lemma insert_refines key fuel (p : Z) s a x a' :
  models key s a ->
  abs_op key key_type_bits head_accessors.max_size (OpInsert p) a = Some (x, a') ->
  (Z.to_nat head_accessors.max_size < fuel)%nat ->
  exists s', run_op fuel (OpInsert p) s = Some (x, s') /\ models key s' a'.
Proof.
  intros (ts & Hwf & Hperm & Hcnt & Hkey) Habs Hfuel.
  destruct a as [cnt present]. cbn [fst snd] in *. unfold abs_op in Habs. cbn [fst snd] in Habs.
  destruct (key p) as [k|] eqn:Hkp; [|discriminate].
  destruct (negb (p =? nullptr) && (p mod 4 =? 0) && (0 <=? k) && (k <? 2 ^ key_type_bits) &&
            negb (existsb (Z.eqb p) present)) eqn:Hc; [|discriminate].
  repeat (apply andb_prop in Hc as [Hc ?]).
  apply negb_true_iff, Z.eqb_neq in Hc.
  assert (Hal : p mod 4 = 0) by (apply Z.eqb_eq; assumption).
  assert (Hk : 0 <= k < 2 ^ key_type_bits) by lia.
  assert (Hfresh : p ∉ attached ts).
  { rewrite Hperm. intros Hin. apply existsb_eqb in Hin.
    match goal with H : negb _ = true |- _ => rewrite Hin in H; discriminate H end. }
  rewrite <- Hkey in Hkp. unfold keys_of in Hkp.
  destruct (st_items s !! p) as [v|] eqn:Hv; [|discriminate]. cbn in Hkp.
  injection Hkp as Hvk.
  pose proof (wf_size _ _ Hwf) as Hsize.
  pose proof (wf_heights s ts fuel Hwf Hfuel) as Hh.
  destruct (Z.ltb_spec cnt head_accessors.max_size) as [Hlt|Hge].
  - injection Habs as <- <-.
    destruct (insert_on_wf s ts p v fuel) as (s' & ts' & Hrun & Hpost); try assumption.
    { rewrite Hvk. exact Hk. }
    { unfold head_accessors.size. lia. }
    { eapply Forall_impl; [exact Hh|]. cbn. intros. lia. }
    exists s'. split.
    + unfold run_op. rewrite (bind_run _ _ _ _ _ Hrun). reflexivity.
    + destruct Hpost as [Hwf' _ Hcnt' _ _ Hkeys' (xo & Hx & _)].
      exists ts'. cbn [fst snd]. split; [exact Hwf'|]. split; [|split].
      * rewrite Hvk in Hx.
        destruct (existsb (key_eqb key k) present) eqn:Hex.
        -- apply (existsb_key s ts key present k Hwf Hperm Hkey) in Hex as (y & Hy & E).
           destruct xo as [x0|].
           ++ destruct Hx as (_ & _ & ->). exact Hperm.
           ++ exfalso. exact (proj1 Hx y Hy E).
        -- destruct xo as [x0|].
           ++ exfalso. destruct Hx as (Hx0 & E & _).
              assert (Ht : existsb (key_eqb key k) present = true); [|congruence].
              apply (existsb_key s ts key present k Hwf Hperm Hkey). eauto.
           ++ destruct Hx as [_ Hx]. rewrite Hx, Hperm. reflexivity.
      * rewrite Hcnt'. rewrite Hcnt. apply Z.mod_small.
        unfold head_accessors.max_size in *. lia.
      * intros q. unfold keys_of. rewrite Hkeys'. apply Hkey.
  - injection Habs as <- <-.
    exists s. split.
    + unfold run_op. erewrite bind_run; [|apply insert_when_full; unfold head_accessors.size; lia].
      reflexivity.
    + exists ts. auto.
Qed.

Lemma inc_on_wf s ts (p : Z) fuel :
  wf s ts -> p ∈ attached ts -> Forall (fun t => (height t < fuel)%nat) ts ->
  exists it, _inc fuel (Iterator (st_this s) p) s = Some (it, s).
Proof.
  intros Hwf Hp Hh. unfold _inc. cbn [_parent _p].
  destruct (Z.eqb_spec (st_this s) nullptr) as [E|Hthis]; cbn [negb andb].
  { eexists. reflexivity. }
  pose proof (attached_nonnull s ts p Hwf Hp) as Hp0.
  rewrite (proj2 (Z.eqb_neq p nullptr) Hp0). cbn [negb].
  apply list_elem_of_split in Hp as (pre & rest & Hsplit).
  pose proof (trienext_spec s ts pre p rest fuel Hwf Hsplit Hh) as Hnext.
  unfold bind, this_. rewrite Z.eqb_refl, Hnext. eexists. reflexivity.
Qed.

Lemma erase_refines key fuel (p : Z) s a x a' :
  models key s a ->
  abs_op key key_type_bits head_accessors.max_size (OpErase p) a = Some (x, a') ->
  (Z.to_nat head_accessors.max_size < fuel)%nat ->
  exists s', run_op fuel (OpErase p) s = Some (x, s') /\ models key s' a'.
Proof.
  intros (ts & Hwf & Hperm & Hcnt & Hkey) Habs Hfuel.
  destruct a as [cnt present]. cbn [fst snd] in *. unfold abs_op in Habs. cbn [fst snd] in Habs.
  destruct (existsb (Z.eqb p) present) eqn:Hin; [|discriminate].
  injection Habs as <- <-.
  apply existsb_eqb in Hin. rewrite <- Hperm in Hin.
  pose proof (wf_heights s ts fuel Hwf Hfuel) as Hh.
  destruct (inc_on_wf s ts p fuel Hwf Hin Hh) as (it & Hinc).
  destruct (trieremove_spec s ts p fuel Hwf Hin) as (s' & ts' & Hrun & Hpost).
  { eapply Forall_impl; [exact Hh|]. cbn. intros. lia. }
  assert (Herase : erase fuel (Iterator (st_this s) p) s = Some (Iterator (st_this s) p, s')).
  { unfold erase. rewrite (bind_run _ _ _ _ _ Hinc). cbn [_p].
    rewrite (bind_run _ _ _ _ _ Hrun). reflexivity. }
  exists s'. split.
  - unfold run_op. unfold this_, bind at 1. rewrite (bind_run _ _ _ _ _ Herase). reflexivity.
  - destruct Hpost as [Hwf' _ Hcnt' _ Hrg Hatt].
    exists ts'. cbn [fst snd]. split; [exact Hwf'|]. split; [|split].
    + apply filter_remove.
      * rewrite <- Hperm. eapply wf_attached_nodup; eauto.
      * rewrite <- Hperm. exact Hatt.
    + rewrite Hcnt', Hcnt. reflexivity.
    + intros q. rewrite <- Hkey. unfold keys_of. specialize (Hrg q).
      unfold ring_view in Hrg.
      destruct (st_items s' !! q), (st_items s !! q); cbn in *; congruence.
Qed.

Lemma find_refines key fuel (k : Z) s a x a' :
  models key s a ->
  abs_op key key_type_bits head_accessors.max_size (OpFind k) a = Some (x, a') ->
  (Z.to_nat head_accessors.max_size < fuel)%nat ->
  exists s', run_op fuel (OpFind k) s = Some (x, s') /\ models key s' a'.
Proof.
  intros (ts & Hwf & Hperm & Hcnt & Hkey) Habs Hfuel.
  unfold abs_op in Habs.
  destruct ((0 <=? k) && (k <? 2 ^ key_type_bits)) eqn:Hk; [|discriminate].
  injection Habs as <- <-. apply andb_prop in Hk as [Hk0 Hk1].
  pose proof (wf_heights s ts fuel Hwf Hfuel) as Hh.
  destruct (triefind_spec s ts k fuel Hwf) as (y & Hrun & Hy); [lia| |].
  { eapply Forall_impl; [exact Hh|]. cbn. intros. lia. }
  rewrite (lookup_key_spec s ts key (snd a) k y Hwf Hperm Hkey Hy).
  exists s. split; [|exists ts; auto].
  assert (Hfind : find fuel k s = Some (Iterator (st_this s) y, s)).
  { unfold find. rewrite (bind_run _ _ _ _ _ Hrun).
    destruct (y =? nullptr) eqn:E; cbn [negb]; [|reflexivity].
    apply Z.eqb_eq in E. subst y. reflexivity. }
  unfold run_op. rewrite (bind_run _ _ _ _ _ Hfind). reflexivity.
Qed.

Lemma count_refines key fuel (k : Z) s a x a' :
  models key s a ->
  abs_op key key_type_bits head_accessors.max_size (OpCount k) a = Some (x, a') ->
  (Z.to_nat head_accessors.max_size < fuel)%nat ->
  exists s', run_op fuel (OpCount k) s = Some (x, s') /\ models key s' a'.
Proof.
  intros (ts & Hwf & Hperm & Hcnt & Hkey) Habs Hfuel.
  unfold abs_op in Habs.
  destruct ((0 <=? k) && (k <? 2 ^ key_type_bits)) eqn:Hk; [|discriminate].
  injection Habs as <- <-. apply andb_prop in Hk as [Hk0 Hk1].
  pose proof (wf_heights s ts fuel Hwf Hfuel) as Hh.
  destruct (triefind_spec s ts k fuel Hwf) as (y & Hrun & Hy); [lia| |].
  { eapply Forall_impl; [exact Hh|]. cbn. intros. lia. }
  rewrite (lookup_key_spec s ts key (snd a) k y Hwf Hperm Hkey Hy).
  exists s. split; [|exists ts; auto].
  assert (Hcount : count fuel k s = Some (if y =? nullptr then 0 else 1, s)).
  { unfold count. rewrite (bind_run _ _ _ _ _ Hrun).
    destruct Hy as [[Hy _]|[-> _]]; [|reflexivity].
    pose proof (attached_nonnull s ts y Hwf Hy) as Hy0.
    rewrite (proj2 (Z.eqb_neq y nullptr) Hy0). cbn [negb].
    apply elem_of_attached in Hy as (b & t & Hb & Hy).
    destruct (shape_item _ _ _ _ (br_shape _ _ _ (wf_branch _ _ Hwf _ _ Hb)) Hy)
      as (v & Hv & Hsib).
    run_get. unfold item_accessors.sibling. cbn [nth2]. rewrite Hsib.
    destruct fuel as [|fuel]; [lia|]. cbn [count_ring]. rewrite Z.eqb_refl. reflexivity. }
  unfold run_op. rewrite (bind_run _ _ _ _ _ Hcount). reflexivity.
Qed.

Lemma size_refines key fuel s a x a' :
  models key s a ->
  abs_op key key_type_bits head_accessors.max_size OpSize a = Some (x, a') ->
  exists s', run_op fuel OpSize s = Some (x, s') /\ models key s' a'.
Proof.
  intros (ts & Hwf & Hperm & Hcnt & Hkey) Habs.
  unfold abs_op in Habs. injection Habs as <- <-.
  exists s. split; [|exists ts; auto].
  unfold run_op, hget, bind, ret, head_accessors.size. rewrite Hcnt. reflexivity.
Qed.

Lemma run_ops_refine key fuel (os : list op) :
  (Z.to_nat head_accessors.max_size < fuel)%nat ->
  forall s a xs a',
    models key s a ->
    abs_ops key key_type_bits head_accessors.max_size os a = Some (xs, a') ->
    exists s', run_ops fuel os s = Some (xs, s') /\ models key s' a'.
Proof.
  intros Hfuel. induction os as [|o os IH]; intros s a xs a' Hm Habs.
  - cbn in Habs. injection Habs as <- <-. exists s. split; [reflexivity|exact Hm].
  - cbn [abs_ops] in Habs.
    destruct (abs_op key key_type_bits head_accessors.max_size o a) as [[x a1]|] eqn:Hstep;
      [|discriminate].
    destruct (abs_ops key key_type_bits head_accessors.max_size os a1) as [[xs1 a2]|] eqn:Hrest;
      [|discriminate].
    injection Habs as <- <-.
    assert (Hone : exists s1, run_op fuel o s = Some (x, s1) /\ models key s1 a1).
    { destruct o.
      - eapply insert_refines; eauto.
      - eapply erase_refines; eauto.
      - discriminate Hstep.
      - eapply find_refines; eauto.
      - eapply count_refines; eauto.
      - eapply size_refines; eauto.
      - discriminate Hstep. }
    destruct Hone as (s1 & Hrun1 & Hm1).
    destruct (IH s1 a1 xs1 a2 Hm1 Hrest) as (s2 & Hrun2 & Hm2).
    exists s2. split; [|exact Hm2].
    cbn [run_ops]. rewrite (bind_run _ _ _ _ _ Hrun1), (bind_run _ _ _ _ _ Hrun2).
    reflexivity.
Qed.
End refinement_proofs.

Lemma branch_ok_with_dir (TP : TrieParams) (d : Z) s b t :
  branch_ok (TP := TP) s b t <-> branch_ok (TP := with_dir TP d) s b t.
Proof. split; intros [H1 H2 H3 H4]; split; assumption. Qed.

Lemma wf_with_dir (TP : TrieParams) (d : Z) s ts :
  wf (TP := TP) s ts <-> wf (TP := with_dir TP d) s ts.
Proof.
  split; intros [H1 H2 H3 H4 H5 H6]; split; try assumption;
    intros b t Hb; apply (branch_ok_with_dir TP d); auto.
Qed.

Lemma models_with_dir (TP : TrieParams) (d : Z) key s a :
  models (TP := TP) key s a <-> models (TP := with_dir TP d) key s a.
Proof.
  split; intros (ts & Hwf & H); exists ts; (split; [|exact H]);
    apply (wf_with_dir TP d); exact Hwf.
Qed.

Lemma nobble_only_last_case (TP : TrieParams) (d1 d2 : Z) (fuel : nat) (r : Z) s v :
  st_items s !! r = Some v ->
  trie_parent v = nullptr \/ snd (trie_sibling v) <> r \/
  trie_child v = (nullptr, nullptr) ->
  trieremove (TP := with_dir TP d1) fuel r s = trieremove (TP := with_dir TP d2) fuel r s.
Proof.
  intros Hv Hcase. unfold trieremove.
  destruct (Z.eqb_spec r nullptr) as [->|Hr].
  { unfold bind, get, load. cbn. reflexivity. }
  run_get. run_get. symmetry. run_get. run_get. symmetry.
  unfold item_accessors.is_secondary_sibling.
  destruct (trie_parent v =? nullptr) eqn:Hsec; [reflexivity|].
  run_get. symmetry. run_get. symmetry.
  unfold item_accessors.sibling. cbn [nth2].
  destruct (snd (trie_sibling v) =? r) eqn:Hsib; cbn [negb]; [|reflexivity].
  run_get. run_get. symmetry. run_get. run_get. symmetry.
  unfold item_accessors.child. cbn [nth2].
  destruct Hcase as [E|[E|E]].
  - apply Z.eqb_neq in Hsec. contradiction.
  - apply Z.eqb_eq in Hsib. contradiction.
  - rewrite E. cbn [fst snd]. change (nullptr =? nullptr) with true. cbn [andb].
    reflexivity.
Qed.



(** * Duplicate keys *)

Section counted_once.
Context {TP : TrieParams}.

Lemma attached_key_range s ts (y : Z) :
  wf s ts -> y ∈ attached ts -> 0 <= key_at s y < 2 ^ key_type_bits.
Proof.
  intros Hwf Hy. apply elem_of_attached in Hy as (b & t & Hb & Hy).
  pose proof (br_top _ _ _ (wf_branch _ _ Hwf _ _ Hb)) as Ht.
  rewrite Forall_forall in Ht. apply (Ht y Hy).
Qed.

Lemma count_on_wf s ts (y : Z) fuel :
  wf s ts -> y ∈ attached ts ->
  (Z.to_nat head_accessors.max_size < fuel)%nat ->
  count fuel (key_at s y) s = Some (1, s).
Proof.
  intros Hwf Hy Hfuel.
  pose proof (wf_heights s ts fuel Hwf Hfuel) as Hh.
  destruct (triefind_spec s ts (key_at s y) fuel Hwf) as (x & Hrun & Hx).
  { eapply attached_key_range; eauto. }
  { eapply Forall_impl; [exact Hh|]. cbn. intros. lia. }
  destruct Hx as [[Hx E]|[_ Hnone]]; [|exfalso; exact (Hnone y Hy eq_refl)].
  assert (x = y) by (eapply attached_key_inj; eauto). subst x.
  unfold count. rewrite (bind_run _ _ _ _ _ Hrun).
  pose proof (attached_nonnull s ts y Hwf Hy) as Hy0.
  rewrite (proj2 (Z.eqb_neq y nullptr) Hy0). cbn [negb].
  apply elem_of_attached in Hy as (b & t & Hb & Hy).
  destruct (shape_item _ _ _ _ (br_shape _ _ _ (wf_branch _ _ Hwf _ _ Hb)) Hy)
    as (v & Hv & Hsib).
  run_get. unfold item_accessors.sibling. cbn [nth2]. rewrite Hsib.
  destruct fuel as [|fuel]; [lia|]. cbn [count_ring]. rewrite Z.eqb_refl. reflexivity.
Qed.

(** C4. As the code stands, a key inserted twice is counted once.  In a
    well-formed index that holds an item [x], so that [count] of its key
    is 1, the insert of a second item [r] with the same key succeeds and
    raises [size()] by one, but [count] of the key is still 1: the new
    item is linked to the first ([sibling[1]] of [r] is [x],
    [sibling[0]] of [x] is [r]) while [sibling[1]] of [x] still refers to
    [x] itself, so the ring is not closed through [r] and the walk of
    [count] from the primary stops at once. *)
Theorem duplicate_key_counted_once fuel s ts (x r : Z) v :
  wf s ts -> x ∈ attached ts ->
  r <> nullptr -> r mod 4 = 0 -> r ∉ attached ts ->
  st_items s !! r = Some v -> trie_key v = key_at s x ->
  head_accessors.size (st_head s) <> head_accessors.max_size ->
  (Z.to_nat head_accessors.max_size < fuel)%nat ->
  exists s',
    insert fuel r s = Some (Iterator (st_this s) r, s') /\
    head_accessors.size (st_head s') = head_accessors.size (st_head s) + 1 /\
    count fuel (key_at s x) s = Some (1, s) /\
    count fuel (key_at s x) s' = Some (1, s') /\
    get x (item_accessors.sibling true) s' = Some (x, s') /\
    get x (item_accessors.sibling false) s' = Some (r, s') /\
    get r (item_accessors.sibling true) s' = Some (x, s').
Proof.
  intros Hwf Hx Hr Hal Hfresh Hv Hkey Hsz Hfuel.
  pose proof (wf_heights s ts fuel Hwf Hfuel) as Hh.
  pose proof (attached_key_range s ts x Hwf Hx) as Hrange.
  pose proof (wf_size _ _ Hwf) as Hsize.
  destruct (insert_on_wf s ts r v fuel) as (s' & ts' & Hrun & Hpost); try assumption.
  { rewrite Hkey. exact Hrange. }
  { eapply Forall_impl; [exact Hh|]. cbn. intros. lia. }
  destruct Hpost as [Hwf' _ Hcnt' _ _ Hkeys' (xo & Hxo & Hrings)].
  rewrite Hkey in Hxo, Hrings.
  destruct xo as [x0|]; [|exfalso; exact (proj1 Hxo x Hx eq_refl)].
  destruct Hxo as (Hx0 & E & ->).
  assert (x0 = x) by (exact (attached_key_inj s ts x0 x Hwf Hx0 Hx E)). subst x0.
  pose proof (key_at_ext s s' Hkeys') as Hk'.
  pose proof (attached_nonnull s ts x Hwf Hx) as Hx0'.
  assert (Hxr : x <> r) by (intros ->; exact (Hfresh Hx)).
  pose proof Hx as Hx'. apply elem_of_attached in Hx' as (b & t & Hb & Hxt).
  destruct (shape_item _ _ _ _ (br_shape _ _ _ (wf_branch _ _ Hwf _ _ Hb)) Hxt)
    as (vx & Hvx & Hsib).
  exists s'. split; [exact Hrun|]. split; [|split; [|split]].
  - unfold head_accessors.size in *. rewrite Hcnt'. apply Z.mod_small.
    unfold head_accessors.max_size in *. lia.
  - eapply count_on_wf; eauto.
  - rewrite <- (Hk' x). eapply count_on_wf; eauto.
  - pose proof (Hrings x) as Rx. pose proof (Hrings r) as Rr.
    unfold rings_after_insert in Rx, Rr.
    destruct (decide (x = x)) as [_|]; [|congruence].
    destruct (decide (r = x)) as [|_]; [congruence|].
    destruct (decide (r = r)) as [_|]; [|congruence].
    rewrite Hvx in Rx, Rr. cbn in Rx, Rr.
    destruct (st_items s' !! x) as [vx'|] eqn:Hvx'; [|discriminate].
    destruct (st_items s' !! r) as [vr'|] eqn:Hvr'; [|discriminate].
    cbn in Rx, Rr. unfold ring_view in Rx, Rr.
    injection Rx as Rx _. injection Rr as Rr _.
    rewrite (get_run x (item_accessors.sibling true) s' vx' Hx0' Hvx'),
      (get_run x (item_accessors.sibling false) s' vx' Hx0' Hvx'),
      (get_run r (item_accessors.sibling true) s' vr' Hr Hvr').
    unfold item_accessors.sibling. rewrite Rx, Rr. cbn [nth2 fst snd].
    rewrite Hsib. auto.
Qed.
End counted_once.

Lemma duplicate_key_counted_once_witness :
  exists s',
    insert (TP := params8 0) 256 80 once_5 = Some (Iterator (st_this once_5) 80, s') /\
    head_accessors.size (st_head s') = head_accessors.size (st_head once_5) + 1 /\
    count (TP := params8 0) 256 (key_at once_5 64) once_5 = Some (1, once_5) /\
    count (TP := params8 0) 256 (key_at once_5 64) s' = Some (1, s') /\
    get 64 (item_accessors.sibling true) s' = Some (64, s') /\
    get 64 (item_accessors.sibling false) s' = Some (80, s') /\
    get 80 (item_accessors.sibling true) s' = Some (64, s').
Proof.
  apply (duplicate_key_counted_once (TP := params8 0) 256 once_5 branches_5 64 80 (fresh_item 5)).
  - apply wfb_sound. vm_compute. reflexivity.
  - apply (bool_decide_unpack _). vm_compute. reflexivity.
  - vm_compute. discriminate.
  - reflexivity.
  - apply (bool_decide_unpack _). vm_compute. reflexivity.
  - vm_compute. reflexivity.
  - vm_compute. reflexivity.
  - vm_compute. discriminate.
  - vm_compute. lia.
Defined.

(** * [erase] on a well-formed index *)

Section erase_total.
Context {TP : TrieParams}.

Lemma erase_on_wf fuel s ts (p : Z) (pre rest : list Z) :
  wf s ts -> attached ts = pre ++ p :: rest -> st_this s <> nullptr ->
  (Z.to_nat head_accessors.max_size < fuel)%nat ->
  exists s' ts',
    _inc fuel (Iterator (st_this s) p) s = Some (Iterator (st_this s) (hd nullptr rest), s) /\
    hd nullptr rest <> p /\
    erase fuel (Iterator (st_this s) p) s = Some (Iterator (st_this s) p, s') /\
    remove_post p s ts s' ts' /\ p ∉ attached ts'.
Proof.
  intros Hwf Hsplit Hthis Hfuel.
  pose proof (wf_heights s ts fuel Hwf Hfuel) as Hh.
  assert (Hp : p ∈ attached ts).
  { rewrite Hsplit. apply elem_of_app. right. apply elem_of_cons. auto. }
  pose proof (attached_nonnull s ts p Hwf Hp) as Hp0.
  pose proof (trienext_spec s ts pre p rest fuel Hwf Hsplit Hh) as Hnext.
  pose proof (inc_run fuel p _ s Hthis Hp0 Hnext) as Hinc.
  destruct (trieremove_spec s ts p fuel Hwf Hp) as (s' & ts' & Hrun & Hpost).
  { eapply Forall_impl; [exact Hh|]. cbn. intros. lia. }
  pose proof (wf_attached_nodup s ts Hwf) as Hnd.
  exists s', ts'. split; [exact Hinc|]. split; [|split; [|split; [exact Hpost|]]].
  - rewrite Hsplit in Hnd. apply NoDup_app in Hnd as (_ & _ & Hnd).
    apply NoDup_cons in Hnd as [Hpr _].
    destruct rest as [|y rest]; cbn [hd]; [congruence|].
    intros ->. apply Hpr. apply elem_of_cons. auto.
  - unfold erase. rewrite (bind_run _ _ _ _ _ Hinc). cbn [_p].
    rewrite (bind_run _ _ _ _ _ Hrun). reflexivity.
  - rewrite (rp_attached _ _ _ _ _ Hpost) in Hnd. apply NoDup_cons in Hnd as [Hpn _].
    exact Hpn.
Qed.

Lemma erase_absent_key_on_wf fuel s ts (k : Z) :
  wf s ts -> 0 <= k < 2 ^ key_type_bits ->
  (forall y : Z, y ∈ attached ts -> key_at s y <> k) ->
  (Z.to_nat head_accessors.max_size < fuel)%nat ->
  find fuel k s = Some (Iterator (st_this s) nullptr, s) /\ erase_key fuel k s = None.
Proof.
  intros Hwf Hk Hnone Hfuel.
  pose proof (wf_heights s ts fuel Hwf Hfuel) as Hh.
  destruct (triefind_spec s ts k fuel Hwf Hk) as (x & Hrun & Hx).
  { eapply Forall_impl; [exact Hh|]. cbn. intros. lia. }
  destruct Hx as [[Hx E]|[-> _]]; [exfalso; exact (Hnone x Hx E)|].
  assert (Hfind : find fuel k s = Some (Iterator (st_this s) nullptr, s)).
  { unfold find, bind. rewrite Hrun. reflexivity. }
  split; [exact Hfind|].
  unfold erase_key, bind at 1. rewrite Hfind. apply erase_null.
Qed.
End erase_total.

(** * More of the header

    The members the development above does not reach: the portable bit scan, the
    depth of the trie, how [insert], [erase], [clear], copying and [swap]
    compose, the backward half of the engine and the iterator
    operators. *)

(** ** The portable bit scan *)


Lemma smeared_start (v : Z) : 0 < v -> smeared (Z.log2 v) 1 v.
Proof.
  intros Hv. split.
  - intros j _ Hj. replace j with (Z.log2 v) by lia. apply Z.bit_log2. exact Hv.
  - intros j Hj. apply Z.bits_above_log2; lia.
Qed.

Lemma smeared_step (n m x : Z) :
  0 <= n -> 0 < m -> smeared n m x -> smeared n (2 * m) (Z.lor x (Z.shiftr x m)).
Proof.
  intros Hn Hm [Hset Hclear]. split.
  - intros j Hj0 Hj. rewrite Z.lor_spec, Z.shiftr_spec by lia.
    destruct (Z.lt_ge_cases (n - m) j).
    + rewrite (Hset j) by lia. reflexivity.
    + rewrite (Hset (j + m)) by lia. apply orb_true_r.
  - intros j Hj. rewrite Z.lor_spec, Z.shiftr_spec by lia.
    rewrite (Hclear j), (Hclear (j + m)) by lia. reflexivity.
Qed.

Lemma smeared_ones (n m x : Z) :
  0 <= n < m -> smeared n m x -> x = Z.ones (n + 1).
Proof.
  intros Hn [Hset Hclear]. apply Z.bits_inj'. intros j Hj.
  destruct (Z.lt_ge_cases n j).
  - rewrite (Hclear j) by lia. rewrite Z.ones_spec_high by lia. reflexivity.
  - rewrite (Hset j) by lia. rewrite Z.ones_spec_low by lia. reflexivity.
Qed.

Lemma smear_ones (w v : Z) :
  w = 32 \/ w = 64 -> 0 < v < 2 ^ w -> smear w v = Z.ones (Z.log2 v + 1).
Proof.
  intros Hw Hv.
  assert (Hn : 0 <= Z.log2 v < w).
  { split; [apply Z.log2_nonneg|]. apply Z.log2_lt_pow2; lia. }
  pose proof (smeared_start v ltac:(lia)) as H1.
  apply (smeared_step _ 1) in H1; [|lia..].
  apply (smeared_step _ 2) in H1; [|lia..].
  apply (smeared_step _ 4) in H1; [|lia..].
  apply (smeared_step _ 8) in H1; [|lia..].
  unfold smear. destruct Hw as [-> | ->]; cbn [Z.ltb Z.compare Pos.compare Pos.compare_cont].
  - apply (smeared_step _ 16) in H1; [|lia..].
    apply (smeared_ones _ 32); [lia|exact H1].
  - apply (smeared_step _ 16) in H1; [|lia..].
    apply (smeared_step _ 32) in H1; [|lia..].
    apply (smeared_ones _ 64); [lia|exact H1].
Qed.

Lemma count_leading_ones (w n : Z) :
  w = 32 \/ w = 64 -> 0 <= n < w -> count_leading w (Z.ones (n + 1)) = n.
Proof.
  intros Hw Hn.
  assert (Hall : forallb (fun k => count_leading w (Z.ones (Z.of_nat k + 1)) =? Z.of_nat k)
                   (seq 0 (Z.to_nat w)) = true).
  { destruct Hw as [-> | ->]; vm_compute; reflexivity. }
  rewrite forallb_forall in Hall.
  specialize (Hall (Z.to_nat n)). rewrite Z2Nat.id in Hall by lia.
  apply Z.eqb_eq, Hall. apply in_seq. lia.
Qed.

Lemma bitscanr_generic_log2 (w v : Z) :
  w = 32 \/ w = 64 -> 0 <= v < 2 ^ w -> bitscanr_generic w v = bitscanr v.
Proof.
  intros Hw Hv. unfold bitscanr_generic, bitscanr.
  destruct (Z.eqb_spec v 0) as [|Hv0]; [reflexivity|].
  assert (Hn : 0 <= Z.log2 v < w).
  { split; [apply Z.log2_nonneg|]. apply Z.log2_lt_pow2; lia. }
  rewrite (smear_ones w v Hw) by lia.
  rewrite (count_leading_ones w _ Hw Hn).
  apply Z.mod_small. unfold unsigned_bits. change (2 ^ 32) with 4294967296.
  destruct Hw; lia.
Qed.

(** X1. The portable branch of [bitscanr] (smear the highest set bit
    downwards, invert, count the set bits) computes, for a 32-bit and for
    a 64-bit [size_t], the position of the highest set bit of its
    argument, and 0 for the argument 0: the value the intrinsic branches
    return. *)
Theorem bitscanr_generic_is_log2 (w v : Z) :
  w = 32 \/ w = 64 -> 0 <= v < 2 ^ w ->
  bitscanr_generic w v = bitscanr v /\
  (v = 0 -> bitscanr_generic w v = 0) /\
  (0 < v -> 2 ^ bitscanr_generic w v <= v < 2 ^ (bitscanr_generic w v + 1)).
Proof.
  intros Hw Hv. rewrite (bitscanr_generic_log2 w v Hw Hv).
  split; [reflexivity|]. unfold bitscanr. split.
  - intros ->. reflexivity.
  - intros Hpos. destruct (Z.eqb_spec v 0); [lia|].
    replace (Z.log2 v + 1) with (Z.succ (Z.log2 v)) by lia.
    apply Z.log2_spec. exact Hpos.
Qed.

Lemma bitscanr_generic_is_log2_witness :
  bitscanr_generic 64 40 = bitscanr 40 /\
  (40 = 0 -> bitscanr_generic 64 40 = 0) /\
  (0 < 40 -> 2 ^ bitscanr_generic 64 40 <= 40 < 2 ^ (bitscanr_generic 64 40 + 1)).
Proof.
  apply (bitscanr_generic_is_log2 64 40).
  - right. reflexivity.
  - vm_compute. split; [discriminate|reflexivity].
Defined.

(** ** The depth of a branch *)

Lemma nodes_nil_leaf (t : tree) : nodes t = [] -> t = Leaf.
Proof. destruct t; [reflexivity|discriminate]. Qed.

Lemma height_prefix (key : Z -> Z) (t : tree) : forall j,
  0 <= j ->
  keys_ok key (2 ^ j) t ->
  NoDup (key <$> nodes t) ->
  (forall x y : Z, x ∈ nodes t -> y ∈ nodes t -> key x / 2 ^ j = key y / 2 ^ j) ->
  (height t <= Z.to_nat j + 1)%nat.
Proof.
  induction t as [|p t0 IH0 t1 IH1]; intros j Hj Hk Hnd Hpre; [cbn; lia|].
  cbn [keys_ok] in Hk. destruct Hk as (Hk0 & Hk1 & Hko0 & Hko1).
  cbn [nodes] in Hnd. rewrite fmap_cons, fmap_app in Hnd.
  apply NoDup_cons in Hnd as [Hpn Hnd]. apply NoDup_app in Hnd as (Hnd0 & _ & Hnd1).
  rewrite not_elem_of_app in Hpn. destruct Hpn as [Hp0 Hp1].
  destruct (Z.eq_dec j 0) as [->|Hj0].
  - change (Z.shiftr (2 ^ 0) 1) with 0 in *.
    assert (Hnil1 : nodes t1 = []).
    { apply Forall_false_nil. eapply Forall_impl; [exact Hk1|].
      intros x Hx. cbn in Hx. rewrite dirbit_zero in Hx. exact Hx. }
    assert (Hnil0 : nodes t0 = []).
    { destruct (nodes t0) as [|x l] eqn:E; [reflexivity|exfalso].
      apply Hp0. rewrite fmap_cons. apply elem_of_cons. left.
      pose proof (Hpre p x) as H. rewrite !Z.pow_0_r, !Z.div_1_r in H.
      apply H; cbn [nodes]; rewrite ?E.
      - apply elem_of_cons. auto.
      - apply elem_of_cons. right. apply elem_of_cons. auto. }
    rewrite (nodes_nil_leaf _ Hnil0), (nodes_nil_leaf _ Hnil1). cbn. lia.
  - rewrite shiftr_pow2 in * by lia.
    rewrite Forall_forall in Hk0, Hk1.
    assert (Hdiv : forall (c : bool) (x : Z),
               x ∈ nodes (if c then t1 else t0) ->
               key x / 2 ^ (j - 1) = 2 * (key p / 2 ^ j) + Z.b2z c).
    { intros c x Hx. rewrite (div_pow2_step (key x) (j - 1)) by lia.
      replace (j - 1 + 1) with j by lia.
      rewrite <- dirbit_testbit by lia.
      rewrite (Hpre x p).
      - destruct c; [rewrite (Hk1 x Hx)|rewrite (Hk0 x Hx)]; reflexivity.
      - cbn. apply elem_of_cons. right. apply elem_of_app. destruct c; auto.
      - cbn. apply elem_of_cons. auto. }
    assert (H0 : (height t0 <= Z.to_nat (j - 1) + 1)%nat).
    { apply IH0; [lia|exact Hko0|exact Hnd0|].
      intros x y Hx Hy. rewrite (Hdiv false x Hx), (Hdiv false y Hy). reflexivity. }
    assert (H1 : (height t1 <= Z.to_nat (j - 1) + 1)%nat).
    { apply IH1; [lia|exact Hko1|exact Hnd1|].
      intros x y Hx Hy. rewrite (Hdiv true x Hx), (Hdiv true y Hy). reflexivity. }
    cbn [height]. lia.
Qed.

Section heights.
Context {TP : TrieParams}.

Lemma branch_keys_nodup s ts (b : nat) t :
  wf s ts -> ts !! b = Some t -> NoDup (key_at s <$> nodes t).
Proof.
  intros Hwf Hb. pose proof (wf_distinct _ _ Hwf) as Hd.
  unfold attached in Hd.
  apply (take_drop_middle ts b t) in Hb. rewrite <- Hb in Hd.
  rewrite fmap_app, fmap_cons, concat_app, concat_cons, !fmap_app in Hd.
  apply NoDup_app in Hd as (_ & _ & Hd). apply NoDup_app in Hd as (Hd & _). exact Hd.
Qed.

Lemma wf_branch_height s ts (b : nat) t :
  wf s ts -> ts !! b = Some t -> (height t <= Nat.max 2 (b + 1))%nat.
Proof.
  intros Hwf Ht. pose proof (wf_bits _ _ Hwf) as HB.
  pose proof (wf_count _ _ Hwf) as Hcnt.
  assert (Hb : 0 <= Z.of_nat b < key_type_bits).
  { apply lookup_lt_Some in Ht. lia. }
  pose proof (wf_branch _ _ Hwf _ _ Ht) as Hbr.
  pose proof (br_keys _ _ _ Hbr) as Hk. rewrite (shiftl_1_mod _ Hb) in Hk.
  pose proof (br_top _ _ _ Hbr) as Htop. rewrite Forall_forall in Htop.
  pose proof (branch_keys_nodup s ts b t Hwf Ht) as Hnd.
  destruct (Nat.eq_dec b 0%nat) as [->|Hnz].
  - (* slot 0 holds the keys 0 and 1 only *)
    pose proof (height_le_nodes t) as Hh.
    assert (Hsub : key_at s <$> nodes t ⊆+ [0; 1]).
    { apply NoDup_submseteq; [exact Hnd|]. intros k Hk'.
      apply list_elem_of_fmap in Hk' as (x & -> & Hx).
      destruct (Htop x Hx) as [Hscan Hrange]. unfold bitscanr in Hscan.
      destruct (Z.eqb_spec (key_at s x) 0) as [->|Hk0]; [apply elem_of_cons; auto|].
      pose proof (Z.log2_spec (key_at s x) ltac:(lia)) as Hlog.
      change (Z.of_nat 0) with 0 in Hscan. rewrite Hscan in Hlog. cbn in Hlog.
      assert (key_at s x = 1) as -> by lia.
      apply elem_of_cons. right. apply elem_of_cons. auto. }
    apply submseteq_length in Hsub. rewrite length_fmap in Hsub. cbn in Hsub. lia.
  - assert (Hone : forall x : Z, x ∈ nodes t -> key_at s x / 2 ^ Z.of_nat b = 1).
    { intros x Hx. destruct (Htop x Hx) as [Hscan Hrange].
      unfold bitscanr in Hscan.
      destruct (Z.eqb_spec (key_at s x) 0) as [|Hk0]; [lia|].
      pose proof (Z.log2_spec (key_at s x) ltac:(lia)) as Hlog. rewrite Hscan in Hlog.
      rewrite Z.pow_succ_r in Hlog by lia.
      symmetry. apply (Z.div_unique _ _ 1 (key_at s x - 2 ^ Z.of_nat b)); lia. }
    pose proof (height_prefix (key_at s) t (Z.of_nat b) ltac:(lia) Hk Hnd) as Hh.
    rewrite Nat2Z.id in Hh.
    assert ((height t <= b + 1)%nat); [|lia].
    apply Hh. intros x y Hx Hy. rewrite (Hone x Hx), (Hone y Hy). reflexivity.
Qed.

Lemma wf_heights_bits s ts (fuel : nat) :
  wf s ts -> (Z.to_nat key_type_bits + 1 <= fuel)%nat ->
  Forall (fun t => (height t <= fuel)%nat) ts.
Proof.
  intros Hwf Hfuel. rewrite Forall_forall. intros t Ht.
  apply list_elem_of_lookup in Ht as [b Hb].
  pose proof (wf_branch_height s ts b t Hwf Hb).
  pose proof (wf_bits _ _ Hwf). pose proof (wf_count _ _ Hwf).
  apply lookup_lt_Some in Hb. lia.
Qed.
End heights.

Section depth.
Context {TP : TrieParams}.


End depth.


(** ** [insert], [erase] and the walk together *)

Section composing.
Context {TP : TrieParams}.

Lemma key_at_rings s s' :
  (forall q : Z, ring_view <$> (st_items s' !! q) = ring_view <$> (st_items s !! q)) ->
  forall q : Z, key_at s' q = key_at s q.
Proof.
  intros H q. specialize (H q). unfold key_at.
  destruct (st_items s' !! q), (st_items s !! q); cbn in H; try discriminate; [|reflexivity].
  unfold ring_view in H. congruence.
Qed.

Lemma heights_lt s ts (fuel : nat) :
  wf s ts -> (Z.to_nat key_type_bits + 1 < fuel)%nat ->
  Forall (fun t => (height t < fuel)%nat) ts.
Proof.
  intros Hwf Hfuel.
  eapply Forall_impl; [exact (wf_heights_bits s ts (Z.to_nat key_type_bits + 1) Hwf ltac:(lia))|].
  cbn. intros. lia.
Qed.

(** What [insert] does to a well-formed index, with the walk bounded by
    the key width. *)
Lemma insert_valid s ts p v fuel :
  wf s ts -> p <> nullptr -> p mod 4 = 0 -> st_items s !! p = Some v ->
  0 <= trie_key v < 2 ^ key_type_bits -> p ∉ attached ts ->
  head_accessors.size (st_head s) <> head_accessors.max_size ->
  (Z.to_nat key_type_bits + 1 <= fuel)%nat ->
  exists s' ts',
    insert fuel p s = Some (Iterator (st_this s) p, s') /\
    wf s' ts' /\ st_this s' = st_this s /\
    head_accessors.size (st_head s') = head_accessors.size (st_head s) + 1 /\
    (forall q : Z, key_at s' q = key_at s q) /\
    ((forall y : Z, y ∈ attached ts -> key_at s y <> trie_key v) ->
       attached ts' ≡ₚ p :: attached ts) /\
    ((exists y : Z, y ∈ attached ts /\ key_at s y = trie_key v) -> ts' = ts).
Proof.
  intros Hwf Hp Hal Hv Hk Hfresh Hroom Hfuel.
  pose proof (wf_heights_bits s ts fuel Hwf Hfuel) as Hh.
  destruct (insert_on_wf s ts p v fuel Hwf Hp Hal Hv Hk Hfresh Hroom Hh)
    as (s' & ts' & Hrun & Hpost).
  exists s', ts'. split; [exact Hrun|].
  split; [exact (ip_wf _ _ _ _ _ _ Hpost)|].
  split; [exact (ip_this _ _ _ _ _ _ Hpost)|].
  pose proof (wf_size _ _ Hwf) as Hsz.
  pose proof (wf_size _ _ (ip_wf _ _ _ _ _ _ Hpost)) as Hsz'.
  split.
  { unfold head_accessors.size in *. rewrite (ip_count _ _ _ _ _ _ Hpost).
    unfold head_accessors.max_size in *.
    pose proof (wf_bits _ _ Hwf).
    assert (0 <= trie_count (st_head s)) by lia.
    assert (0 < 2 ^ index_type_bits) by lia.
    rewrite Z.mod_small; lia. }
  split; [exact (key_at_ext _ _ (ip_keys _ _ _ _ _ _ Hpost))|].
  destruct (ip_rings _ _ _ _ _ _ Hpost) as ([x|] & Hx & _).
  - destruct Hx as (Hxin & Hxk & ->). split; [|auto].
    intros Hnone. exfalso. exact (Hnone x Hxin Hxk).
  - destruct Hx as (Hnone & Hperm). split; [auto|].
    intros (y & Hy & Hyk). exfalso. exact (Hnone y Hy Hyk).
Qed.

Lemma erase_valid s ts (p : Z) fuel :
  wf s ts -> p ∈ attached ts -> st_this s <> nullptr ->
  (Z.to_nat key_type_bits + 1 < fuel)%nat ->
  exists s' ts',
    erase fuel (Iterator (st_this s) p) s = Some (Iterator (st_this s) p, s') /\
    wf s' ts' /\ st_this s' = st_this s /\
    head_accessors.size (st_head s') = head_accessors.size (st_head s) - 1 /\
    (forall q : Z, key_at s' q = key_at s q) /\
    attached ts ≡ₚ p :: attached ts' /\ (p ∉ attached ts') /\
    (forall q : Z, ring_view <$> (st_items s' !! q) = ring_view <$> (st_items s !! q)).
Proof.
  intros Hwf Hp Hthis Hfuel.
  pose proof (heights_lt s ts fuel Hwf Hfuel) as Hh.
  pose proof (attached_nonnull s ts p Hwf Hp) as Hp0.
  destruct (list_elem_of_split _ _ Hp) as (pre & rest & Hsplit).
  pose proof (trienext_spec s ts pre p rest fuel Hwf Hsplit Hh) as Hnext.
  pose proof (inc_run fuel p _ s Hthis Hp0 Hnext) as Hinc.
  destruct (trieremove_spec s ts p fuel Hwf Hp) as (s' & ts' & Hrun & Hpost).
  { eapply Forall_impl; [exact Hh|]. cbn. intros. lia. }
  pose proof (wf_attached_nodup s ts Hwf) as Hnd.
  exists s', ts'. split.
  { unfold erase. rewrite (bind_run _ _ _ _ _ Hinc). cbn [_p].
    rewrite (bind_run _ _ _ _ _ Hrun). reflexivity. }
  split; [exact (rp_wf _ _ _ _ _ Hpost)|].
  split; [exact (rp_this _ _ _ _ _ Hpost)|].
  split; [exact (rp_count _ _ _ _ _ Hpost)|].
  split; [exact (key_at_rings _ _ (rp_rings _ _ _ _ _ Hpost))|].
  split; [exact (rp_attached _ _ _ _ _ Hpost)|].
  split; [|exact (rp_rings _ _ _ _ _ Hpost)].
  rewrite (rp_attached _ _ _ _ _ Hpost) in Hnd. apply NoDup_cons in Hnd as [Hpn _].
  exact Hpn.
Qed.


Lemma traversal_valid s ts fuel :
  wf s ts -> st_this s <> nullptr ->
  (Z.to_nat key_type_bits + 1 < fuel)%nat -> (length (attached ts) < fuel)%nat ->
  traversal fuel s = Some (attached ts, s).
Proof.
  intros Hwf Hthis Hfuel Hlen.
  exact (traversal_spec s ts fuel Hwf Hthis (heights_lt s ts fuel Hwf Hfuel) Hlen).
Qed.

Lemma insert_traversal s ts p v fuel :
  wf s ts -> p <> nullptr -> p mod 4 = 0 -> st_items s !! p = Some v ->
  0 <= trie_key v < 2 ^ key_type_bits -> p ∉ attached ts ->
  (forall y : Z, y ∈ attached ts -> key_at s y <> trie_key v) ->
  head_accessors.size (st_head s) <> head_accessors.max_size ->
  st_this s <> nullptr ->
  (Z.to_nat key_type_bits + 1 < fuel)%nat -> (length (attached ts) + 1 < fuel)%nat ->
  exists l s',
    traversal fuel s = Some (attached ts, s) /\
    (insert fuel p ;;; traversal fuel) s = Some (l, s') /\
    l ≡ₚ p :: attached ts.
Proof.
  intros Hwf Hp Hal Hv Hk Hfresh Hnone Hroom Hthis Hfuel Hlen.
  destruct (insert_valid s ts p v fuel Hwf Hp Hal Hv Hk Hfresh Hroom ltac:(lia))
    as (s1 & ts1 & Hins & Hwf1 & Hth1 & Hsz1 & Hk1 & Hperm1 & _).
  specialize (Hperm1 Hnone).
  exists (attached ts1), s1.
  split; [apply traversal_valid; auto; lia|].
  split; [|exact Hperm1].
  rewrite (bind_run _ _ _ _ _ Hins).
  apply traversal_valid; auto; [congruence|].
  rewrite Hperm1. cbn [length]. lia.
Qed.

Lemma erase_traversal s ts (p : Z) fuel :
  wf s ts -> p ∈ attached ts -> st_this s <> nullptr ->
  (Z.to_nat key_type_bits + 1 < fuel)%nat -> (length (attached ts) < fuel)%nat ->
  exists l s',
    (erase fuel (Iterator (st_this s) p) ;;; traversal fuel) s = Some (l, s') /\
    attached ts ≡ₚ p :: l /\ p ∉ l.
Proof.
  intros Hwf Hp Hthis Hfuel Hlen.
  destruct (erase_valid s ts p fuel Hwf Hp Hthis Hfuel)
    as (s2 & ts2 & Hera & Hwf2 & Hth2 & Hsz2 & Hk2 & Hperm2 & Hgone & _).
  exists (attached ts2), s2. split; [|split; assumption].
  rewrite (bind_run _ _ _ _ _ Hera).
  apply traversal_valid; auto; [congruence|].
  rewrite Hperm2 in Hlen. cbn [length] in Hlen. lia.
Qed.

End composing.

Section composing_results.
Context {TP : TrieParams}.


(** X5. Inserting an item with a new key and then walking the index from
    [begin()] to [end()] visits the new item and exactly the items the
    walk visited before the insertion, each once. *)
Theorem insert_then_traverse s ts p v fuel :
  wf s ts -> p <> nullptr -> p mod 4 = 0 -> st_items s !! p = Some v ->
  0 <= trie_key v < 2 ^ key_type_bits -> p ∉ attached ts ->
  (forall y : Z, y ∈ attached ts -> key_at s y <> trie_key v) ->
  head_accessors.size (st_head s) <> head_accessors.max_size ->
  st_this s <> nullptr ->
  (Z.to_nat key_type_bits + 1 < fuel)%nat -> (length (attached ts) + 1 < fuel)%nat ->
  exists l0 l s',
    traversal fuel s = Some (l0, s) /\
    (insert fuel p ;;; traversal fuel) s = Some (l, s') /\
    l ≡ₚ p :: l0 /\ NoDup l.
Proof.
  intros Hwf Hp Hal Hv Hk Hfresh Hnone Hroom Hthis Hfuel Hlen.
  destruct (insert_traversal s ts p v fuel Hwf Hp Hal Hv Hk Hfresh Hnone Hroom Hthis Hfuel Hlen)
    as (l & s' & Hbefore & Hafter & Hperm).
  exists (attached ts), l, s'. repeat split; try assumption.
  rewrite Hperm. apply NoDup_cons. split; [exact Hfresh|].
  exact (wf_attached_nodup s ts Hwf).
Qed.


End composing_results.


Lemma insert_then_traverse_witness :
  exists l0 l s',
    traversal (TP := params8 0) 12 (tree3 0) = Some (l0, tree3 0) /\
    (insert (TP := params8 0) 12 64 ;;; traversal (TP := params8 0) 12) (tree3 0) =
      Some (l, s') /\
    l ≡ₚ 64 :: l0 /\ NoDup l.
Proof.
  apply (insert_then_traverse (TP := params8 0) (tree3 0) branches3 64 (fresh_item 5) 12).
  - apply wfb_sound. vm_compute. reflexivity.
  - discriminate.
  - reflexivity.
  - vm_compute. reflexivity.
  - vm_compute. split; [discriminate|reflexivity].
  - apply (bool_decide_unpack _). vm_compute. reflexivity.
  - apply (proj1 (Forall_forall _ _)). apply (bool_decide_unpack _). vm_compute. reflexivity.
  - vm_compute. discriminate.
  - vm_compute. discriminate.
  - vm_compute. lia.
  - vm_compute. lia.
Defined.



(** ** The backward walk *)

Lemma tlast_last (t : tree) : t <> Leaf -> last (nodes t) = Some (tlast t).
Proof.
  induction t as [|p t0 IH0 t1 IH1]; intros Hne; [done|].
  cbn [nodes tlast].
  destruct t1 as [|q1 a1 b1].
  - rewrite app_nil_r. destruct t0 as [|q0 a0 b0]; [reflexivity|].
    rewrite last_cons, (IH0 ltac:(done)). reflexivity.
  - rewrite last_cons, last_app, (IH1 ltac:(done)). reflexivity.
Qed.

Lemma tlast_in (t : tree) : t <> Leaf -> tlast t ∈ nodes t.
Proof.
  intros Hne. pose proof (tlast_last t Hne) as H.
  apply last_Some in H as (l & ->). apply elem_of_app. right. apply elem_of_cons. auto.
Qed.

Lemma ringlessb_sound s l : ringlessb s l = true -> ringless s l.
Proof.
  unfold ringlessb, ringless. rewrite forallb_forall. intros H x Hx.
  apply list_elem_of_In in Hx. specialize (H x Hx).
  destruct (st_items s !! x) as [v|]; [|discriminate].
  exists v. split; [reflexivity|]. apply Z.eqb_eq. exact H.
Qed.

Lemma list_rev_ind_case {A} (l : list A) : l = [] \/ exists l' x, l = l' ++ [x].
Proof.
  induction l as [|a l IH] using rev_ind; [auto|]. right. eauto.
Qed.

Section backward.
Context {TP : TrieParams}.

Lemma descend_last_spec s (t : tree) :
  forall par fuel,
    t <> Leaf -> shape (st_items s) par t -> (height t <= fuel)%nat ->
    descend_last fuel (root t) s = Some (tlast t, s).
Proof.
  induction t as [|p t0 IH0 t1 IH1]; intros par fuel Hne Hsh Hfuel; [done|].
  cbn [shape] in Hsh. destruct Hsh as (Hp & Hal & (v & Hv & Hpar & Hch & Hsib) & Hs0 & Hs1).
  destruct fuel as [|fuel]; [cbn in Hfuel; lia|]. cbn [height] in Hfuel.
  cbn [descend_last root]. run_get. unfold item_accessors.child. rewrite Hch. cbn [nth2 fst snd].
  destruct t1 as [|q1 a1 b1].
  - cbn [root]. change (nullptr =? nullptr) with true. cbn [negb].
    run_get. rewrite Hch. cbn [nth2 fst].
    destruct t0 as [|q0 a0 b0].
    + cbn [root]. change (nullptr =? nullptr) with true. reflexivity.
    + pose proof (IH0 p fuel ltac:(done) Hs0 ltac:(cbn [height] in *; lia)) as IH.
      cbn [root] in *. rewrite (shape_root_nonnull _ _ _ _ _ Hs0). cbn [negb tlast].
      exact IH.
  - pose proof (IH1 p fuel ltac:(done) Hs1 ltac:(cbn [height] in *; lia)) as IH.
    cbn [root] in *. rewrite (shape_root_nonnull _ _ _ _ _ Hs1). cbn [negb].
    run_get. rewrite Hch. cbn [nth2 snd].
    rewrite (shape_root_nonnull _ _ _ _ _ Hs1). cbn [negb tlast].
    exact IH.
Qed.

Lemma end_leaf_spec s (x : Z) v :
  x <> nullptr -> st_items s !! x = Some v -> fst (trie_sibling v) = x ->
  end_leaf x s = Some (x, s).
Proof.
  intros Hx Hv Hsb. unfold end_leaf. run_get.
  unfold item_accessors.sibling. cbn [nth2]. rewrite Hsb, Z.eqb_refl. reflexivity.
Qed.

(** The step back from a child [x] of the item [p]. *)
Lemma prev_of_child s (p x : Z) (v w : item) (t0 t1 : tree) fuel :
  p <> nullptr -> p mod 4 = 0 -> st_items s !! p = Some v ->
  trie_child v = (root t0, root t1) ->
  shape (st_items s) p t0 ->
  x <> nullptr -> st_items s !! x = Some w -> trie_parent w = p ->
  fst (trie_sibling w) = x ->
  ringless s (p :: nodes t0) ->
  (height t0 <= fuel)%nat ->
  _triebranchprev fuel x s =
    Some ((if (root t1 =? x) && negb (root t0 =? nullptr) then tlast t0 else p, nullptr), s).
Proof.
  intros Hp Hal Hv Hch Hs0 Hx Hw Hpar Hsb Hring Hfuel.
  unfold _triebranchprev. run_get.
  unfold item_accessors.sibling at 1. cbn [nth2]. rewrite Hsb, Z.eqb_refl. cbn [negb].
  erewrite bind_run by reflexivity. cbv beta iota.
  run_get. rewrite (parent_aligned w p Hal Hpar). cbn [negb].
  run_get. change (item_accessors.parent w) with (trie_parent w). rewrite Hpar.
  run_get. run_get. unfold item_accessors.child. rewrite Hch. cbn [nth2 fst snd].
  destruct ((root t1 =? x) && negb (root t0 =? nullptr)) eqn:Hc.
  - apply andb_prop in Hc as [_ Hc]. apply negb_true_iff, Z.eqb_neq in Hc.
    assert (Hne : t0 <> Leaf) by (intros ->; apply Hc; reflexivity).
    rewrite (bind_run _ _ _ _ _ (descend_last_spec s t0 p fuel Hne Hs0 Hfuel)).
    pose proof (tlast_in t0 Hne) as Hin.
    destruct (Hring (tlast t0)) as (u & Hu & Hus); [apply elem_of_cons; auto|].
    erewrite bind_run; [reflexivity|].
    apply (end_leaf_spec s _ u); [|exact Hu|exact Hus].
    apply (nodes_nonnull _ _ _ _ Hs0 Hin).
  - erewrite bind_run by reflexivity.
    destruct (Hring p) as (u & Hu & Hus); [apply elem_of_cons; auto|].
    rewrite Hv in Hu. injection Hu as <-.
    erewrite bind_run; [reflexivity|].
    apply (end_leaf_spec s _ v); assumption.
Qed.


Lemma ringless_sub s (l l' : list Z) :
  ringless s l -> (forall x : Z, x ∈ l' -> x ∈ l) -> ringless s l'.
Proof. intros H Hsub x Hx. apply H, Hsub, Hx. Qed.

Lemma branchprev_spec s (t : tree) :
  forall par pre y x rest fuel,
    shape (st_items s) par t -> NoDup (nodes t) -> ringless s (nodes t) ->
    nodes t = pre ++ y :: x :: rest -> (height t <= fuel)%nat ->
    _triebranchprev fuel x s = Some ((y, nullptr), s).
Proof.
  induction t as [|p t0 IH0 t1 IH1]; intros par pre y x rest fuel Hsh Hnd Hring Hsplit Hfuel.
  { destruct pre; discriminate. }
  pose proof Hsh as Hshape.
  cbn [shape] in Hsh. destruct Hsh as (Hp & Hal & (v & Hv & Hvpar & Hch & Hsib) & Hs0 & Hs1).
  cbn [nodes] in Hnd, Hsplit, Hring. cbn [height] in Hfuel.
  apply NoDup_cons in Hnd as [Hpn Hnd]. apply NoDup_app in Hnd as (Hnd0 & Hdisj & Hnd1).
  assert (Hring0 : ringless s (p :: nodes t0)).
  { eapply ringless_sub; [exact Hring|]. intros z. rewrite !elem_of_cons, elem_of_app. tauto. }
  assert (Hr0 : ringless s (nodes t0)).
  { eapply ringless_sub; [exact Hring|]. intros z. rewrite !elem_of_cons, elem_of_app. tauto. }
  assert (Hr1 : ringless s (nodes t1)).
  { eapply ringless_sub; [exact Hring|]. intros z. rewrite !elem_of_cons, elem_of_app. tauto. }
  assert (Hchild : forall (c : bool) q a b, (if c then t1 else t0) = Node q a b ->
            exists w, q <> nullptr /\ st_items s !! q = Some w /\ trie_parent w = p /\
                      fst (trie_sibling w) = q).
  { intros c q a b E.
    assert (Hs : shape (st_items s) p (Node q a b)) by (rewrite <- E; destruct c; assumption).
    cbn [shape] in Hs. destruct Hs as (Hq & _ & (w & Hw & Hwpar & _) & _).
    destruct (Hring q) as (w' & Hw' & Hsb).
    { apply elem_of_cons. right. apply elem_of_app.
      destruct c; [right|left]; rewrite E; cbn; apply elem_of_cons; auto. }
    rewrite Hw in Hw'. injection Hw' as <-. eauto 6. }
  destruct pre as [|p' pre].
  - (* [x] follows the root: it is the first child *)
    cbn in Hsplit. injection Hsplit as <- Hsplit.
    destruct t0 as [|q0 a0 b0].
    + destruct t1 as [|q1 a1 b1]; [discriminate|].
      cbn in Hsplit. injection Hsplit as Hx _. subst x.
      destruct (Hchild true q1 a1 b1 eq_refl) as (w & Hq & Hw & Hwpar & Hsb).
      rewrite (prev_of_child s p q1 v w Leaf (Node q1 a1 b1) fuel); try assumption;
        [|cbn; lia].
      cbn [root]. change (nullptr =? nullptr) with true. rewrite andb_false_r. reflexivity.
    + cbn in Hsplit. injection Hsplit as Hx _. subst x.
      destruct (Hchild false q0 a0 b0 eq_refl) as (w & Hq & Hw & Hwpar & Hsb).
      rewrite (prev_of_child s p q0 v w (Node q0 a0 b0) t1 fuel); try assumption;
        [|cbn [height] in *; lia].
      assert (Hne : (root t1 =? q0) = false).
      { apply Z.eqb_neq. intros E.
        destruct t1 as [|q1 a1 b1]; [cbn in E; congruence|]. cbn in E. subst q1.
        apply (Hdisj q0); cbn; apply elem_of_cons; auto. }
      rewrite Hne. reflexivity.
  - cbn in Hsplit. injection Hsplit as <- Hsplit.
    apply app_eq_app in Hsplit as (k & [[H0 H1]|[H0 H1]]).
    + destruct k as [|y' k]; cbn in H1.
      * (* both under child(1), at its front *)
        apply (IH1 p [] y x rest fuel Hs1 Hnd1 Hr1); [symmetry; exact H1|lia].
      * injection H1 as <- H1. destruct k as [|x' k]; cbn in H1.
        -- (* [y] ends the items under child(0), [x] is child(1) *)
           destruct t1 as [|q1 a1 b1]; [discriminate|].
           cbn in H1. injection H1 as Hx _. subst x.
           destruct (Hchild true q1 a1 b1 eq_refl) as (w & Hq & Hw & Hwpar & Hsb).
           assert (Hne : t0 <> Leaf) by (intros ->; destruct pre; discriminate).
           rewrite (prev_of_child s p q1 v w t0 (Node q1 a1 b1) fuel); try assumption;
             [|lia].
           cbn [root]. rewrite Z.eqb_refl.
           pose proof (tlast_last t0 Hne) as Hl.
           rewrite H0, last_snoc in Hl. injection Hl as Hl.
           destruct t0 as [|q0 a0 b0]; [done|]. cbn [root].
           rewrite (shape_root_nonnull _ _ _ _ _ Hs0). cbn [negb andb].
           rewrite <- Hl. reflexivity.
        -- injection H1 as <- ->.
           apply (IH0 p pre y x k fuel Hs0 Hnd0 Hr0 H0). lia.
    + apply (IH1 p k y x rest fuel Hs1 Hnd1 Hr1 H1). lia.
Qed.

Lemma branchprev_top s (q : Z) (v : item) (b : Z) fuel :
  q <> nullptr -> st_items s !! q = Some v -> fst (trie_sibling v) = q ->
  0 <= b < 2 ^ 30 -> trie_parent v = index_tag b ->
  _triebranchprev fuel q s = Some ((nullptr, q), s).
Proof.
  intros Hq Hv Hsb Hb Hpar. unfold _triebranchprev. run_get.
  unfold item_accessors.sibling at 1. cbn [nth2]. rewrite Hsb, Z.eqb_refl. cbn [negb].
  erewrite bind_run by reflexivity. cbv beta iota.
  run_get. rewrite (proj1 (parent_index_tag v b Hb Hpar)). reflexivity.
Qed.


Lemma wrap_pred (n : nat) : Z.of_nat n < 2 ^ unsigned_bits ->
  (Z.of_nat (S n) - 1) mod 2 ^ unsigned_bits = Z.of_nat n.
Proof. intros H. rewrite Z.mod_small by lia. lia. Qed.

Lemma scan_down_spec s ts (n : nat) : forall fuel,
  wf s ts -> (n <= length ts)%nat -> (n < fuel)%nat ->
  exists r, scan_down fuel ((Z.of_nat n - 1) mod 2 ^ unsigned_bits) nullptr s = Some (r, s) /\
    ((concat (nodes <$> take n ts) = [] /\ key_type_bits <= fst r) \/
     (exists (j : nat) t, ts !! j = Some t /\ t <> Leaf /\ r = (Z.of_nat j, root t) /\
        last (concat (nodes <$> take n ts)) = Some (tlast t))).
Proof.
  induction n as [|n IH]; intros fuel Hwf Hn Hfuel;
    pose proof (wf_bits _ _ Hwf) as HB; pose proof (wf_count _ _ Hwf) as Hcnt;
    (destruct fuel as [|fuel]; [lia|]).
  - exists ((0 - 1) mod 2 ^ unsigned_bits, nullptr). cbn [scan_down].
    change ((Z.of_nat 0 - 1) mod 2 ^ unsigned_bits) with 4294967295.
    change ((0 - 1) mod 2 ^ unsigned_bits) with 4294967295.
    destruct (Z.ltb_spec 4294967295 key_type_bits); [lia|].
    split; [reflexivity|]. left. split; [reflexivity|cbn; lia].
  - assert (Hsmall : Z.of_nat n < 2 ^ unsigned_bits).
    { unfold unsigned_bits. change (2 ^ 32) with 4294967296. lia. }
    rewrite (wrap_pred n Hsmall). cbn [scan_down].
    destruct (Z.ltb_spec (Z.of_nat n) key_type_bits); [|lia].
    destruct (lookup_lt_is_Some_2 ts n ltac:(lia)) as [t Ht].
    pose proof (wf_branch _ _ Hwf _ _ Ht) as Hbr.
    erewrite bind_run by (apply hchild_Some; split; [apply (br_slot _ _ _ Hbr)|reflexivity]).
    rewrite (take_S_r _ _ _ Ht), fmap_app, concat_app. cbn [fmap list_fmap concat].
    rewrite app_nil_r.
    destruct t as [|q t0 t1].
    + cbn [root nodes]. change (nullptr =? nullptr) with true. cbv iota.
      rewrite app_nil_r.
      replace (Z.of_nat n) with (Z.of_nat (S n) - 1) at 1 by lia.
      replace (Z.of_nat (S n) - 1 - 1) with (Z.of_nat n - 1) by lia.
      apply IH; [exact Hwf|lia|lia].
    + cbn [root]. rewrite (shape_root_nonnull _ _ _ _ _ (br_shape _ _ _ Hbr)).
      exists (Z.of_nat n, q). split; [reflexivity|]. right.
      exists n, (Node q t0 t1). split; [exact Ht|]. split; [done|]. split; [reflexivity|].
      rewrite last_app, (tlast_last (Node q t0 t1)) by done. reflexivity.
Qed.

Lemma last_of_branch s ts (j : nat) t fuel :
  wf s ts -> ringless s (attached ts) -> ts !! j = Some t -> t <> Leaf ->
  Forall (fun t => (height t <= fuel)%nat) ts ->
  (let! node := descend_last fuel (root t) in end_leaf node) s = Some (tlast t, s).
Proof.
  intros Hwf Hring Ht Hne Hh.
  pose proof (wf_branch _ _ Hwf _ _ Ht) as Hbr.
  assert (Hfuel : (height t <= fuel)%nat).
  { rewrite Forall_forall in Hh. apply Hh. eapply list_elem_of_lookup_2; eauto. }
  rewrite (bind_run _ _ _ _ _ (descend_last_spec s t _ fuel Hne (br_shape _ _ _ Hbr) Hfuel)).
  assert (Hin : tlast t ∈ attached ts).
  { apply elem_of_attached. exists j, t. split; [exact Ht|apply tlast_in; exact Hne]. }
  destruct (Hring _ Hin) as (u & Hu & Hus).
  apply (end_leaf_spec s _ u); [|exact Hu|exact Hus].
  eapply attached_nonnull; eauto.
Qed.

Lemma trieprev_spec s ts pre (x : Z) rest fuel :
  wf s ts -> ringless s (attached ts) -> attached ts = pre ++ x :: rest ->
  Forall (fun t => (height t <= fuel)%nat) ts ->
  (Z.to_nat key_type_bits < fuel)%nat ->
  _trieprev fuel x s = Some (default nullptr (last pre), s).
Proof.
  intros Hwf Hring Hsplit Hh Hfuel. pose proof (wf_bits _ _ Hwf) as HB.
  pose proof (wf_count _ _ Hwf) as Hcnt.
  assert (Hxa : x ∈ attached ts).
  { rewrite Hsplit. apply elem_of_app. right. apply elem_of_cons. auto. }
  pose proof (attached_nonnull s ts x Hwf Hxa) as Hx0.
  destruct (Hring x Hxa) as (vx & Hvx & Hxs).
  unfold attached in Hsplit.
  apply concat_split in Hsplit as (i & l & pre_i & rest_i & Hi & Hl & -> & ->).
  apply list_lookup_fmap_Some in Hi as (t & -> & Ht).
  assert (Hilt : (i < length ts)%nat) by (eapply lookup_lt_Some; exact Ht).
  pose proof (wf_branch _ _ Hwf _ _ Ht) as Hbr.
  pose proof (br_shape _ _ _ Hbr) as Hsh.
  assert (Hfuel_t : (height t <= fuel)%nat).
  { rewrite Forall_forall in Hh. apply Hh. eapply list_elem_of_lookup_2. exact Ht. }
  assert (Hrt : ringless s (nodes t)).
  { eapply ringless_sub; [exact Hring|]. intros z Hz.
    apply elem_of_attached. eauto. }
  unfold _trieprev. run_get.
  destruct (list_rev_ind_case pre_i) as [->|(pre' & y & ->)].
  - (* the top of branch [i] *)
    cbn in Hl. destruct t as [|q t0 t1]; [discriminate|].
    cbn [nodes] in Hl. injection Hl as <- _.
    cbn [shape] in Hsh. destruct Hsh as (_ & _ & (v & Hv & Hvpar & _) & _).
    rewrite Hvx in Hv. injection Hv as <-.
    assert (Htag : 0 <= Z.of_nat i < 2 ^ 30) by lia.
    rewrite (bind_run _ _ _ _ _ (branchprev_top s q vx _ fuel Hx0 Hvx Hxs Htag Hvpar)).
    cbn [fst snd]. change (nullptr =? nullptr) with true.
    rewrite (proj2 (Z.eqb_neq q nullptr) Hx0). cbn [negb orb].
    run_get. rewrite (proj2 (parent_index_tag vx _ Htag Hvpar)).
    destruct (scan_down_spec s ts i fuel Hwf ltac:(lia) ltac:(lia)) as (r & Hrun & Hr).
    rewrite (bind_run _ _ _ _ _ Hrun).
    rewrite app_nil_r, <- fmap_take.
    destruct Hr as [[Hnil Hge]|(j & u & Hu & Hne & -> & Hlast)].
    + rewrite Hnil. destruct (Z.leb_spec key_type_bits (fst r)); [reflexivity|lia].
    + cbn [fst snd]. rewrite Hlast. cbn [default].
      apply lookup_lt_Some in Hu as Hjlt.
      destruct (Z.leb_spec key_type_bits (Z.of_nat j)); [lia|].
      apply (last_of_branch s ts j u fuel); assumption.
  - rewrite <- app_assoc in Hl. cbn [app] in Hl.
    rewrite (bind_run _ _ _ _ _
               (branchprev_spec s t _ pre' y x rest_i fuel Hsh
                  (wf_branch_nodup _ _ _ _ Hwf Ht) Hrt Hl Hfuel_t)).
    cbn [fst snd].
    assert (Hy : y ∈ nodes t).
    { rewrite Hl. apply elem_of_app. right. apply elem_of_cons. auto. }
    rewrite (proj2 (Z.eqb_neq y nullptr) (nodes_nonnull _ _ _ _ Hsh Hy)). cbn [negb orb].
    rewrite app_assoc, last_snoc. reflexivity.
Qed.

Lemma triemax_spec s ts fuel :
  wf s ts -> ringless s (attached ts) -> attached ts <> [] ->
  Forall (fun t => (height t <= fuel)%nat) ts ->
  (Z.to_nat key_type_bits < fuel)%nat ->
  _triemax fuel s = Some (default nullptr (last (attached ts)), s).
Proof.
  intros Hwf Hring Hne Hh Hfuel. pose proof (wf_bits _ _ Hwf) as HB.
  pose proof (wf_count _ _ Hwf) as Hcnt. pose proof (wf_size _ _ Hwf) as Hsize.
  unfold _triemax, hget, bind at 1. cbn [st_head].
  assert (Hlen : (0 < length (attached ts))%nat).
  { destruct (attached ts); [done|cbn; lia]. }
  unfold head_accessors.size.
  destruct (Z.eqb_spec (trie_count (st_head s)) 0); [lia|].
  destruct (scan_down_spec s ts (length ts) fuel Hwf ltac:(lia) ltac:(lia)) as (r & Hrun & Hr).
  rewrite Hcnt in Hrun. rewrite (bind_run _ _ _ _ _ Hrun).
  rewrite firstn_all in Hr. fold (attached ts) in Hr.
  destruct Hr as [[Hnil _]|(j & u & Hu & Hune & -> & Hlast)]; [congruence|].
  cbn [fst snd]. rewrite Hlast. cbn [default].
  pose proof (wf_branch _ _ Hwf _ _ Hu) as Hbr.
  destruct u as [|q u0 u1]; [done|].
  pose proof (br_shape _ _ _ Hbr) as Hsh. cbn [shape] in Hsh.
  destruct Hsh as (Hq & _ & (v & Hv & _) & _). cbn [root].
  run_get.
  apply (last_of_branch s ts j (Node q u0 u1) fuel); assumption.
Qed.

Lemma triemax_size_zero s fuel :
  trie_count (st_head s) = 0 -> _triemax fuel s = Some (nullptr, s).
Proof.
  intros H. unfold _triemax, hget, bind, head_accessors.size. cbn. rewrite H. reflexivity.
Qed.


Lemma dec_spec s ts (pre rest : list Z) fuel :
  wf s ts -> ringless s (attached ts) -> st_this s <> nullptr ->
  attached ts = pre ++ rest -> pre <> [] ->
  Forall (fun t => (height t <= fuel)%nat) ts ->
  (Z.to_nat key_type_bits < fuel)%nat ->
  _dec fuel (Iterator (st_this s) (hd nullptr rest)) s =
    Some (Iterator (st_this s) (default nullptr (last pre)), s).
Proof.
  intros Hwf Hring Hthis Hsplit Hpre Hh Hfuel.
  unfold _dec. cbn [_parent _p].
  rewrite (proj2 (Z.eqb_neq _ _) Hthis). cbn [negb].
  unfold this_, bind at 1. rewrite Z.eqb_refl.
  destruct rest as [|x rest]; cbn [hd].
  - change (nullptr =? nullptr) with true. cbv iota.
    rewrite app_nil_r in Hsplit.
    erewrite bind_run by
      (apply (triemax_spec s ts fuel Hwf Hring); [rewrite Hsplit; exact Hpre|assumption..]).
    rewrite Hsplit. reflexivity.
  - assert (Hx : x ∈ attached ts).
    { rewrite Hsplit. apply elem_of_app. right. apply elem_of_cons. auto. }
    rewrite (proj2 (Z.eqb_neq x nullptr) (attached_nonnull s ts x Hwf Hx)).
    erewrite bind_run by (apply (trieprev_spec s ts pre x rest fuel); assumption).
    reflexivity.
Qed.

Lemma iterate_back_spec s ts fuel :
  wf s ts -> ringless s (attached ts) -> st_this s <> nullptr ->
  Forall (fun t => (height t <= fuel)%nat) ts ->
  (Z.to_nat key_type_bits < fuel)%nat ->
  forall pre rest (n : nat),
    attached ts = pre ++ rest -> (length pre < n)%nat ->
    iterate_back fuel n (hd nullptr (attached ts))
      (Iterator (st_this s) (hd nullptr rest)) s = Some (rev pre, s).
Proof.
  intros Hwf Hring Hthis Hh Hfuel pre.
  induction pre as [|y pre IH] using rev_ind; intros rest n Hsplit Hn.
  - destruct n as [|n]; [cbn in Hn; lia|]. cbn in Hsplit. rewrite <- Hsplit.
    cbn [iterate_back _p]. rewrite Z.eqb_refl. reflexivity.
  - destruct n as [|n]; [lia|]. rewrite length_app in Hn. cbn in Hn.
    cbn [iterate_back _p].
    pose proof (wf_attached_nodup s ts Hwf) as Hnd.
    assert (Hfirst : (hd nullptr rest =? hd nullptr (attached ts)) = false).
    { apply Z.eqb_neq. intros E.
      assert (Hf : hd nullptr (attached ts) ∈ pre ++ [y]).
      { rewrite Hsplit. destruct (pre ++ [y]) as [|f l] eqn:El.
        - destruct pre; discriminate.
        - cbn. apply elem_of_cons. auto. }
      assert (Hfa : hd nullptr (attached ts) ∈ attached ts).
      { rewrite Hsplit at 2. apply elem_of_app. auto. }
      destruct rest as [|x rest]; cbn [hd] in E.
      - apply (attached_nonnull s ts _ Hwf Hfa). symmetry. exact E.
      - rewrite Hsplit in Hnd. apply NoDup_app in Hnd as (_ & Hdisj & _).
        apply (Hdisj _ Hf). rewrite <- E. apply elem_of_cons. auto. }
    rewrite Hfirst.
    erewrite bind_run by
      (apply (dec_spec s ts (pre ++ [y]) rest fuel); try assumption;
       destruct pre; discriminate).
    rewrite last_snoc. cbn [default _p].
    erewrite bind_run.
    2:{ apply (IH (y :: rest) n); [rewrite Hsplit, <- app_assoc; reflexivity|lia]. }
    rewrite rev_unit. reflexivity.
Qed.

Lemma traversal_back_spec s ts fuel :
  wf s ts -> ringless s (attached ts) -> st_this s <> nullptr ->
  Forall (fun t => (height t <= fuel)%nat) ts ->
  (Z.to_nat key_type_bits < fuel)%nat -> (length (attached ts) < fuel)%nat ->
  traversal_back fuel s = Some (rev (attached ts), s).
Proof.
  intros Hwf Hring Hthis Hh Hfuel Hlen.
  unfold traversal_back, begin_, end_.
  erewrite bind_run;
    [|erewrite bind_run by (apply this_Some; split; reflexivity);
      rewrite (bind_run _ _ _ _ _ (triemin_spec s ts Hwf)); reflexivity].
  erewrite bind_run;
    [|erewrite bind_run by (apply this_Some; split; reflexivity); reflexivity].
  cbn [_p].
  apply (iterate_back_spec s ts fuel Hwf Hring Hthis Hh Hfuel (attached ts) [] fuel);
    [rewrite app_nil_r; reflexivity|exact Hlen].
Qed.

End backward.

(** *** Both directions, and what keeps the walk back safe *)

Section both_ways.
Context {TP : TrieParams}.

Lemma ringless_rings s s' (l : list Z) :
  (forall q : Z, ring_view <$> (st_items s' !! q) = ring_view <$> (st_items s !! q)) ->
  ringless s l -> ringless s' l.
Proof.
  intros H Hr x Hx. destruct (Hr x Hx) as (v & Hv & Hs).
  specialize (H x). rewrite Hv in H. cbn in H.
  destruct (st_items s' !! x) as [v'|]; [|discriminate].
  exists v'. split; [reflexivity|]. cbn in H. unfold ring_view in H.
  injection H as H1 _. rewrite H1. exact Hs.
Qed.

(** X7. Inserting an item whose key is not yet present keeps the index
    free of ring siblings: the new item's sibling links refer to itself
    and no other item's sibling links change. *)
Theorem insert_keeps_ringless s ts p v fuel :
  wf s ts -> ringless s (attached ts) ->
  p <> nullptr -> p mod 4 = 0 -> st_items s !! p = Some v ->
  0 <= trie_key v < 2 ^ key_type_bits -> p ∉ attached ts ->
  (forall y : Z, y ∈ attached ts -> key_at s y <> trie_key v) ->
  head_accessors.size (st_head s) <> head_accessors.max_size ->
  (Z.to_nat key_type_bits + 1 <= fuel)%nat ->
  exists s' ts',
    insert fuel p s = Some (Iterator (st_this s) p, s') /\
    wf s' ts' /\ ringless s' (attached ts') /\ attached ts' ≡ₚ p :: attached ts /\
    st_this s' = st_this s.
Proof.
  intros Hwf Hr Hp Hal Hv Hk Hfresh Hnone Hroom Hfuel.
  pose proof (wf_heights_bits s ts fuel Hwf Hfuel) as Hh.
  destruct (insert_on_wf s ts p v fuel Hwf Hp Hal Hv Hk Hfresh Hroom Hh)
    as (s' & ts' & Hrun & Hpost).
  exists s', ts'. split; [exact Hrun|].
  split; [exact (ip_wf _ _ _ _ _ _ Hpost)|].
  destruct (ip_rings _ _ _ _ _ _ Hpost) as ([x|] & Hx & Hrings).
  { destruct Hx as (Hxin & Hxk & _). exfalso. exact (Hnone x Hxin Hxk). }
  destruct Hx as (_ & Hperm).
  split; [|split; [exact Hperm|exact (ip_this _ _ _ _ _ _ Hpost)]].
  intros y Hy. rewrite Hperm in Hy. specialize (Hrings y).
  unfold rings_after_insert in Hrings.
  destruct (decide (y = p)) as [->|Hne].
  - destruct (st_items s' !! p) as [v'|]; [|discriminate].
    exists v'. split; [reflexivity|]. cbn in Hrings. unfold ring_view in Hrings.
    injection Hrings as H1 _. rewrite H1. reflexivity.
  - apply elem_of_cons in Hy as [Hy|Hy]; [contradiction|].
    destruct (Hr y Hy) as (vy & Hvy & Hsy). rewrite Hvy in Hrings. cbn in Hrings.
    destruct (st_items s' !! y) as [v'|]; [|discriminate].
    exists v'. split; [reflexivity|]. cbn in Hrings. unfold ring_view in Hrings.
    injection Hrings as H1 _. rewrite H1. exact Hsy.
Qed.


(** X9. Decrement undoes increment.  On a well-formed index without
    ring siblings, for an item [x] that a walk visits, [++] on the
    iterator to [x] yields the iterator to the item visited next ([end()]
    after the last item), and [--] on that iterator yields the iterator
    to [x] again; in particular [--end()] is the last item of the walk.
    Neither changes the index. *)
Theorem dec_inverts_inc s ts (pre rest : list Z) (x : Z) fuel :
  wf s ts -> ringless s (attached ts) -> st_this s <> nullptr ->
  attached ts = pre ++ x :: rest ->
  (Z.to_nat key_type_bits + 1 < fuel)%nat ->
  _inc fuel (Iterator (st_this s) x) s = Some (Iterator (st_this s) (hd nullptr rest), s) /\
  _dec fuel (Iterator (st_this s) (hd nullptr rest)) s = Some (Iterator (st_this s) x, s).
Proof.
  intros Hwf Hr Hthis Hsplit Hfuel.
  assert (Hx : x ∈ attached ts).
  { rewrite Hsplit. apply elem_of_app. right. apply elem_of_cons. auto. }
  pose proof (attached_nonnull s ts x Hwf Hx) as Hx0.
  split.
  - apply inc_run; [exact Hthis|exact Hx0|].
    exact (trienext_spec s ts pre x rest fuel Hwf Hsplit (heights_lt s ts fuel Hwf Hfuel)).
  - pose proof (dec_spec s ts (pre ++ [x]) rest fuel Hwf Hr Hthis) as Hd.
    rewrite last_snoc in Hd. apply Hd.
    + rewrite <- app_assoc. exact Hsplit.
    + destruct pre; discriminate.
    + apply (wf_heights_bits s ts fuel Hwf). lia.
    + lia.
Qed.

Lemma dec_begin s ts (x : Z) (rest : list Z) fuel :
  wf s ts -> ringless s (attached ts) -> st_this s <> nullptr ->
  attached ts = x :: rest ->
  (Z.to_nat key_type_bits + 1 < fuel)%nat ->
  begin_ s = Some (Iterator (st_this s) x, s) /\
  _dec fuel (Iterator (st_this s) x) s = Some (Iterator (st_this s) nullptr, s).
Proof.
  intros Hwf Hr Hthis Hsplit Hfuel.
  assert (Hx : x ∈ attached ts) by (rewrite Hsplit; apply elem_of_cons; auto).
  pose proof (attached_nonnull s ts x Hwf Hx) as Hx0.
  split.
  - unfold begin_. erewrite bind_run by (apply this_Some; split; reflexivity).
    rewrite (bind_run _ _ _ _ _ (triemin_spec s ts Hwf)). rewrite Hsplit. reflexivity.
  - unfold _dec. cbn [_p _parent].
    rewrite (proj2 (Z.eqb_neq _ _) Hthis). cbn [negb].
    erewrite bind_run by (apply this_Some; split; reflexivity).
    rewrite Z.eqb_refl. rewrite (proj2 (Z.eqb_neq _ _) Hx0).
    erewrite bind_run; [reflexivity|].
    apply (trieprev_spec s ts [] x rest fuel Hwf Hr Hsplit).
    + apply (wf_heights_bits s ts fuel Hwf). lia.
    + lia.
Qed.

(** X10. On a non-empty well-formed index without ring siblings,
    [front()] returns the first item of the forward walk and [back()] the
    last one; [begin()] is a valid iterator ([operator bool] is true)
    and dereferences to the item [front()] returns. *)
Theorem front_back_are_ends s ts (x y : Z) (pre rest : list Z) fuel :
  wf s ts -> ringless s (attached ts) -> st_this s <> nullptr ->
  attached ts = x :: rest -> attached ts = pre ++ [y] ->
  (Z.to_nat key_type_bits + 1 <= fuel)%nat ->
  front s = Some (x, s) /\ back fuel s = Some (y, s) /\
  exists b, begin_ s = Some (b, s) /\
            iterator_ops.to_bool b = true /\ iterator_ops.deref b = Some x.
Proof.
  intros Hwf Hr Hthis Hsplit Hlast Hfuel.
  assert (Hx : x ∈ attached ts) by (rewrite Hsplit; apply elem_of_cons; auto).
  assert (Hy : y ∈ attached ts).
  { rewrite Hlast. apply elem_of_app. right. apply elem_of_cons. auto. }
  pose proof (attached_nonnull s ts x Hwf Hx) as Hx0.
  pose proof (attached_nonnull s ts y Hwf Hy) as Hy0.
  split; [|split].
  - unfold front. rewrite (bind_run _ _ _ _ _ (triemin_spec s ts Hwf)). rewrite Hsplit.
    cbn [hd]. rewrite (proj2 (Z.eqb_neq _ _) Hx0). reflexivity.
  - unfold back.
    assert (Hmax := triemax_spec s ts fuel Hwf Hr ltac:(rewrite Hsplit; discriminate)
                      (wf_heights_bits s ts fuel Hwf Hfuel) ltac:(lia)).
    rewrite (bind_run _ _ _ _ _ Hmax).
    rewrite Hlast, last_snoc. cbn.
    rewrite (proj2 (Z.eqb_neq _ _) Hy0). reflexivity.
  - exists (Iterator (st_this s) x). split.
    + unfold begin_. erewrite bind_run by (apply this_Some; split; reflexivity).
      rewrite (bind_run _ _ _ _ _ (triemin_spec s ts Hwf)). rewrite Hsplit. reflexivity.
    + unfold iterator_ops.to_bool, iterator_ops.deref. cbn [_parent _p].
      rewrite (proj2 (Z.eqb_neq _ _) Hthis), (proj2 (Z.eqb_neq _ _) Hx0).
      split; reflexivity.
Qed.

Lemma bind_fail {A B} (m : M A) (f : A -> M B) s : m s = None -> bind m f s = None.
Proof. unfold bind. intros ->. reflexivity. Qed.

Lemma get_null {A} (f : item -> A) s : get nullptr f s = None.
Proof. reflexivity. Qed.

(** The first secondary sibling of a ring: stepping back from it. *)
Lemma trieprev_secondary s (r x : Z) (vr vx : item) fuel :
  st_items s !! r = Some vr -> trie_parent vr = nullptr ->
  fst (trie_sibling vr) = x -> x <> r ->
  st_items s !! x = Some vx -> trie_parent vx <> nullptr ->
  _trieprev fuel r s = None.
Proof.
  intros Hvr Hpar Hsib Hxr Hvx Hprim.
  destruct (Z.eqb_spec r nullptr) as [E|Hr0].
  { subst r. apply bind_fail, get_null. }
  unfold _trieprev. run_get. apply bind_fail.
  unfold _triebranchprev. run_get.
  unfold item_accessors.sibling at 1 2. unfold nth2. rewrite Hsib.
  rewrite (proj2 (Z.eqb_neq _ _) Hxr). cbn [negb].
  destruct (Z.eqb_spec x nullptr) as [E|Hx0].
  { rewrite E. apply bind_fail, bind_fail, get_null. }
  erewrite bind_run; [|erewrite bind_run by (apply (get_run x _ s vx Hx0 Hvx)); reflexivity].
  unfold item_accessors.is_primary_sibling.
  rewrite (proj2 (Z.eqb_neq _ _) Hprim). cbn [negb].
  run_get. unfold item_accessors.parent_is_index at 1. rewrite Hpar.
  change (negb (Z.land nullptr 3 =? 3)) with true. cbv iota.
  run_get. unfold item_accessors.parent at 1. rewrite Hpar.
  apply bind_fail, get_null.
Qed.

End both_ways.

Section backward_results.
Context {TP : TrieParams}.

(** X11. On a well-formed index in which no item has a ring sibling, the
    backward walk ([--it] from [end()] down to [begin()]) completes and
    visits the items of the forward walk in exactly the reverse order. *)
Theorem backward_traversal_is_reverse s ts fuel :
  wf s ts -> ringless s (attached ts) -> st_this s <> nullptr ->
  (Z.to_nat key_type_bits + 1 < fuel)%nat -> (length (attached ts) < fuel)%nat ->
  exists l,
    traversal fuel s = Some (l, s) /\ traversal_back fuel s = Some (rev l, s).
Proof.
  intros Hwf Hr Hthis Hfuel Hlen. exists (attached ts). split.
  - apply traversal_valid; assumption.
  - apply traversal_back_spec; try assumption; [|lia].
    apply (wf_heights_bits s ts fuel Hwf). lia.
Qed.

(** X12. Decrementing [begin()] of a non-empty well-formed index without
    ring siblings yields [end()]: the backward walk runs off the front
    into the same past-the-end iterator the forward walk ends in. *)
Theorem dec_begin_is_end s ts (x : Z) (rest : list Z) fuel :
  wf s ts -> ringless s (attached ts) -> st_this s <> nullptr ->
  attached ts = x :: rest ->
  (Z.to_nat key_type_bits + 1 < fuel)%nat ->
  exists b e,
    begin_ s = Some (b, s) /\ end_ s = Some (e, s) /\ _p b = x /\
    _dec fuel b s = Some (e, s).
Proof.
  intros Hwf Hr Hthis Hsplit Hfuel.
  destruct (dec_begin s ts x rest fuel Hwf Hr Hthis Hsplit Hfuel) as [Hb Hd].
  exists (Iterator (st_this s) x), (Iterator (st_this s) nullptr).
  repeat split; assumption.
Qed.

(** X13. Decrementing an iterator that stands on a secondary sibling
    whose [sibling[0]] is the primary item of the ring faults.
    [_triebranchprev] does not take its leaf exit (that sibling is a
    primary), finds that the secondary's parent, which is null, is not a
    head-slot tag, and reads the children of that null parent. *)
Theorem dec_at_duplicate_faults s (r x : Z) (vr vx : item) fuel :
  st_this s <> nullptr -> r <> nullptr ->
  st_items s !! r = Some vr -> item_accessors.is_secondary_sibling vr = true ->
  item_accessors.sibling false vr = x -> x <> r ->
  st_items s !! x = Some vx -> item_accessors.is_primary_sibling vx = true ->
  _trieprev fuel r s = None /\ _dec fuel (Iterator (st_this s) r) s = None.
Proof.
  intros Hthis Hr Hvr Hsec Hsib Hxr Hvx Hprim.
  unfold item_accessors.is_secondary_sibling in Hsec.
  unfold item_accessors.is_primary_sibling in Hprim.
  apply Z.eqb_eq in Hsec. apply negb_true_iff, Z.eqb_neq in Hprim.
  pose proof (trieprev_secondary s r x vr vx fuel Hvr Hsec Hsib Hxr Hvx Hprim) as Hprev.
  split; [exact Hprev|].
  unfold _dec. cbn [_parent _p].
  rewrite (proj2 (Z.eqb_neq _ _) Hthis). cbn [negb].
  erewrite bind_run by (apply this_Some; split; reflexivity).
  rewrite Z.eqb_refl, (proj2 (Z.eqb_neq _ _) Hr).
  apply bind_fail. exact Hprev.
Qed.

End backward_results.

Lemma backward_traversal_is_reverse_witness :
  exists l,
    traversal (TP := params8 0) 12 (tree3 0) = Some (l, tree3 0) /\
    traversal_back (TP := params8 0) 12 (tree3 0) = Some (rev l, tree3 0).
Proof.
  apply (backward_traversal_is_reverse (TP := params8 0) (tree3 0) branches3 12).
  - apply wfb_sound. vm_compute. reflexivity.
  - apply ringlessb_sound. vm_compute. reflexivity.
  - vm_compute. discriminate.
  - vm_compute. lia.
  - vm_compute. lia.
Defined.

Lemma dec_inverts_inc_witness :
  _inc (TP := params8 0) 12 (Iterator (st_this (tree3 0)) 48) (tree3 0) =
    Some (Iterator (st_this (tree3 0)) (hd nullptr [32; 16]), tree3 0) /\
  _dec (TP := params8 0) 12 (Iterator (st_this (tree3 0)) (hd nullptr [32; 16])) (tree3 0) =
    Some (Iterator (st_this (tree3 0)) 48, tree3 0).
Proof.
  apply (dec_inverts_inc (TP := params8 0) (tree3 0) branches3 [] [32; 16] 48 12).
  - apply wfb_sound. vm_compute. reflexivity.
  - apply ringlessb_sound. vm_compute. reflexivity.
  - vm_compute. discriminate.
  - reflexivity.
  - vm_compute. lia.
Defined.

Lemma dec_begin_is_end_witness :
  exists b e,
    begin_ (TP := params8 0) (tree3 0) = Some (b, tree3 0) /\
    end_ (tree3 0) = Some (e, tree3 0) /\ _p b = 48 /\
    _dec (TP := params8 0) 12 b (tree3 0) = Some (e, tree3 0).
Proof.
  apply (dec_begin_is_end (TP := params8 0) (tree3 0) branches3 48 [32; 16] 12).
  - apply wfb_sound. vm_compute. reflexivity.
  - apply ringlessb_sound. vm_compute. reflexivity.
  - vm_compute. discriminate.
  - reflexivity.
  - vm_compute. lia.
Defined.

Lemma front_back_are_ends_witness :
  front (TP := params8 0) (tree3 0) = Some (48, tree3 0) /\
  back (TP := params8 0) 12 (tree3 0) = Some (16, tree3 0) /\
  exists b, begin_ (TP := params8 0) (tree3 0) = Some (b, tree3 0) /\
            iterator_ops.to_bool b = true /\ iterator_ops.deref b = Some 48.
Proof.
  apply (front_back_are_ends (TP := params8 0) (tree3 0) branches3 48 16 [48; 32] [32; 16] 12).
  - apply wfb_sound. vm_compute. reflexivity.
  - apply ringlessb_sound. vm_compute. reflexivity.
  - vm_compute. discriminate.
  - reflexivity.
  - reflexivity.
  - vm_compute. lia.
Defined.

Lemma insert_keeps_ringless_witness :
  exists s' ts',
    insert (TP := params8 0) 12 64 (tree3 0) = Some (Iterator (st_this (tree3 0)) 64, s') /\
    wf (TP := params8 0) s' ts' /\ ringless s' (attached ts') /\
    attached ts' ≡ₚ 64 :: attached branches3 /\
    st_this s' = st_this (tree3 0).
Proof.
  apply (insert_keeps_ringless (TP := params8 0) (tree3 0) branches3 64 (fresh_item 5) 12).
  - apply wfb_sound. vm_compute. reflexivity.
  - apply ringlessb_sound. vm_compute. reflexivity.
  - discriminate.
  - reflexivity.
  - vm_compute. reflexivity.
  - vm_compute. split; [discriminate|reflexivity].
  - apply (bool_decide_unpack _). vm_compute. reflexivity.
  - apply (proj1 (Forall_forall _ _)). apply (bool_decide_unpack _). vm_compute. reflexivity.
  - vm_compute. discriminate.
  - vm_compute. lia.
Defined.


Lemma dec_at_duplicate_faults_witness :
  _trieprev (TP := params8 0) 12 80 twice_5 = None /\
  _dec (TP := params8 0) 12 (Iterator (st_this twice_5) 80) twice_5 = None.
Proof.
  destruct (st_items twice_5 !! 80) as [vr|] eqn:Hvr; [|vm_compute in Hvr; discriminate].
  destruct (st_items twice_5 !! 64) as [vx|] eqn:Hvx; [|vm_compute in Hvx; discriminate].
  apply (dec_at_duplicate_faults (TP := params8 0) twice_5 80 64 vr vx 12).
  - vm_compute. discriminate.
  - discriminate.
  - exact Hvr.
  - vm_compute in Hvr. injection Hvr as <-. reflexivity.
  - vm_compute in Hvr. injection Hvr as <-. reflexivity.
  - discriminate.
  - exact Hvx.
  - vm_compute in Hvx. injection Hvx as <-. reflexivity.
Defined.

(** ** The empty index and [swap] *)

Section emptiness.
Context {TP : TrieParams}.

Lemma attached_replicate_leaf (n : nat) : attached (replicate n Leaf) = [].
Proof. unfold attached. induction n as [|n IH]; [reflexivity|exact IH]. Qed.

Lemma wf_no_branches s :
  0 < key_type_bits <= 64 ->
  key_type_bits <= Z.of_nat (length (trie_children (st_head s))) ->
  (forall n, 0 <= n < key_type_bits -> head_accessors.child n (st_head s) = Some nullptr) ->
  0 <= trie_count (st_head s) <= head_accessors.max_size ->
  wf s (replicate (Z.to_nat key_type_bits) Leaf).
Proof.
  intros HB Hlen Hch Hsz. split.
  - exact HB.
  - exact Hlen.
  - rewrite length_replicate. lia.
  - intros b t Ht. apply lookup_replicate in Ht as [-> Hb].
    split; cbn; auto. apply Hch. lia.
  - rewrite attached_replicate_leaf. constructor.
  - rewrite attached_replicate_leaf. cbn. lia.
Qed.

Lemma clear_valid s :
  0 < key_type_bits <= 64 -> 0 <= index_type_bits ->
  key_type_bits <= Z.of_nat (length (trie_children (st_head s))) ->
  exists s',
    clear s = Some (tt, s') /\
    wf s' (replicate (Z.to_nat key_type_bits) Leaf) /\
    head_accessors.size (st_head s') = 0 /\
    st_this s' = st_this s /\ st_items s' = st_items s.
Proof.
  intros HB Hidx Hlen.
  destruct (clear_loop_spec (Z.to_nat key_type_bits) 0 s) as (s1 & Hrun & Hsw); [lia..|].
  destruct Hsw as (Hth & Hit & Hc & Hd & Hl & Hch).
  exists (State (st_this s1) (head_accessors.set_size 0 (st_head s1)) (st_items s1)).
  split; [unfold clear, bind; rewrite Hrun; reflexivity|].
  split; [|split; [reflexivity|split; assumption]].
  apply wf_no_branches; cbn [st_head]; try assumption.
  - change (trie_children (head_accessors.set_size 0 (st_head s1)))
      with (trie_children (st_head s1)). lia.
  - intros n Hn.
    change (head_accessors.child n (head_accessors.set_size 0 (st_head s1)))
      with (head_accessors.child n (st_head s1)).
    rewrite Hch.
    destruct (Z.leb_spec 0 n), (Z.ltb_spec n (0 + Z.of_nat (Z.to_nat key_type_bits)));
      try lia. reflexivity.
  - cbn. unfold head_accessors.max_size.
    assert (0 < 2 ^ index_type_bits) by (apply Z.pow_pos_nonneg; lia). lia.
Qed.

(** X14. An index whose size is 0 behaves as empty whatever its head slots
    hold: [empty()] is true, [begin()] equals [end()], [front()] and
    [back()] abort, incrementing or decrementing [end()] yields [end()],
    both the forward and the backward walk visit nothing, and [begin()]
    is not a valid iterator: [operator bool] is false and dereferencing
    it aborts.  None of these calls changes the state. *)
Theorem empty_index_edges s fuel :
  head_accessors.size (st_head s) = 0 ->
  empty s = Some (true, s) /\
  begin_ s = Some (Iterator (st_this s) nullptr, s) /\
  end_ s = Some (Iterator (st_this s) nullptr, s) /\
  front s = None /\ back fuel s = None /\
  _inc fuel (Iterator (st_this s) nullptr) s = Some (Iterator (st_this s) nullptr, s) /\
  _dec fuel (Iterator (st_this s) nullptr) s = Some (Iterator (st_this s) nullptr, s) /\
  traversal (S fuel) s = Some ([], s) /\ traversal_back (S fuel) s = Some ([], s) /\
  iterator_ops.to_bool (Iterator (st_this s) nullptr) = false /\
  iterator_ops.deref (Iterator (st_this s) nullptr) = None.
Proof.
  intros Hz. unfold head_accessors.size in Hz.
  assert (Hmin : _triemin s = Some (nullptr, s)).
  { unfold _triemin, bind, hget, head_accessors.size. rewrite Hz. reflexivity. }
  assert (Hmax : _triemax fuel s = Some (nullptr, s)) by (apply triemax_size_zero; exact Hz).
  assert (Hb : begin_ s = Some (Iterator (st_this s) nullptr, s)).
  { unfold begin_, bind, this_. rewrite Hmin. reflexivity. }
  split; [unfold empty, bind, hget, head_accessors.size; rewrite Hz; reflexivity|].
  split; [exact Hb|]. split; [reflexivity|].
  split; [unfold front, bind; rewrite Hmin; reflexivity|].
  split; [unfold back, bind; rewrite Hmax; reflexivity|].
  split.
  { unfold _inc. cbn [_parent _p]. rewrite Z.eqb_refl. cbn [negb andb].
    rewrite andb_false_r. reflexivity. }
  split.
  { unfold _dec. cbn [_parent _p].
    destruct (Z.eqb_spec (st_this s) nullptr) as [E|E]; cbn [negb]; [reflexivity|].
    unfold bind at 1, this_. rewrite Z.eqb_refl. rewrite Z.eqb_refl.
    unfold bind. rewrite (triemax_size_zero s fuel Hz). reflexivity. }
  split.
  { unfold traversal, bind. rewrite Hb. reflexivity. }
  split.
  { unfold traversal_back, bind. rewrite Hb. reflexivity. }
  unfold iterator_ops.to_bool, iterator_ops.deref. cbn [_parent _p].
  rewrite Z.eqb_refl. cbn [negb]. rewrite andb_false_r, orb_true_r.
  split; reflexivity.
Qed.

End emptiness.

Section swapping.
Context {TP : TrieParams}.

Lemma head_child_nat (h : head) (i : nat) :
  head_accessors.child (Z.of_nat i) h = trie_children h !! i.
Proof.
  unfold head_accessors.child. destruct (Z.ltb_spec (Z.of_nat i) 0); [lia|].
  rewrite Nat2Z.id. reflexivity.
Qed.

Lemma swap_loop_spec (cnt : nat) : forall (n : nat) (o : head) s,
  (n + cnt <= length (trie_children (st_head s)))%nat ->
  (n + cnt <= length (trie_children o))%nat ->
  exists l l',
    swap_loop cnt (Z.of_nat n) o s =
      Some (Head (trie_count o) l' (trie_nobbledir o),
            State (st_this s)
                  (Head (trie_count (st_head s)) l (trie_nobbledir (st_head s)))
                  (st_items s)) /\
    slots_from (trie_children o) (trie_children (st_head s)) l cnt n /\
    slots_from (trie_children (st_head s)) (trie_children o) l' cnt n.
Proof.
  induction cnt as [|cnt IH]; intros n o s Hs Ho.
  - exists (trie_children (st_head s)), (trie_children o). cbn [swap_loop].
    split; [destruct s as [t [c l f] m], o; reflexivity|].
    split; (split; [reflexivity|]); intros i;
      destruct (Nat.leb_spec n i), (Nat.ltb_spec i (n + 0)); cbn; try reflexivity; lia.
  - cbn [swap_loop].
    destruct (lookup_lt_is_Some_2 (trie_children (st_head s)) n ltac:(lia)) as [x Hx].
    destruct (lookup_lt_is_Some_2 (trie_children o) n ltac:(lia)) as [y Hy].
    erewrite bind_run by (apply hchild_Some; split; [rewrite head_child_nat; exact Hx|reflexivity]).
    rewrite head_child_nat, Hy.
    unfold hset_child at 1. unfold bind at 1.
    rewrite (head_set_child_Some (Z.of_nat n) y (st_head s)) by lia.
    rewrite (head_set_child_Some (Z.of_nat n) x o) by lia.
    rewrite !Nat2Z.id.
    set (s1 := State (st_this s)
                 (Head (trie_count (st_head s)) (<[n := y]> (trie_children (st_head s)))
                       (trie_nobbledir (st_head s))) (st_items s)).
    set (o1 := Head (trie_count o) (<[n := x]> (trie_children o)) (trie_nobbledir o)).
    replace (Z.of_nat n + 1) with (Z.of_nat (S n)) by lia.
    destruct (IH (S n) o1 s1) as (l & l' & Hrun & [Hl1 Hl2] & [Hl1' Hl2']).
    { subst s1. cbn. rewrite length_insert. lia. }
    { subst o1. cbn. rewrite length_insert. lia. }
    exists l, l'. split; [exact Hrun|].
    subst s1 o1. cbn [st_head st_this st_items trie_children trie_count trie_nobbledir] in *.
    rewrite length_insert in Hl1, Hl1'.
    split; (split; [assumption|]); intros i.
    + rewrite Hl2.
      destruct (decide (i = n)) as [->|Hin].
      * rewrite !list_lookup_insert_eq by lia. rewrite Hy.
        destruct (Nat.leb_spec (S n) n); [lia|].
        destruct (Nat.leb_spec n n); [|lia].
        destruct (Nat.ltb_spec n (n + S cnt)); [|lia]. reflexivity.
      * rewrite !list_lookup_insert_ne by lia.
        destruct (Nat.leb_spec (S n) i), (Nat.ltb_spec i (S n + cnt)),
                 (Nat.leb_spec n i), (Nat.ltb_spec i (n + S cnt)); cbn; try lia; reflexivity.
    + rewrite Hl2'.
      destruct (decide (i = n)) as [->|Hin].
      * rewrite !list_lookup_insert_eq by lia. rewrite Hx.
        destruct (Nat.leb_spec (S n) n); [lia|].
        destruct (Nat.leb_spec n n); [|lia].
        destruct (Nat.ltb_spec n (n + S cnt)); [|lia]. reflexivity.
      * rewrite !list_lookup_insert_ne by lia.
        destruct (Nat.leb_spec (S n) i), (Nat.ltb_spec i (S n + cnt)),
                 (Nat.leb_spec n i), (Nat.ltb_spec i (n + S cnt)); cbn; try lia; reflexivity.
Qed.

Lemma swap_spec (o : head) s :
  (0 <= key_type_bits) ->
  key_type_bits <= Z.of_nat (length (trie_children (st_head s))) ->
  key_type_bits <= Z.of_nat (length (trie_children o)) ->
  exists l l',
    swap o s =
      Some (Head (trie_count (st_head s)) l' (trie_nobbledir o),
            State (st_this s) (Head (trie_count o) l (trie_nobbledir (st_head s)))
                  (st_items s)) /\
    slots_from (trie_children o) (trie_children (st_head s)) l (Z.to_nat key_type_bits) 0 /\
    slots_from (trie_children (st_head s)) (trie_children o) l' (Z.to_nat key_type_bits) 0.
Proof.
  intros HB Hs Ho.
  destruct (swap_loop_spec (Z.to_nat key_type_bits) 0 o s ltac:(lia) ltac:(lia))
    as (l & l' & Hrun & Hl & Hl').
  exists l, l'. split; [|split; assumption].
  unfold swap. change 0 with (Z.of_nat 0). rewrite (bind_run _ _ _ _ _ Hrun).
  reflexivity.
Qed.


Lemma wf_rehead s s' ts :
  wf s ts ->
  st_items s' = st_items s ->
  key_type_bits <= Z.of_nat (length (trie_children (st_head s'))) ->
  (forall i : nat, Z.of_nat i < key_type_bits ->
     trie_children (st_head s') !! i = trie_children (st_head s) !! i) ->
  trie_count (st_head s') = trie_count (st_head s) ->
  wf s' ts.
Proof.
  intros Hwf Hit Hlen Hch Hcnt.
  assert (Hkey : forall q, key_at s' q = key_at s q).
  { intros q. unfold key_at. rewrite Hit. reflexivity. }
  split.
  - exact (wf_bits _ _ Hwf).
  - exact Hlen.
  - exact (wf_count _ _ Hwf).
  - intros b t Ht. apply (branch_ok_frame s s' _ t (wf_branch _ _ Hwf b t Ht)).
    + rewrite !head_child_nat. apply Hch.
      apply lookup_lt_Some in Ht. pose proof (wf_count _ _ Hwf). lia.
    + intros q _. rewrite Hit. reflexivity.
  - erewrite list_fmap_ext; [exact (wf_distinct _ _ Hwf)|].
    intros i x _. apply Hkey.
  - rewrite Hcnt. exact (wf_size _ _ Hwf).
Qed.

Lemma slots_from_full (k l l' : list Z) (cnt : nat) (i : nat) :
  slots_from k l l' cnt 0 -> (i < cnt)%nat -> l' !! i = k !! i.
Proof.
  intros [_ H] Hi. rewrite H.
  destruct (Nat.leb_spec 0 i); [|lia]. destruct (Nat.ltb_spec i (0 + cnt)); [|lia].
  reflexivity.
Qed.

(** X15. [swap] exchanges two well-formed indexes over the same items:
    afterwards this index has the branches and the size of the other and
    the other those of this one, both are well-formed, and no item has
    been written.  The nobble-direction flags stay where they were. *)
Theorem swap_exchanges_indexes (o : head) (othis : Z) s ts tso :
  wf s ts -> wf (State othis o (st_items s)) tso ->
  exists o' s',
    swap o s = Some (o', s') /\
    wf s' tso /\ wf (State othis o' (st_items s')) ts /\
    st_items s' = st_items s /\ st_this s' = st_this s /\
    head_accessors.size (st_head s') = head_accessors.size o /\
    head_accessors.size o' = head_accessors.size (st_head s) /\
    trie_nobbledir (st_head s') = trie_nobbledir (st_head s) /\
    trie_nobbledir o' = trie_nobbledir o.
Proof.
  intros Hwf Hwfo.
  pose proof (wf_bits _ _ Hwf) as HB.
  pose proof (wf_slots _ _ Hwf) as Hls.
  pose proof (wf_slots _ _ Hwfo) as Hlo. cbn [st_head] in Hlo.
  destruct (swap_spec o s ltac:(lia) Hls Hlo) as (l & l' & Hrun & Hl & Hl').
  eexists _, _. split; [exact Hrun|].
  cbn [st_head st_items st_this trie_count trie_nobbledir trie_children head_accessors.size].
  split; [|split; [|repeat split]].
  - apply (wf_rehead (State othis o (st_items s)) _ tso Hwfo); cbn [st_head st_items trie_children trie_count].
    + reflexivity.
    + destruct Hl as [-> _]. exact Hls.
    + intros i Hi. apply (slots_from_full _ _ _ _ _ Hl). lia.
    + reflexivity.
  - apply (wf_rehead s _ ts Hwf); cbn [st_head st_items trie_children trie_count].
    + reflexivity.
    + destruct Hl' as [-> _]. exact Hlo.
    + intros i Hi. apply (slots_from_full _ _ _ _ _ Hl'). lia.
    + reflexivity.
Qed.

Lemma slots_from_twice (k l k' l' k'' l'' : list Z) (cnt : nat) :
  slots_from k l l' cnt 0 -> slots_from l k k' cnt 0 ->
  slots_from k' l' l'' cnt 0 -> slots_from l' k' k'' cnt 0 ->
  l'' = l /\ k'' = k.
Proof.
  intros [E1 H1] [E2 H2] [E3 H3] [E4 H4].
  split; apply list_eq; intros i.
  - rewrite H3, H2, H1. destruct ((0 <=? i)%nat && (i <? 0 + cnt)%nat); reflexivity.
  - rewrite H4, H2, H1. destruct ((0 <=? i)%nat && (i <? 0 + cnt)%nat); reflexivity.
Qed.

(** X16. Swapping two indexes twice restores both heads exactly. *)
Theorem swap_twice_is_identity (o : head) s :
  0 <= key_type_bits ->
  key_type_bits <= Z.of_nat (length (trie_children (st_head s))) ->
  key_type_bits <= Z.of_nat (length (trie_children o)) ->
  (let! o1 := swap o in swap o1) s = Some (o, s).
Proof.
  intros HB Hs Ho.
  destruct (swap_spec o s HB Hs Ho) as (l & l' & Hrun & Hl & Hl').
  rewrite (bind_run _ _ _ _ _ Hrun).
  set (o1 := Head _ l' _). set (s1 := State _ (Head _ l _) _).
  destruct (swap_spec o1 s1) as (l2 & l2' & Hrun2 & Hl2 & Hl2').
  { exact HB. }
  { subst s1. cbn. destruct Hl as [-> _]. exact Hs. }
  { subst o1. cbn. destruct Hl' as [-> _]. exact Ho. }
  rewrite Hrun2. subst o1 s1.
  cbn [st_head st_items st_this trie_count trie_nobbledir trie_children] in *.
  destruct (slots_from_twice _ _ _ _ _ _ _ Hl Hl' Hl2 Hl2') as [-> ->].
  destruct s as [t [c ch f] m], o. reflexivity.
Qed.

End swapping.

(** ** Read-only members *)

Section readonly_more.
Context {TP : TrieParams}.

Ltac ro_step :=
  first
    [ assumption
    | apply readonly_ret | apply readonly_fail | apply readonly_get
    | apply readonly_hget | apply readonly_hchild | apply readonly_this
    | apply readonly_scan_up | apply readonly_trienext | apply readonly_triemin
    | apply readonly_inc
    | apply readonly_bind; [| intros ?]
    | match goal with
      | |- readonly (if ?b then _ else _) => destruct b
      | |- readonly (let _ := _ in _) => cbv zeta
      end ].

Lemma readonly_scan_down fuel : forall bitidx node, readonly (scan_down fuel bitidx node).
Proof.
  induction fuel as [|fuel IH]; intros bitidx node; cbn [scan_down]; repeat ro_step.
  apply IH.
Qed.

Lemma readonly_descend_last fuel : forall node, readonly (descend_last fuel node).
Proof.
  induction fuel as [|fuel IH]; intros node; cbn [descend_last]; repeat ro_step.
  apply IH.
Qed.

Lemma readonly_end_leaf node : readonly (end_leaf node).
Proof. unfold end_leaf; repeat ro_step. Qed.

Lemma readonly_triemax fuel : readonly (_triemax fuel).
Proof.
  unfold _triemax; repeat ro_step;
    first [apply readonly_scan_down | apply readonly_descend_last | apply readonly_end_leaf].
Qed.

Lemma readonly_triebranchprev fuel r : readonly (_triebranchprev fuel r).
Proof.
  unfold _triebranchprev; repeat ro_step;
    first [apply readonly_descend_last | apply readonly_end_leaf].
Qed.

Lemma readonly_trieprev fuel r : readonly (_trieprev fuel r).
Proof.
  unfold _trieprev; repeat ro_step;
    first [apply readonly_triebranchprev | apply readonly_scan_down
          | apply readonly_descend_last | apply readonly_end_leaf].
Qed.

Ltac ro_back :=
  repeat first
    [ apply readonly_scan_down | apply readonly_descend_last | apply readonly_end_leaf
    | apply readonly_triemax | apply readonly_triebranchprev | apply readonly_trieprev
    | ro_step ].

Lemma readonly_dec fuel it : readonly (_dec fuel it).
Proof. unfold _dec; ro_back. Qed.

Lemma readonly_iterate fuel n : forall it, readonly (iterate fuel n it).
Proof.
  induction n as [|n IH]; intros it; cbn [iterate]; repeat ro_step. apply IH.
Qed.

Lemma readonly_iterate_back fuel n : forall first it, readonly (iterate_back fuel n first it).
Proof.
  induction n as [|n IH]; intros first it; cbn [iterate_back]; ro_back.
  - apply readonly_dec.
  - apply IH.
Qed.

Lemma readonly_begin : readonly begin_.
Proof. unfold begin_; repeat ro_step. Qed.

Lemma readonly_end : readonly end_.
Proof. unfold end_; repeat ro_step. Qed.

(** X17. The navigation members are read-only: a run of [_triemin],
    [_triemax], [_trienext], [_trieprev], of an iterator increment or
    decrement, of [begin()], [end()], [front()], [back()], [empty()] or of
    a whole forward or backward walk that completes leaves the head and
    every item as it found them. *)
Theorem navigation_is_readonly fuel :
  readonly _triemin /\ readonly (_triemax fuel) /\
  (forall r, readonly (_trienext fuel r)) /\ (forall r, readonly (_trieprev fuel r)) /\
  (forall it, readonly (_inc fuel it)) /\ (forall it, readonly (_dec fuel it)) /\
  readonly begin_ /\ readonly end_ /\ readonly front /\ readonly (back fuel) /\
  readonly empty /\ readonly (traversal fuel) /\ readonly (traversal_back fuel).
Proof.
  repeat split; try intros ?.
  - apply readonly_triemin.
  - apply readonly_triemax.
  - apply readonly_trienext.
  - apply readonly_trieprev.
  - apply readonly_inc.
  - apply readonly_dec.
  - apply readonly_begin.
  - apply readonly_end.
  - unfold front; repeat ro_step.
  - unfold back; ro_back.
  - unfold empty; repeat ro_step.
  - unfold traversal. apply readonly_bind; [apply readonly_begin|].
    intros b. apply readonly_iterate.
  - unfold traversal_back. apply readonly_bind; [apply readonly_begin|].
    intros b. apply readonly_bind; [apply readonly_end|].
    intros e. apply readonly_iterate_back.
Qed.

End readonly_more.

(** ** Copies, [clear] and the constructor *)

Section copies.
Context {TP : TrieParams}.

(** X18. Copy construction and copy assignment from a well-formed index
    give a well-formed index with the same branches over the same items:
    a walk over the copy visits the same items in the same order as a
    walk over the original. *)
Theorem copy_is_valid_index (o : head) (othis : Z) s tso fuel :
  wf (State othis o (st_items s)) tso ->
  key_type_bits <= Z.of_nat (length (trie_children (st_head s))) ->
  st_this s <> nullptr -> othis <> nullptr ->
  (Z.to_nat key_type_bits + 1 < fuel)%nat -> (length (attached tso) < fuel)%nat ->
  exists s',
    copy_from o s = Some (tt, s') /\ wf s' tso /\ st_items s' = st_items s /\
    traversal fuel s' = Some (attached tso, s') /\
    traversal fuel (State othis o (st_items s)) =
      Some (attached tso, State othis o (st_items s)).
Proof.
  intros Hwfo Hlen Hthis Hothis Hfuel Hn.
  pose proof (wf_bits _ _ Hwfo) as HB.
  pose proof (wf_slots _ _ Hwfo) as Hlo. cbn [st_head] in Hlo.
  destruct (copy_loop_spec o (Z.to_nat key_type_bits) 0 s) as (s1 & Hrun & Hsw); [lia..|].
  destruct Hsw as (Hth & Hit & Hc & Hd & Hl & Hch).
  set (s' := State (st_this s1) (head_accessors.set_size (head_accessors.size o) (st_head s1))
                   (st_items s1)).
  assert (Hwf' : wf s' tso).
  { apply (wf_rehead (State othis o (st_items s)) s' tso Hwfo); subst s';
      cbn [st_head st_items trie_children trie_count head_accessors.set_size].
    - exact Hit.
    - rewrite Hl. exact Hlen.
    - intros i Hi. rewrite <- !head_child_nat.
      change (head_accessors.child (Z.of_nat i) (st_head s1) =
              head_accessors.child (Z.of_nat i) o).
      rewrite Hch.
      destruct (Z.leb_spec 0 (Z.of_nat i)); [|lia].
      destruct (Z.ltb_spec (Z.of_nat i) (0 + Z.of_nat (Z.to_nat key_type_bits))); [|lia].
      reflexivity.
    - reflexivity. }
  exists s'. split; [unfold copy_from, bind; rewrite Hrun; reflexivity|].
  split; [exact Hwf'|]. split; [exact Hit|]. split.
  - apply traversal_valid; auto. subst s'. cbn [st_this]. congruence.
  - apply traversal_valid; auto.
Qed.

(** X19. After [clear()] any item can be inserted again, also one that was
    attached before the call and still carries its old links: for an
    allocated, aligned item with a key in range, [clear()] followed by
    [insert] succeeds, and the index then has size 1 and a walk over it
    visits that item alone. *)
Theorem clear_then_insert_reuses_item s p v fuel :
  0 < key_type_bits <= 64 -> 0 < index_type_bits ->
  key_type_bits <= Z.of_nat (length (trie_children (st_head s))) ->
  p <> nullptr -> p mod 4 = 0 -> st_items s !! p = Some v ->
  0 <= trie_key v < 2 ^ key_type_bits -> st_this s <> nullptr ->
  (Z.to_nat key_type_bits + 1 < fuel)%nat ->
  exists s',
    (clear ;;; insert fuel p) s = Some (Iterator (st_this s) p, s') /\
    head_accessors.size (st_head s') = 1 /\
    traversal fuel s' = Some ([p], s').
Proof.
  intros HB Hidx Hlen Hp Hal Hv Hk Hthis Hfuel.
  destruct (clear_valid s HB ltac:(lia) Hlen) as (s1 & Hclr & Hwf1 & Hsz1 & Hth1 & Hit1).
  assert (Hmax : 1 <= head_accessors.max_size).
  { unfold head_accessors.max_size.
    assert (2 ^ 1 <= 2 ^ index_type_bits) by (apply Z.pow_le_mono_r; lia). lia. }
  destruct (insert_valid s1 _ p v fuel Hwf1 Hp Hal) as
    (s2 & ts2 & Hins & Hwf2 & Hth2 & Hsz2 & Hk2 & Hperm & _).
  { rewrite Hit1. exact Hv. } { exact Hk. }
  { rewrite attached_replicate_leaf. apply not_elem_of_nil. }
  { lia. } { lia. }
  exists s2. split; [|split; [lia|]].
  - rewrite (bind_run _ _ _ _ _ Hclr). rewrite <- Hth1. exact Hins.
  - assert (Ha : attached ts2 = [p]).
    { rewrite attached_replicate_leaf in Hperm.
      apply Permutation_singleton_r. apply Hperm.
      intros y Hy. inversion Hy. }
    rewrite <- Ha. apply traversal_valid; auto; [congruence|].
    rewrite Ha. cbn. lia.
Qed.

(** X20. The default constructor (which is [clear()]) leaves a well-formed
    index with no item in any branch and size 0, whatever the head held
    before, and writes no item. *)
Theorem construct_gives_empty_index s :
  0 < key_type_bits <= 64 -> 0 <= index_type_bits ->
  key_type_bits <= Z.of_nat (length (trie_children (st_head s))) ->
  exists s',
    construct s = Some (tt, s') /\
    wf s' (replicate (Z.to_nat key_type_bits) Leaf) /\
    attached (replicate (Z.to_nat key_type_bits) Leaf) = [] /\
    head_accessors.size (st_head s') = 0 /\
    st_this s' = st_this s /\ st_items s' = st_items s.
Proof.
  intros HB Hidx Hlen.
  destruct (clear_valid s HB Hidx Hlen) as (s' & Hrun & Hwf & Hsz & Hth & Hit).
  exists s'. split; [exact Hrun|]. split; [exact Hwf|].
  split; [apply attached_replicate_leaf|]. auto.
Qed.

End copies.

Lemma construct_gives_empty_index_witness :
  exists s',
    construct (TP := params8 0) (tree3 0) = Some (tt, s') /\
    wf (TP := params8 0) s' (replicate (Z.to_nat (@key_type_bits (params8 0))) Leaf) /\
    attached (replicate (Z.to_nat (@key_type_bits (params8 0))) Leaf) = [] /\
    head_accessors.size (st_head s') = 0 /\
    st_this s' = st_this (tree3 0) /\ st_items s' = st_items (tree3 0).
Proof.
  apply (construct_gives_empty_index (TP := params8 0) (tree3 0)).
  - vm_compute. split; [reflexivity|discriminate].
  - vm_compute. discriminate.
  - vm_compute. discriminate.
Defined.

Lemma empty_index_edges_witness :
  empty store5 = Some (true, store5) /\
  begin_ (TP := params8 0) store5 = Some (Iterator (st_this store5) nullptr, store5) /\
  end_ store5 = Some (Iterator (st_this store5) nullptr, store5) /\
  front (TP := params8 0) store5 = None /\ back (TP := params8 0) 10 store5 = None /\
  _inc (TP := params8 0) 10 (Iterator (st_this store5) nullptr) store5 =
    Some (Iterator (st_this store5) nullptr, store5) /\
  _dec (TP := params8 0) 10 (Iterator (st_this store5) nullptr) store5 =
    Some (Iterator (st_this store5) nullptr, store5) /\
  traversal (TP := params8 0) 11 store5 = Some ([], store5) /\
  traversal_back (TP := params8 0) 11 store5 = Some ([], store5) /\
  iterator_ops.to_bool (Iterator (st_this store5) nullptr) = false /\
  iterator_ops.deref (Iterator (st_this store5) nullptr) = None.
Proof.
  apply (empty_index_edges (TP := params8 0) store5 10).
  reflexivity.
Defined.

Lemma clear_then_insert_reuses_item_witness :
  exists s',
    (clear (TP := params8 0) ;;; insert (TP := params8 0) 12 48) (tree3 0) =
      Some (Iterator (st_this (tree3 0)) 48, s') /\
    head_accessors.size (st_head s') = 1 /\
    traversal (TP := params8 0) 12 s' = Some ([48], s').
Proof.
  destruct (st_items (tree3 0) !! 48) as [v|] eqn:Hv; [|vm_compute in Hv; discriminate].
  apply (clear_then_insert_reuses_item (TP := params8 0) (tree3 0) 48 v 12).
  - vm_compute. split; [reflexivity|discriminate].
  - reflexivity.
  - vm_compute. discriminate.
  - discriminate.
  - reflexivity.
  - exact Hv.
  - vm_compute in Hv. injection Hv as <-. vm_compute. split; [discriminate|reflexivity].
  - vm_compute. discriminate.
  - vm_compute. lia.
Defined.

Lemma copy_is_valid_index_witness :
  exists s',
    copy_from (TP := params8 0) head_a (State 3000 (st_head store5) items_ab) = Some (tt, s') /\
    wf (TP := params8 0) s' branches3 /\ st_items s' = items_ab /\
    traversal (TP := params8 0) 12 s' = Some (attached branches3, s') /\
    traversal (TP := params8 0) 12 index_a = Some (attached branches3, index_a).
Proof.
  apply (copy_is_valid_index (TP := params8 0) head_a 1000
           (State 3000 (st_head store5) items_ab) branches3 12).
  - apply wfb_sound. vm_compute. reflexivity.
  - vm_compute. discriminate.
  - discriminate.
  - discriminate.
  - vm_compute. lia.
  - vm_compute. lia.
Defined.

Lemma swap_exchanges_indexes_witness :
  exists o' s',
    swap (TP := params8 0) head_b index_a = Some (o', s') /\
    wf (TP := params8 0) s' branches_5 /\
    wf (TP := params8 0) (State 2000 o' (st_items s')) branches3 /\
    st_items s' = st_items index_a /\ st_this s' = st_this index_a /\
    head_accessors.size (st_head s') = head_accessors.size head_b /\
    head_accessors.size o' = head_accessors.size (st_head index_a) /\
    trie_nobbledir (st_head s') = trie_nobbledir (st_head index_a) /\
    trie_nobbledir o' = trie_nobbledir head_b.
Proof.
  apply (swap_exchanges_indexes (TP := params8 0) head_b 2000 index_a branches3 branches_5).
  - apply wfb_sound. vm_compute. reflexivity.
  - apply wfb_sound. vm_compute. reflexivity.
Defined.

Lemma swap_twice_is_identity_witness :
  (let! o1 := swap (TP := params8 0) head_b in swap (TP := params8 0) o1) index_a =
    Some (head_b, index_a).
Proof.
  apply (swap_twice_is_identity (TP := params8 0) head_b index_a).
  - vm_compute. discriminate.
  - vm_compute. discriminate.
  - vm_compute. discriminate.
Defined.

(** ** The iterator operators *)


Ltac iter_unfold :=
  unfold iterator_ops.le, iterator_ops.ge in *;
  unfold iterator_ops.lt, iterator_ops.gt, iterator_ops.eq, iterator_ops.ne, nullptr in *;
  cbn [_parent _p fmap option_fmap option_map] in *.

Ltac iter_split :=
  repeat match goal with
         | |- context [?x =? ?y] => destruct (Z.eqb_spec x y)
         | |- context [?x <? ?y] => destruct (Z.ltb_spec x y)
         | H : context [?x =? ?y] |- _ => destruct (Z.eqb_spec x y)
         | H : context [?x <? ?y] |- _ => destruct (Z.ltb_spec x y)
         end;
  cbn [negb andb orb fmap option_fmap option_map] in *.

Ltac iter_done :=
  try discriminate; try congruence; try reflexivity; try lia.

Section iterator_order.
Import iterator_ops.

Lemma iter_lt_irrefl (par p : Z) : lt (Iterator par p) (Iterator par p) = Some false.
Proof. iter_unfold. iter_split; iter_done. Qed.

Lemma iter_lt_trans (par p q r : Z) :
  lt (Iterator par p) (Iterator par q) = Some true ->
  lt (Iterator par q) (Iterator par r) = Some true ->
  lt (Iterator par p) (Iterator par r) = Some true.
Proof. iter_unfold. intros H1 H2. iter_split; iter_done. Qed.

Lemma iter_lt_total (par p q : Z) :
  lt (Iterator par p) (Iterator par q) = Some true \/ p = q \/
  lt (Iterator par q) (Iterator par p) = Some true.
Proof.
  iter_unfold. iter_split; iter_done; auto;
    try (right; left; lia); try (left; reflexivity); try (right; right; reflexivity).
Qed.

Lemma iter_gt_flip (par p q : Z) :
  gt (Iterator par p) (Iterator par q) = lt (Iterator par q) (Iterator par p).
Proof. iter_unfold. iter_split; iter_done. Qed.

Lemma iter_lt_end (par p : Z) :
  (p <> nullptr -> lt (Iterator par p) (Iterator par nullptr) = Some true) /\
  lt (Iterator par nullptr) (Iterator par p) = Some false.
Proof. iter_unfold. split; [intros Hp|]; iter_split; iter_done. Qed.

Lemma iter_le_is_not_lt (par p q : Z) :
  le (Iterator par p) (Iterator par q) = negb <$> lt (Iterator par p) (Iterator par q) /\
  ge (Iterator par p) (Iterator par q) = negb <$> gt (Iterator par p) (Iterator par q).
Proof. iter_unfold. split; iter_split; iter_done. Qed.

(** X21. On the iterators of one index, [operator<] is a strict total
    order by item address in which [end()] is greatest: it is
    irreflexive and transitive, any two distinct positions are ordered
    one way or the other, every iterator to an item is less than
    [end()], and [end()] is less than nothing.  [operator>] is the same
    order read backwards. *)
Theorem iterator_lt_strict_order (par p q r : Z) :
  lt (Iterator par p) (Iterator par p) = Some false /\
  (lt (Iterator par p) (Iterator par q) = Some true ->
   lt (Iterator par q) (Iterator par r) = Some true ->
   lt (Iterator par p) (Iterator par r) = Some true) /\
  (lt (Iterator par p) (Iterator par q) = Some true \/ p = q \/
   lt (Iterator par q) (Iterator par p) = Some true) /\
  (p <> nullptr -> lt (Iterator par p) (Iterator par nullptr) = Some true) /\
  lt (Iterator par nullptr) (Iterator par p) = Some false /\
  gt (Iterator par p) (Iterator par q) = lt (Iterator par q) (Iterator par p).
Proof.
  split; [apply iter_lt_irrefl|].
  split; [apply iter_lt_trans|].
  split; [apply iter_lt_total|].
  split; [apply iter_lt_end|].
  split; [apply iter_lt_end|apply iter_gt_flip].
Qed.

(** X22. [operator<=] is the negation of [operator<], and [operator>=]
    the negation of [operator>], on the same operands: the body
    [!(o > this)] negates "this is before [o]".  So [it <= it] holds, but
    for an iterator [it] to an item [it <= end()] is false and
    [end() <= it] is true, and likewise [end() >= it] is false. *)
Theorem iterator_le_is_negated_lt (par p q : Z) :
  le (Iterator par p) (Iterator par q) = negb <$> lt (Iterator par p) (Iterator par q) /\
  ge (Iterator par p) (Iterator par q) = negb <$> gt (Iterator par p) (Iterator par q) /\
  le (Iterator par p) (Iterator par p) = Some true /\
  (p <> nullptr ->
   le (Iterator par p) (Iterator par nullptr) = Some false /\
   le (Iterator par nullptr) (Iterator par p) = Some true /\
   ge (Iterator par nullptr) (Iterator par p) = Some false).
Proof.
  split; [apply iter_le_is_not_lt|].
  split; [apply iter_le_is_not_lt|].
  split.
  - rewrite (proj1 (iter_le_is_not_lt par p p)), iter_lt_irrefl. reflexivity.
  - intros Hp.
    rewrite !(proj1 (iter_le_is_not_lt par _ _)), (proj2 (iter_le_is_not_lt par _ _)).
    rewrite iter_gt_flip.
    rewrite (proj1 (iter_lt_end par p) Hp), (proj2 (iter_lt_end par p)).
    repeat split.
Qed.

End iterator_order.

Lemma iterator_lt_strict_order_witness :
  iterator_ops.lt (Iterator 1000 16) (Iterator 1000 48) = Some true.
Proof.
  apply (proj1 (proj2 (iterator_lt_strict_order 1000 16 32 48))); reflexivity.
Defined.

Lemma iterator_le_is_negated_lt_witness :
  iterator_ops.le (Iterator 1000 16) (Iterator 1000 nullptr) = Some false /\
  iterator_ops.le (Iterator 1000 nullptr) (Iterator 1000 16) = Some true /\
  iterator_ops.ge (Iterator 1000 nullptr) (Iterator 1000 16) = Some false.
Proof.
  apply (proj2 (proj2 (proj2 (iterator_le_is_negated_lt 1000 16 16)))).
  discriminate.
Defined.
